(** * disGo: dispatching commands over a pool of hosts

    A shallow embedding of the two variants of the dispatcher found in the
    repository: [main.go] (module [MainGo]) and the earlier, unnamed variant
    (module [Part000]).  Both run every command of a list on one host of a
    pool, retrying on the next host of a random order when the remote
    execution fails.

    The operating system, the remote transport and the scheduler are an
    explicit environment: a record of oracles that answers each call the
    program makes ([os.Create], [exec.Cmd.Run], [os.Rename], [os.Open],
    [rand.Intn], and which goroutine reports next).  The program itself is a
    function from that environment to a run: the events it performs in
    order, the file system it leaves, and how it ends. *)

From Stdlib Require Import Ascii String.
From stdpp Require Import base numbers strings list gmap pretty.

Local Open Scope string_scope.
Local Open Scope list_scope.
Local Open Scope Z_scope.

(** ** Go's [int] *)

(** [int] is 64 bits wide on the platforms the tool runs on; arithmetic
    wraps around in two's complement. *)
Definition int_max : Z := 2 ^ 63 - 1.

Definition int_wrap (z : Z) : Z := (z + 2 ^ 63) `mod` 2 ^ 64 - 2 ^ 63.

(** [x++] *)
Definition int_incr (x : Z) : Z := int_wrap (x + 1).

(** [x - y] *)
Definition int_sub (x y : Z) : Z := int_wrap (x - y).

(** The length of a slice is an [int]: no slice is longer than [int_max]. *)
Definition slice_len_ok {A} (l : list A) : Prop := Z.of_nat (length l) ≤ int_max.

(** ** [fmt]: the verb [%v] *)

(** [%v] on an [int] prints it in decimal, with a leading [-] when negative;
    on a string or an error it prints the text. *)
Definition fmt_int (z : Z) : string := pretty z.

(** The decimal digits: what [%v] prints of an [int], after its sign. *)
Definition is_digit (c : ascii) : bool :=
  let n := N_of_ascii c in (48 <=? n)%N && (n <=? 57)%N.

Fixpoint all_digits (s : string) : bool :=
  match s with
  | EmptyString => true
  | String c s' => is_digit c && all_digits s'
  end.

(** ** [math/rand] *)

(** The random source is a sequence of raw draws; [rand.Intn n] reduces the
    next one into [[0, n)]. *)
Definition rand_Intn (draw : nat) (n : nat) : nat := (draw `mod` n)%nat.

(** One iteration of the loop of [rand.Perm]:
    [j := r.Intn(i + 1); m[i] = m[j]; m[j] = i]. *)
Definition rand_Perm_step (src : nat → nat) (m : list nat) (i : nat) : list nat :=
  let j := rand_Intn (src i) (i + 1) in
  <[j := i]> (<[i := m !!! j]> m).

(** [rand.Perm n]: [m := make([]int, n)], then the loop for [i] from [0] to
    [n - 1]. *)
Definition rand_Perm (src : nat → nat) (n : nat) : list nat :=
  foldl (rand_Perm_step src) (replicate n 0%nat) (seq 0 n).

(** ** The environment *)

(** The file system: the contents of every file, by path. *)
Abbreviation FS := (gmap string string).

(** What one goroutine sees of the outside world.  The index [k] is the
    number of the loop iteration that makes the call, so that the same call
    may be answered differently as time passes.  The answers stand for the
    state of the machine at the time of the call: the errors of [os.Create]
    and [os.Rename] are given, not computed from the files, and every
    remote execution is taken to end. *)
Record Env := {
  (** the raw draws [rand.Perm] receives *)
  rand_src : nat → nat;
  (** the error of [os.Create path], if any *)
  os_Create_err : nat → string → option string;
  (** [exec.Cmd.Run] on an argument vector: the combined output written to
      [Stdout] and [Stderr], and the error, if any *)
  cmd_Run : nat → list string → string * option string;
  (** the error of [os.Rename old new], if any *)
  os_Rename_err : string → string → option string
}.

(** What the program does, in order. *)
Inductive event :=
  (** [os.Create path] returned [err] *)
  | Create (path : string) (err : option string)
  (** [tryCommand command hosts[i] outf] returned [err]; [outf] is the file
      created at [path] *)
  | Run (i : nat) (host command path : string) (err : option string)
  (** [os.Rename old new] returned [err] *)
  | Rename (old new : string) (err : option string)
  (** [debug] wrote a line to the diagnostic stream *)
  | Log (line : string)
  (** [doneChan <- b] *)
  | Send (b : bool)
  (** [<-doneChan] yielded [b] *)
  | Recv (b : bool)
  (** [go dispatch(id, ...)] *)
  | Go (id : Z)
  (** [os.Open path] returned [err] *)
  | Open (path : string) (err : option string)
  (** [flag.Usage()] *)
  | Usage
  (** [panic(msg)], or a run-time panic *)
  | Panic (msg : string).

Global Instance event_eq_dec : EqDecision event.
Proof. solve_decision. Defined.

(** How a call of [dispatch] ends: it sends its result and returns, or it
    panics. *)
Inductive outcome :=
  | Sent (b : bool)
  | Panicked (msg : string).

Global Instance outcome_eq_dec : EqDecision outcome.
Proof. solve_decision. Defined.

Record run := {
  events : list event;
  files : FS;
  result : outcome
}.

(** [evs +> r]: the run [r], after the events [evs]. *)
Definition after (evs : list event) (r : run) : run :=
  {| events := evs ++ events r; files := files r; result := result r |}.
Infix "+>" := after (at level 60, right associativity).

(** How the process ends: [main] returns, a goroutine panics (which
    terminates the whole program), or [os.Exit] is called. *)
Inductive exit :=
  | Returned
  | Crashed (msg : string)
  | Exited (code : Z).

Global Instance exit_eq_dec : EqDecision exit.
Proof. solve_decision. Defined.

Record process := {
  pevents : list event;
  pfiles : FS;
  pexit : exit
}.

Definition pafter (evs : list event) (p : process) : process :=
  {| pevents := evs ++ pevents p; pfiles := pfiles p; pexit := pexit p |}.
Infix "+>>" := pafter (at level 60, right associativity).

(** What the whole process sees of the outside world. *)
Record World := {
  (** the environment of the goroutine launched for command [i] *)
  goroutine : nat → Env;
  (** [os.Open path]: an error, or a file, given by the lines a
      [bufio.Scanner] yields from it and the error the scanner ends with *)
  os_Open : string → string + (list string * option string);
  (** which of the goroutines still running is the next to reach its send
      on [doneChan]: the raw choice at each receive of [main] *)
  sched : nat → nat
}.

(** *** File operations *)

(** [os.Create path]: creates the file, or truncates it when it exists. *)
Definition os_Create (e : Env) (k : nat) (path : string) (fs : FS) : option string * FS :=
  match os_Create_err e k path with
  | Some err => (Some err, fs)
  | None => (None, <[path := ""]> fs)
  end.

(** Writing [out] to an open file: appended at the end. *)
Definition file_Write (path out : string) (fs : FS) : FS :=
  alter (λ c, c +:+ out) path fs.

(** [os.Rename old new]: atomic; [new] is replaced when it exists. *)
Definition os_Rename (e : Env) (old new : string) (fs : FS) : option string * FS :=
  match fs !! old with
  | None => (Some "no such file or directory", fs)
  | Some c =>
      match os_Rename_err e old new with
      | Some err => (Some err, fs)
      | None => (None, <[new := c]> (delete old fs))
      end
  end.

(** *** Reading a trace *)

(** The calls of the Remote Executor: the index of the host in the pool, and
    whether the execution succeeded. *)
Definition tried (tr : list event) : list (nat * bool) :=
  omap (λ ev, match ev with
              | Run i _ _ _ err => Some (i, bool_decide (err = None))
              | _ => None
              end) tr.

(** The hosts the Remote Executor was called on, by name. *)
Definition ran_on (tr : list event) : list string :=
  omap (λ ev, match ev with Run _ host _ _ _ => Some host | _ => None end) tr.

(** The paths [os.Create] was called on, whatever the result. *)
Definition create_calls (tr : list event) : list string :=
  omap (λ ev, match ev with Create p _ => Some p | _ => None end) tr.

(** The paths of the artifacts [os.Create] created. *)
Definition created (tr : list event) : list string :=
  omap (λ ev, match ev with Create p None => Some p | _ => None end) tr.

(** The number of artifacts created: creating a path again truncates the
    artifact that is there, it makes no new one. *)
Definition attempt_artifacts (tr : list event) : nat :=
  length (remove_dups (created tr)).

(** The calls of [os.Rename]: source, target, and whether it succeeded. *)
Definition renames (tr : list event) : list (string * string * bool) :=
  omap (λ ev, match ev with
              | Rename old new err => Some (old, new, bool_decide (err = None))
              | _ => None
              end) tr.

(** The artifacts promoted: the targets of the renames that succeeded. *)
Definition promoted (tr : list event) : list string :=
  omap (λ ev, match ev with Rename _ new None => Some new | _ => None end) tr.

(** The values sent on [doneChan]. *)
Definition sends (tr : list event) : list bool :=
  omap (λ ev, match ev with Send b => Some b | _ => None end) tr.

(** The values received from [doneChan]. *)
Definition recvs (tr : list event) : list bool :=
  omap (λ ev, match ev with Recv b => Some b | _ => None end) tr.

(** The files [os.Open] was called on. *)
Definition opened (tr : list event) : list string :=
  omap (λ ev, match ev with Open p _ => Some p | _ => None end) tr.

(** The goroutines launched. *)
Definition launched (tr : list event) : list Z :=
  omap (λ ev, match ev with Go id => Some id | _ => None end) tr.

(** ** [flag]: the command line *)

(** The two flags the program defines, both of type string. *)
Record flags := {
  cmdsFilePath : string;
  hostsFilePath : string
}.

(** [flag.StringVar(&cmdsFilePath, "cmds", "cmds.txt", ...)] and
    [flag.StringVar(&hostsFilePath, "hosts", "hosts.txt", ...)]. *)
Definition flag_defaults : flags :=
  {| cmdsFilePath := "cmds.txt"; hostsFilePath := "hosts.txt" |}.

(** What [flag.Parse] makes of one argument. *)
Inductive token :=
  (** not a flag: parsing stops, the argument stays *)
  | NonFlag
  (** [--]: parsing stops, the argument is consumed *)
  | Terminator
  | BadSyntax
  (** [-name], [--name], [-name=value] or [--name=value] *)
  | Flag (name : string) (value : option string).

(** The name up to the first [=], and the value after it.  The caller has
    already set the first character of the name aside: [=] cannot be
    first. *)
Fixpoint split_equals (s : string) : string * option string :=
  match s with
  | EmptyString => (EmptyString, None)
  | String c s' =>
      if bool_decide (c = "="%char) then (EmptyString, Some s')
      else let '(name, value) := split_equals s' in (String c name, value)
  end.

Definition classify (s : string) : token :=
  match s with
  | String c0 (String c1 s2 as s1) =>
      if bool_decide (c0 = "-"%char) then
        if bool_decide (c1 = "-"%char) && bool_decide (s2 = EmptyString) then
          Terminator
        else
          match (if bool_decide (c1 = "-"%char) then s2 else s1) with
          | EmptyString => BadSyntax
          | String c name' =>
              if bool_decide (c = "-"%char) || bool_decide (c = "="%char) then
                BadSyntax
              else
                let '(rest, value) := split_equals name' in
                Flag (String c rest) value
          end
      else NonFlag
  | _ => NonFlag
  end.

(** [flag.Value.Set] on the flag called [name], when it is defined. *)
Definition flag_set (name value : string) (f : flags) : option flags :=
  if bool_decide (name = "cmds") then
    Some {| cmdsFilePath := value; hostsFilePath := hostsFilePath f |}
  else if bool_decide (name = "hosts") then
    Some {| cmdsFilePath := cmdsFilePath f; hostsFilePath := value |}
  else None.

Inductive parsed :=
  (** the flags, and [flag.Args()]: the arguments that follow them *)
  | Parsed (f : flags) (args : list string)
  (** [-h] or [-help]: usage is printed, [os.Exit(0)] *)
  | ParseHelp
  (** usage is printed, [os.Exit(2)] *)
  | ParseError (msg : string).

(** [flag.Parse()]: the flags are read off the front of [os.Args[1:]]. *)
Fixpoint flag_Parse (f : flags) (args : list string) : parsed :=
  match args with
  | [] => Parsed f []
  | s :: args' =>
      match classify s with
      | NonFlag => Parsed f args
      | Terminator => Parsed f args'
      | BadSyntax => ParseError ("bad flag syntax: " +:+ s)
      | Flag name value =>
          match flag_set name "" f with
          | None =>
              if bool_decide (name = "help") || bool_decide (name = "h")
              then ParseHelp
              else ParseError ("flag provided but not defined: -" +:+ name)
          | Some _ =>
              match value, args' with
              | Some v, _ =>
                  flag_Parse (default f (flag_set name v f)) args'
              | None, v :: args'' =>
                  flag_Parse (default f (flag_set name v f)) args''
              | None, [] =>
                  ParseError ("flag needs an argument: -" +:+ name)
              end
          end
      end
  end.

(** The first positional argument: [flag.Arg(0)], the first argument that
    follows the flags. *)
Definition first_positional (os_Args : list string) : option string :=
  match flag_Parse flag_defaults (tail os_Args) with
  | Parsed _ args => head args
  | _ => None
  end.

(** ** [readLines], common to both variants *)

(** [readLines path]: the lines and the error it returns, and the event of
    opening the file. *)
Definition readLines (w : World) (path : string) : list event * (list string * option string) :=
  match os_Open w path with
  | inl err => ([Open path (Some err)], ([], Some err))
  | inr (lines, scan_err) => ([Open path None], (lines, scan_err))
  end.

(** [debug format args...]: one line on the diagnostic stream. *)
Definition debug (line : string) : event := Log line.

(** * [main.go] *)

Module MainGo.

(** [tryCommand remoteCommand host outf]: runs [ssh -o ConnectTimeout=2 host
    remoteCommand] with both output streams going to [outf], and returns
    the error of the run. *)
Definition tryCommand (e : Env) (k : nat) (remoteCommand host outf : string)
    (fs : FS) : option string * FS :=
  let '(out, err) :=
    cmd_Run e k ["ssh"; "-o"; "ConnectTimeout=2"; host; remoteCommand] in
  (err, file_Write outf out fs).

(** [fmt.Sprintf("cmd_%v-attempt%v.log", id, attempts)] *)
Definition attemptOutputPath (id attempts : Z) : string :=
  "cmd_" +:+ fmt_int id +:+ "-attempt" +:+ fmt_int attempts +:+ ".log".

(** [fmt.Sprintf("cmd_%v-final.log", id)] *)
Definition finalOutputPath (id : Z) : string :=
  "cmd_" +:+ fmt_int id +:+ "-final.log".

(** The lines [dispatch] writes to the diagnostic stream. *)
Definition log_EXEC (id : Z) (host : string) : string :=
  "EXEC command id=" +:+ fmt_int id +:+ " host=" +:+ host.
Definition log_ERROR (id : Z) (err : string) : string :=
  "ERROR id=" +:+ fmt_int id +:+ " status=" +:+ err.
Definition log_ERROR_rename (id : Z) (final attempt : string) : string :=
  "ERROR (id=" +:+ fmt_int id +:+ "): could not write output path " +:+ final
    +:+ ", final output in " +:+ attempt.
Definition log_SUCC (id : Z) (attempt : string) : string :=
  "SUCC id=" +:+ fmt_int id +:+ " output=" +:+ attempt.
Definition log_FAILED (id : Z) : string :=
  "FAILED id=" +:+ fmt_int id +:+ " exhausted all servers and could not complete".

Section dispatch.
Context (e : Env) (id : Z) (command : string) (hosts : list string).

(** The loop [for _, i := range order] of [dispatch], from its iteration
    number [k] on, and what follows the loop. *)
Fixpoint dispatch_loop (order : list nat) (k : nat) (attempts : Z) (fs : FS) : run :=
  match order with
  | [] =>
      {| events := [debug (log_FAILED id); Send false];
         files := fs; result := Sent false |}
  | i :: order' =>
      match hosts !! i with
      | None =>
          {| events := [Panic "index out of range"];
             files := fs; result := Panicked "index out of range" |}
      | Some host =>
          let path := attemptOutputPath id attempts in
          let attempts := int_incr attempts in
          match os_Create e k path fs with
          | (Some err, fs) =>
              {| events := [Create path (Some err); Panic err];
                 files := fs; result := Panicked err |}
          | (None, fs) =>
              match tryCommand e k command host path fs with
              | (Some err, fs) =>
                  [Create path None; debug (log_EXEC id host);
                   Run i host command path (Some err);
                   debug (log_ERROR id err)]
                  +> dispatch_loop order' (S k) attempts fs
              | (None, fs) =>
                  let final := finalOutputPath id in
                  let '(rename_err, fs) := os_Rename e path final fs in
                  {| events :=
                       [Create path None; debug (log_EXEC id host);
                        Run i host command path None;
                        Rename path final rename_err]
                       ++ match rename_err with
                          | Some _ => [debug (log_ERROR_rename id final path)]
                          | None => []
                          end
                       ++ [debug (log_SUCC id path); Send true];
                     files := fs; result := Sent true |}
              end
          end
      end
  end.

(** [dispatch id command hosts doneChan] *)
Definition dispatch (fs : FS) : run :=
  let order := rand_Perm (rand_src e) (length hosts) in
  dispatch_loop order 0 0 fs.
End dispatch.

(** The events of an attempt that fails, and of the attempt that succeeds;
    the argument vector of the remote execution. *)
Definition failed_attempt (id : Z) (command : string) (i : nat)
    (host path err : string) : list event :=
  [Create path None; debug (log_EXEC id host);
   Run i host command path (Some err); debug (log_ERROR id err)].

Definition last_attempt (id : Z) (command : string) (i : nat)
    (host path : string) (rename_err : option string) : list event :=
  [Create path None; debug (log_EXEC id host);
   Run i host command path None;
   Rename path (finalOutputPath id) rename_err]
  ++ match rename_err with
     | Some _ => [debug (log_ERROR_rename id (finalOutputPath id) path)]
     | None => []
     end
  ++ [debug (log_SUCC id path); Send true].

Definition ssh (command host : string) : list string :=
  ["ssh"; "-o"; "ConnectTimeout=2"; host; command].

(** The line that ends the run. *)
Definition log_FINISHED (numSuccessful numFailed numCommands : Z) : string :=
  "FINISHED=" +:+ fmt_int numSuccessful +:+ " FAILED=" +:+ fmt_int numFailed
    +:+ " TOTAL=" +:+ fmt_int numCommands.

(** The lines that are a summary. *)
Definition is_summary (l : string) : Prop := ∃ s f t, l = log_FINISHED s f t.

Section main.
Context (w : World) (commands hosts : list string).

(** The loop [for left := 0; left < numCommands; left++] of [main], with
    [n] iterations to go, and the line that follows it.  [doneChan] is
    unbuffered: each receive of [main] meets the send of one of the
    goroutines [pending].  The scheduler picks which one; that goroutine
    has then run [dispatch] up to its send, on files that are its own.
    A goroutine that panics instead terminates the program. *)
Fixpoint gather (n : nat) (step : nat) (pending : list (nat * string))
    (numSuccessful : Z) (fs : FS) : process :=
  match n with
  | O =>
      let numCommands := Z.of_nat (length commands) in
      {| pevents :=
           [debug (log_FINISHED numSuccessful
                     (int_sub numCommands numSuccessful) numCommands)];
         pfiles := fs; pexit := Returned |}
  | S n' =>
      let p := (sched w step `mod` length pending)%nat in
      match pending !! p with
      | None =>
          {| pevents := [Panic "all goroutines are asleep - deadlock!"];
             pfiles := fs;
             pexit := Crashed "all goroutines are asleep - deadlock!" |}
      | Some (i, cmd) =>
          let r := dispatch (goroutine w i) (Z.of_nat i) cmd hosts fs in
          match result r with
          | Panicked msg =>
              {| pevents := events r; pfiles := files r;
                 pexit := Crashed msg |}
          | Sent b =>
              (events r ++ [Recv b])
              +>> gather n' (S step) (delete p pending)
                    (if b then int_incr numSuccessful else numSuccessful)
                    (files r)
          end
      end
  end.
End main.

(** [main], on the arguments [os.Args] and the file system [fs]. *)
Definition main (w : World) (os_Args : list string) (fs : FS) : process :=
  match flag_Parse flag_defaults (tail os_Args) with
  | ParseHelp => {| pevents := [Usage]; pfiles := fs; pexit := Exited 0 |}
  | ParseError _ => {| pevents := [Usage]; pfiles := fs; pexit := Exited 2 |}
  | Parsed f _ =>
      if bool_decide (1 < length os_Args)%nat
         && bool_decide (os_Args !! 1%nat = Some "help")
      then {| pevents := [Usage]; pfiles := fs; pexit := Returned |}
      else
        match readLines w (cmdsFilePath f) with
        | (ev1, (_, Some err)) =>
            {| pevents := ev1 ++ [Panic err]; pfiles := fs;
               pexit := Crashed err |}
        | (ev1, (commands, None)) =>
            match readLines w (hostsFilePath f) with
            | (ev2, (_, Some err)) =>
                {| pevents := ev1 ++ ev2 ++ [Panic err]; pfiles := fs;
                   pexit := Crashed err |}
            | (ev2, (hosts, None)) =>
                let numCommands := length commands in
                (ev1 ++ ev2 ++ (Go ∘ Z.of_nat <$> seq 0 numCommands))
                +>> gather w commands hosts numCommands 0
                      (imap pair commands) 0 fs
            end
        end
  end.

End MainGo.

(** * The earlier variant *)

Module Part000.

(** [tryCommand remoteCommand host outf]: runs [ssh host remoteCommand]. *)
Definition tryCommand (e : Env) (k : nat) (remoteCommand host outf : string)
    (fs : FS) : option string * FS :=
  let '(out, err) := cmd_Run e k ["ssh"; host; remoteCommand] in
  (err, file_Write outf out fs).

(** [fmt.Sprintf("cmd%v_attempt%v.log", id, attempts)] *)
Definition attemptOutputPath (id attempts : Z) : string :=
  "cmd" +:+ fmt_int id +:+ "_attempt" +:+ fmt_int attempts +:+ ".log".

Definition log_EXEC (id : Z) (host : string) : string :=
  "EXEC command id=" +:+ fmt_int id +:+ " host=" +:+ host.
Definition log_ERROR (id : Z) (err : string) : string :=
  "ERROR id=" +:+ fmt_int id +:+ " status=" +:+ err.
Definition log_Retrying : string := "Retrying command on next host...".
Definition log_FAILED (id : Z) : string :=
  "FAILED id=" +:+ fmt_int id +:+ " exhausted all servers and could not complete".

Section dispatch.
Context (e : Env) (id : Z) (command : string) (hosts : list string).

(** The loop of [dispatch] and what follows it.  [attempts] is set to 0
    before the loop, and the loop never assigns it. *)
Fixpoint dispatch_loop (order : list nat) (k : nat) (attempts : Z) (fs : FS) : run :=
  match order with
  | [] =>
      {| events := [debug (log_FAILED id); Send false];
         files := fs; result := Sent false |}
  | i :: order' =>
      match hosts !! i with
      | None =>
          {| events := [Panic "index out of range"];
             files := fs; result := Panicked "index out of range" |}
      | Some host =>
          let path := attemptOutputPath id attempts in
          match os_Create e k path fs with
          | (Some err, fs) =>
              {| events := [Create path (Some err); Panic err];
                 files := fs; result := Panicked err |}
          | (None, fs) =>
              match tryCommand e k command host path fs with
              | (Some err, fs) =>
                  [Create path None; debug (log_EXEC id host);
                   Run i host command path (Some err);
                   debug (log_ERROR id err); debug log_Retrying]
                  +> dispatch_loop order' (S k) attempts fs
              | (None, fs) =>
                  {| events :=
                       [Create path None; debug (log_EXEC id host);
                        Run i host command path None; Send true];
                     files := fs; result := Sent true |}
              end
          end
      end
  end.

Definition dispatch (fs : FS) : run :=
  let order := rand_Perm (rand_src e) (length hosts) in
  dispatch_loop order 0 0 fs.
End dispatch.

(** The events of an attempt that fails, and of the attempt that succeeds;
    the argument vector of the remote execution. *)
Definition failed_attempt (id : Z) (command : string) (i : nat)
    (host path err : string) : list event :=
  [Create path None; debug (log_EXEC id host);
   Run i host command path (Some err); debug (log_ERROR id err);
   debug log_Retrying].

Definition last_attempt (id : Z) (command : string) (i : nat)
    (host path : string) : list event :=
  [Create path None; debug (log_EXEC id host);
   Run i host command path None; Send true].

Definition ssh (command host : string) : list string := ["ssh"; host; command].

(** The line that ends the run. *)
Definition log_FINISHED (numCommands : Z) : string :=
  "FINISHED " +:+ fmt_int numCommands +:+ " commands".

(** The lines that are a summary. *)
Definition is_summary (l : string) : Prop := ∃ t, l = log_FINISHED t.

Section main.
Context (w : World) (commands hosts : list string).

(** The loop [for left := 0; left < numCommands; left++] of [main], as
    in [MainGo.gather]; the value received is dropped. *)
Fixpoint gather (n : nat) (step : nat) (pending : list (nat * string))
    (fs : FS) : process :=
  match n with
  | O =>
      let numCommands := Z.of_nat (length commands) in
      {| pevents := [debug (log_FINISHED numCommands)];
         pfiles := fs; pexit := Returned |}
  | S n' =>
      let p := (sched w step `mod` length pending)%nat in
      match pending !! p with
      | None =>
          {| pevents := [Panic "all goroutines are asleep - deadlock!"];
             pfiles := fs;
             pexit := Crashed "all goroutines are asleep - deadlock!" |}
      | Some (i, cmd) =>
          let r := dispatch (goroutine w i) (Z.of_nat i) cmd hosts fs in
          match result r with
          | Panicked msg =>
              {| pevents := events r; pfiles := files r;
                 pexit := Crashed msg |}
          | Sent b =>
              (events r ++ [Recv b])
              +>> gather n' (S step) (delete p pending) (files r)
          end
      end
  end.
End main.

Definition main (w : World) (os_Args : list string) (fs : FS) : process :=
  match flag_Parse flag_defaults (tail os_Args) with
  | ParseHelp => {| pevents := [Usage]; pfiles := fs; pexit := Exited 0 |}
  | ParseError _ => {| pevents := [Usage]; pfiles := fs; pexit := Exited 2 |}
  | Parsed f _ =>
      if bool_decide (1 < length os_Args)%nat
         && bool_decide (os_Args !! 1%nat = Some "help")
      then {| pevents := [Usage]; pfiles := fs; pexit := Returned |}
      else
        match readLines w (cmdsFilePath f) with
        | (ev1, (_, Some err)) =>
            {| pevents := ev1 ++ [Panic err]; pfiles := fs;
               pexit := Crashed err |}
        | (ev1, (commands, None)) =>
            match readLines w (hostsFilePath f) with
            | (ev2, (_, Some err)) =>
                {| pevents := ev1 ++ ev2 ++ [Panic err]; pfiles := fs;
                   pexit := Crashed err |}
            | (ev2, (hosts, None)) =>
                let numCommands := length commands in
                (ev1 ++ ev2 ++ (Go ∘ Z.of_nat <$> seq 0 numCommands))
                +>> gather w commands hosts numCommands 0
                      (imap pair commands) fs
            end
        end
  end.

End Part000.

(** * What the properties speak of *)

(** ** Where a run stops in the order of the hosts *)

(** The executions that failed, on the hosts [l] in order. *)
Definition failures (l : list nat) : list (nat * bool) := (λ i, (i, false)) <$> l.

(** A run over [order] tries the hosts in that order and stops at the first
    success, at a panic, or at the end of the order. *)
Definition stops_in (order : list nat) (r : run) : Prop :=
  match result r with
  | Sent false => tried (events r) = failures order
  | Sent true =>
      ∃ pre i post, order = pre ++ i :: post
        ∧ tried (events r) = failures pre ++ [(i, true)]
  | Panicked _ =>
      ∃ pre i post, order = pre ++ i :: post ∧ tried (events r) = failures pre
  end.

(** ** The runs of the whole program *)

(** What [main] loads before it launches the goroutines: the flags, the
    commands and the hosts; nothing when it stops before. *)
Definition load (w : World) (os_Args : list string)
    : option (flags * list string * list string) :=
  match flag_Parse flag_defaults (tail os_Args) with
  | Parsed f _ =>
      if bool_decide (os_Args !! 1%nat = Some "help") then None
      else
        match os_Open w (cmdsFilePath f), os_Open w (hostsFilePath f) with
        | inr (commands, None), inr (hosts, None) => Some (f, commands, hosts)
        | _, _ => None
        end
  | _ => None
  end.

(** The events of [main] up to the launch of the goroutines. *)
Definition launch (f : flags) (commands : list string) : list event :=
  [Open (cmdsFilePath f) None; Open (hostsFilePath f) None]
  ++ (Go ∘ Z.of_nat <$> seq 0 (length commands)).

(** How many of the results are [true], and how many [false]. *)
Definition count_true (bs : list bool) : nat :=
  length (filter (λ b, b = true) bs).
Definition count_false (bs : list bool) : nat :=
  length (filter (λ b, b = false) bs).

(** The events of [main] before the goroutines run. *)
Definition startup_event (ev : event) : Prop :=
  match ev with
  | Usage | Open _ _ | Go _ | Panic _ => True
  | _ => False
  end.

(** The events of a [dispatch] that goes on, and those of the fleet seen
    from [main]; [summary] tells which lines end the run. *)
Definition dispatch_event (summary : string → Prop) (ev : event) : Prop :=
  match ev with
  | Create _ None | Run _ _ _ _ _ | Rename _ _ _ | Send _ => True
  | Log l => ¬ summary l
  | _ => False
  end.

Definition fleet_event (summary : string → Prop) (ev : event) : Prop :=
  match ev with
  | Recv _ => True
  | _ => dispatch_event summary ev
  end.

(** ** The artifacts of a command *)

(** The paths of the artifacts of command [id]: those of its attempts and,
    in [main.go], the final one. *)
Definition artifact_of (id : Z) (p : string) : Prop :=
  (∃ a, p = MainGo.attemptOutputPath id a) ∨ p = MainGo.finalOutputPath id.

Definition early_artifact_of (id : Z) (p : string) : Prop :=
  ∃ a, p = Part000.attemptOutputPath id a.

(** ** The result of one command, seen from [main] *)

(** What [main] receives from a goroutine whose [dispatch] ends as [o]: the
    boolean sent; a goroutine that panics sends nothing. *)
Definition received (o : outcome) : option bool :=
  match o with
  | Sent b => Some b
  | Panicked _ => None
  end.

(** ** [fmt.Sprintf] with the verb [%v]

    The operands the program formats are [int]s, [string]s and [error]s:
    [%v] prints an [int] in decimal, a [string] as it is and an [error] as
    its message.  A [%v] with no operand left prints [%!v(MISSING)], and
    [%%] a percent sign.  The program uses no other verb, and the operands
    left over are reported by type, which is not modelled: [None]. *)
Inductive operand :=
  | Int (z : Z)
  | Str (s : string)
  | Err (msg : string).

Definition fmt_v (a : operand) : string :=
  match a with
  | Int z => fmt_int z
  | Str s => s
  | Err msg => msg
  end.

Fixpoint fmt_Sprintf (format : string) (args : list operand)
    : option string :=
  match format with
  | EmptyString =>
      match args with
      | [] => Some EmptyString
      | _ :: _ => None
      end
  | String c rest =>
      if bool_decide (c = "%"%char) then
        match rest with
        | EmptyString => None
        | String verb rest' =>
            if bool_decide (verb = "v"%char) then
              match args with
              | a :: args' =>
                  String.append (fmt_v a) <$> fmt_Sprintf rest' args'
              | [] =>
                  String.append "%!v(MISSING)" <$> fmt_Sprintf rest' []
              end
            else if bool_decide (verb = "%"%char) then
              String "%" <$> fmt_Sprintf rest' args
            else None
        end
      else String c <$> fmt_Sprintf rest args
  end.

(** The end of a line. *)
Definition newline : string := String "010" EmptyString.

(** What [debug format args...] writes after the prefix of the stream:
    [fullFormat := fmt.Sprintf("%v\n", format)], then [fullFormat] is
    formatted with the operands. *)
Definition debug_output (format : string) (args : list operand)
    : option string :=
  fullFormat ← fmt_Sprintf ("%v" +:+ newline) [Str format];
  fmt_Sprintf fullFormat args.

(** * Example environments *)

(** Every call succeeds; the hosts are tried from the last to the first. *)
Definition env_ok : Env :=
  {| rand_src := λ _, 0%nat;
     os_Create_err := λ _ _, None;
     cmd_Run := λ _ _, ("up 3 days", None);
     os_Rename_err := λ _ _, None |}.

(** The remote execution fails on every host. *)
Definition env_all_fail : Env :=
  {| rand_src := λ _, 0%nat;
     os_Create_err := λ _ _, None;
     cmd_Run := λ _ _, ("connection refused", Some "exit status 255");
     os_Rename_err := λ _ _, None |}.

(** The first execution fails, the next ones succeed. *)
Definition env_retry : Env :=
  {| rand_src := λ _, 0%nat;
     os_Create_err := λ _ _, None;
     cmd_Run := λ k _, if bool_decide (k = 0%nat)
                       then ("connection refused", Some "exit status 255")
                       else ("up 3 days", None);
     os_Rename_err := λ _ _, None |}.

(** The execution succeeds, the rename to the final name fails. *)
Definition env_rename_fails : Env :=
  {| rand_src := λ _, 0%nat;
     os_Create_err := λ _ _, None;
     cmd_Run := λ _ _, ("up 3 days", None);
     os_Rename_err := λ _ _, Some "invalid cross-device link" |}.

(** No artifact can be created. *)
Definition env_create_fails : Env :=
  {| rand_src := λ _, 0%nat;
     os_Create_err := λ _ _, Some "no space left on device";
     cmd_Run := λ _ _, ("up 3 days", None);
     os_Rename_err := λ _ _, None |}.

(** Two commands in [cmds.txt] and [jobs.txt], two hosts in [hosts.txt], and
    the same environment for every goroutine. *)
Definition world_of (e : Env) : World :=
  {| goroutine := λ _, e;
     os_Open := λ path,
       if bool_decide (path = "cmds.txt") || bool_decide (path = "jobs.txt")
       then inr (["uptime"; "date"], None)
       else if bool_decide (path = "hosts.txt")
       then inr (["alpha"; "beta"], None)
       else inl "no such file or directory";
     sched := λ _, 0%nat |}.

(** * Properties *)

(** ** [rand.Perm] returns a permutation of [0 .. n-1] *)

Lemma rand_Intn_lt draw n : (0 < n)%nat → (rand_Intn draw n < n)%nat.
Proof. intros Hn. unfold rand_Intn. apply Nat.mod_upper_bound. lia. Qed.

Lemma insert_snoc_Permutation {A} (l : list A) (j : nat) (x y : A) :
  l !! j = Some x → <[j := y]> l ++ [x] ≡ₚ l ++ [y].
Proof.
  revert j. induction l as [|a l IH]; intros [|j] Hj; simplify_eq/=.
  - rewrite <- !Permutation_cons_append. apply perm_swap.
  - f_equiv. by apply IH.
Qed.

Lemma rand_Perm_step_length src m i :
  length (rand_Perm_step src m i) = length m.
Proof. unfold rand_Perm_step. by rewrite !length_insert. Qed.

Lemma rand_Perm_step_take src m i :
  (i < length m)%nat →
  take i m ≡ₚ seq 0 i →
  take (S i) (rand_Perm_step src m i) ≡ₚ seq 0 (S i).
Proof.
  intros Hi Hperm. unfold rand_Perm_step.
  assert (Hj : (rand_Intn (src i) (i + 1) ≤ i)%nat).
  { pose proof (rand_Intn_lt (src i) (i + 1)). lia. }
  set (j := rand_Intn (src i) (i + 1)) in *.
  rewrite seq_S. simpl.
  destruct (decide (j = i)) as [->|Hne].
  - rewrite list_insert_insert_eq.
    rewrite (take_S_r _ _ i); last by apply list_lookup_insert_eq.
    rewrite take_insert_ge; last lia. by rewrite Hperm.
  - assert (Hlt : (j < i)%nat) by lia.
    destruct (lookup_lt_is_Some_2 m j) as [x Hx]; first lia.
    rewrite (list_lookup_total_correct _ _ _ Hx).
    rewrite (take_S_r _ _ x).
    2:{ rewrite list_lookup_insert_ne; last done.
        apply list_lookup_insert_eq. lia. }
    rewrite take_insert_lt; last done.
    rewrite take_insert_ge; last lia.
    rewrite insert_snoc_Permutation.
    + by rewrite Hperm.
    + by rewrite lookup_take_lt.
Qed.

Lemma rand_Perm_prefix src n k :
  (k ≤ n)%nat →
  let m := foldl (rand_Perm_step src) (replicate n 0%nat) (seq 0 k) in
  length m = n ∧ take k m ≡ₚ seq 0 k.
Proof.
  induction k as [|k IH]; intros Hk; cbv zeta.
  - split; [apply length_replicate | by rewrite take_0].
  - destruct IH as [Hlen Hperm]; first lia.
    rewrite seq_S, foldl_app. simpl. split.
    + by rewrite rand_Perm_step_length.
    + replace (seq 0 k ++ [k]) with (seq 0 (S k)) by apply seq_S.
      apply rand_Perm_step_take; [lia | done].
Qed.

Lemma rand_Perm_Permutation src n : rand_Perm src n ≡ₚ seq 0 n.
Proof.
  destruct (rand_Perm_prefix src n n) as [Hlen Hperm]; first done.
  unfold rand_Perm. by rewrite take_ge in Hperm by lia.
Qed.

Lemma rand_Perm_length src n : length (rand_Perm src n) = n.
Proof. by rewrite rand_Perm_Permutation, length_seq. Qed.

Lemma rand_Perm_NoDup src n : NoDup (rand_Perm src n).
Proof. rewrite rand_Perm_Permutation. apply NoDup_seq. Qed.

Lemma rand_Perm_lt src n i : i ∈ rand_Perm src n → (i < n)%nat.
Proof. rewrite rand_Perm_Permutation, elem_of_seq. lia. Qed.

(** ** Go's [int]: no wrap-around below [int_max] *)

Lemma int_incr_of_nat (k : nat) :
  Z.of_nat k < int_max → int_incr (Z.of_nat k) = Z.of_nat (S k).
Proof.
  unfold int_incr, int_wrap, int_max. intros Hk.
  rewrite Z.mod_small by lia. lia.
Qed.

Lemma int_sub_of_nat (n k : nat) :
  Z.of_nat n ≤ int_max → (k ≤ n)%nat →
  int_sub (Z.of_nat n) (Z.of_nat k) = Z.of_nat (n - k).
Proof.
  unfold int_sub, int_wrap, int_max. intros Hn Hk.
  rewrite Z.mod_small by lia. lia.
Qed.

Lemma iter_int_incr (n s0 : nat) :
  Z.of_nat (s0 + n) ≤ int_max →
  Nat.iter n int_incr (Z.of_nat s0) = Z.of_nat (s0 + n).
Proof.
  induction n as [|n IH]; intros Hmax; simpl.
  - by rewrite Nat.add_0_r.
  - rewrite IH by lia. rewrite int_incr_of_nat by lia. f_equal. lia.
Qed.

(** ** Strings and paths *)

Lemma string_app_length (s t : string) :
  String.length (s +:+ t) = (String.length s + String.length t)%nat.
Proof. induction s as [|c s IH]; simpl; [done | by rewrite IH]. Qed.

Lemma string_app_inj_r (t s1 s2 : string) : s1 +:+ t = s2 +:+ t → s1 = s2.
Proof.
  revert s2. induction s1 as [|c s1 IH]; intros [|c' s2] Heq; try done.
  - apply (f_equal String.length) in Heq.
    rewrite !string_app_length in Heq. simpl in Heq. lia.
  - apply (f_equal String.length) in Heq.
    rewrite !string_app_length in Heq. simpl in Heq. lia.
  - change (String c (s1 +:+ t) = String c' (s2 +:+ t)) in Heq.
    injection Heq as -> Heq. f_equal. by apply IH.
Qed.

Lemma fmt_int_inj (x y : Z) : fmt_int x = fmt_int y → x = y.
Proof. apply pretty_Z_inj. Qed.

Lemma pretty_N_char_digit x : is_digit (pretty_N_char x) = true.
Proof. unfold pretty_N_char. by repeat case_match. Qed.

Lemma string_app_assoc (s t u : string) : (s +:+ t) +:+ u = s +:+ (t +:+ u).
Proof.
  induction s as [|c s IH]; [done|].
  change (String c ((s +:+ t) +:+ u) = String c (s +:+ (t +:+ u))).
  by rewrite IH.
Qed.

Lemma all_digits_app s t :
  all_digits (s +:+ t) = all_digits s && all_digits t.
Proof.
  induction s as [|c s IH]; [done|].
  change (is_digit c && all_digits (s +:+ t)
          = is_digit c && all_digits s && all_digits t).
  by rewrite IH, andb_assoc.
Qed.

Lemma pretty_N_go_digits x s :
  ∃ d, pretty_N_go x s = d +:+ s ∧ all_digits d = true
       ∧ ((0 < x)%N → d ≠ "").
Proof.
  revert s. induction (N.lt_wf_0 x) as [x _ IH]; intros s.
  assert (x = 0 ∨ 0 < x)%N as [->|Hx] by lia.
  - exists "". rewrite pretty_N_go_0. split; [done|]. split; [done|lia].
  - rewrite pretty_N_go_step by done.
    destruct (IH (x `div` 10)%N (N.div_lt x 10 Hx eq_refl)
                (String (pretty_N_char (x `mod` 10)) s)) as (d & -> & Hd & _).
    exists (d +:+ String (pretty_N_char (x `mod` 10)) "").
    rewrite string_app_assoc, all_digits_app, Hd. simpl.
    rewrite pretty_N_char_digit. split; [done|]. split; [done|].
    intros _ Heq. by destruct d.
Qed.

Lemma pretty_N_digits (x : N) :
  pretty x ≠ "" ∧ all_digits (pretty x) = true.
Proof.
  unfold pretty, pretty_N. case_decide as Hx; [done|].
  destruct (pretty_N_go_digits x "") as (d & -> & Hd & Hne).
  assert (Hd' : d +:+ "" = d).
  { clear. induction d as [|c d IH]; [done|].
    change (String c (d +:+ "") = String c d). by rewrite IH. }
  rewrite Hd'. split; [apply Hne; lia | done].
Qed.

(** Two numbers followed by something that does not start with a digit. *)
Lemma digits_sep (d1 d2 t1 t2 : string) (c1 c2 : ascii) :
  all_digits d1 = true → all_digits d2 = true →
  is_digit c1 = false → is_digit c2 = false →
  d1 +:+ String c1 t1 = d2 +:+ String c2 t2 →
  d1 = d2 ∧ String c1 t1 = String c2 t2.
Proof.
  intros H1 H2 Hc1 Hc2. revert d2 H1 H2.
  induction d1 as [|a d1 IH]; intros [|b d2] H1 H2 Heq.
  - done.
  - change (String c1 t1 = String b (d2 +:+ String c2 t2)) in Heq.
    injection Heq as -> _. simpl in H2. by rewrite Hc1 in H2.
  - change (String a (d1 +:+ String c1 t1) = String c2 t2) in Heq.
    injection Heq as -> _. simpl in H1. by rewrite Hc2 in H1.
  - change (String a (d1 +:+ String c1 t1)
            = String b (d2 +:+ String c2 t2)) in Heq.
    injection Heq as -> Heq. simpl in H1, H2.
    apply andb_prop in H1 as [_ H1]. apply andb_prop in H2 as [_ H2].
    destruct (IH d2 H1 H2 Heq) as [-> ?]. done.
Qed.

(** A number printed in front of something that does not start with a digit
    is read back without ambiguity. *)
Lemma fmt_int_sep (x y : Z) (t1 t2 : string) (c1 c2 : ascii) :
  is_digit c1 = false → is_digit c2 = false →
  fmt_int x +:+ String c1 t1 = fmt_int y +:+ String c2 t2 →
  x = y ∧ String c1 t1 = String c2 t2.
Proof.
  intros Hc1 Hc2 Heq.
  assert (Hshape : ∀ z : Z, ∃ sign d,
    fmt_int z = sign +:+ d ∧ (sign = "" ∨ sign = "-")
    ∧ d ≠ "" ∧ all_digits d = true).
  { intros [|p|p]; unfold fmt_int, pretty, pretty_Z.
    - by exists "", "0"; repeat split; auto.
    - exists "", (pretty p). pose proof (pretty_N_digits (N.pos p)) as [??].
      repeat split; auto.
    - exists "-", (pretty p). pose proof (pretty_N_digits (N.pos p)) as [??].
      repeat split; auto. }
  destruct (Hshape x) as (s1 & d1 & Hx & Hs1 & Hn1 & Hd1).
  destruct (Hshape y) as (s2 & d2 & Hy & Hs2 & Hn2 & Hd2).
  assert (Hpair : fmt_int x = fmt_int y ∧ String c1 t1 = String c2 t2).
  { rewrite Hx, Hy in Heq |- *. rewrite !string_app_assoc in Heq.
    destruct Hs1 as [-> | ->], Hs2 as [-> | ->].
    - change (d1 +:+ String c1 t1 = d2 +:+ String c2 t2) in Heq.
      by destruct (digits_sep _ _ _ _ _ _ Hd1 Hd2 Hc1 Hc2 Heq) as [-> ?].
    - destruct d1 as [|a d1]; [done|].
      change (String a (d1 +:+ String c1 t1)
              = String "-" (d2 +:+ String c2 t2)) in Heq.
      injection Heq as -> _. simpl in Hd1. done.
    - destruct d2 as [|a d2]; [done|].
      change (String "-" (d1 +:+ String c1 t1)
              = String a (d2 +:+ String c2 t2)) in Heq.
      injection Heq as <- _. simpl in Hd2. done.
    - change (String "-" (d1 +:+ String c1 t1)
              = String "-" (d2 +:+ String c2 t2)) in Heq.
      injection Heq as Heq.
      by destruct (digits_sep _ _ _ _ _ _ Hd1 Hd2 Hc1 Hc2 Heq) as [-> ?]. }
  destruct Hpair as [Hxy ?]. split; [|done]. by apply pretty_Z_inj.
Qed.

Lemma remove_dups_NoDup {A} `{EqDecision A} (l : list A) :
  NoDup l → remove_dups l = l.
Proof.
  induction 1 as [|x l Hx _ IH]; simpl; [done|].
  destruct (decide_rel elem_of x l); [done|]. by rewrite IH.
Qed.

Lemma remove_dups_replicate {A} `{EqDecision A} (n : nat) (x : A) :
  (length (remove_dups (replicate n x)) ≤ 1)%nat.
Proof.
  induction n as [|n IH]; simpl; [lia|].
  destruct (decide_rel elem_of x (replicate n x)) as [_|Hnotin]; [exact IH|].
  destruct n as [|n]; simpl; [lia|].
  destruct Hnotin. apply list_elem_of_here.
Qed.

(** ** Reading the trace of a run that continues *)

Lemma tried_app tr1 tr2 : tried (tr1 ++ tr2) = tried tr1 ++ tried tr2.
Proof. apply omap_app. Qed.
Lemma create_calls_app tr1 tr2 :
  create_calls (tr1 ++ tr2) = create_calls tr1 ++ create_calls tr2.
Proof. apply omap_app. Qed.
Lemma created_app tr1 tr2 : created (tr1 ++ tr2) = created tr1 ++ created tr2.
Proof. apply omap_app. Qed.
Lemma renames_app tr1 tr2 : renames (tr1 ++ tr2) = renames tr1 ++ renames tr2.
Proof. apply omap_app. Qed.
Lemma promoted_app tr1 tr2 : promoted (tr1 ++ tr2) = promoted tr1 ++ promoted tr2.
Proof. apply omap_app. Qed.
Lemma sends_app tr1 tr2 : sends (tr1 ++ tr2) = sends tr1 ++ sends tr2.
Proof. apply omap_app. Qed.
Lemma recvs_app tr1 tr2 : recvs (tr1 ++ tr2) = recvs tr1 ++ recvs tr2.
Proof. apply omap_app. Qed.
Lemma opened_app tr1 tr2 : opened (tr1 ++ tr2) = opened tr1 ++ opened tr2.
Proof. apply omap_app. Qed.
Lemma launched_app tr1 tr2 : launched (tr1 ++ tr2) = launched tr1 ++ launched tr2.
Proof. apply omap_app. Qed.

(** Case analysis on the membership of an event in a trace given by its
    first events. *)
Ltac elem_cases H :=
  repeat first
    [ apply elem_of_nil in H; destruct H
    | apply elem_of_cons in H; destruct H as [H|H]; [try discriminate H|] ].

(** Membership of an event in a trace that is given in full. *)
Ltac elem_found :=
  repeat first [ apply list_elem_of_here | apply list_elem_of_further ].

Create Rewrite HintDb trace.
#[global] Hint Rewrite tried_app create_calls_app created_app renames_app
  promoted_app sends_app recvs_app opened_app launched_app : trace.

(** ** Where a run stops *)

Lemma elem_of_failures i b l : (i, b) ∈ failures l ↔ b = false ∧ i ∈ l.
Proof.
  unfold failures. rewrite list_elem_of_fmap. split.
  - intros (j & [= -> ->] & Hj). done.
  - intros [-> Hi]. eauto.
Qed.

Lemma length_failures l : length (failures l) = length l.
Proof. apply length_fmap. Qed.

Lemma fst_failures l : (failures l).*1 = l.
Proof.
  unfold failures. rewrite <- list_fmap_compose.
  induction l as [|x l IH]; [done|]. simpl. by f_equal.
Qed.

Lemma stops_in_cons i order tr r :
  tried tr = [(i, false)] → stops_in order r → stops_in (i :: order) (tr +> r).
Proof.
  unfold stops_in. simpl. rewrite tried_app. intros -> Hr.
  destruct (result r) as [[|]|msg].
  - destruct Hr as (pre & j & post & -> & ->). by exists (i :: pre), j, post.
  - by rewrite Hr.
  - destruct Hr as (pre & j & post & -> & ->). by exists (i :: pre), j, post.
Qed.

(** The hosts tried are an initial segment of the order. *)
Lemma stops_in_prefix order r :
  stops_in order r → (tried (events r)).*1 `prefix_of` order.
Proof.
  unfold stops_in. destruct (result r) as [[|]|msg].
  - intros (pre & i & post & -> & ->).
    rewrite fmap_app, fst_failures. simpl.
    exists post. by rewrite <- app_assoc.
  - intros ->. by rewrite fst_failures.
  - intros (pre & i & post & -> & ->). rewrite fst_failures.
    by apply prefix_app_r.
Qed.

(** An execution succeeded exactly when [true] was sent. *)
Lemma stops_in_success order r :
  stops_in order r → (∃ i, (i, true) ∈ tried (events r)) ↔ result r = Sent true.
Proof.
  unfold stops_in. destruct (result r) as [[|]|msg]; intros Hr.
  - destruct Hr as (pre & i & post & -> & ->). split; [done|].
    intros _. exists i. set_solver.
  - rewrite Hr. split; [|done]. intros [i Hi].
    by destruct (proj1 (elem_of_failures _ _ _) Hi).
  - destruct Hr as (pre & i & post & -> & ->). split; [|done].
    intros [j Hj]. by destruct (proj1 (elem_of_failures _ _ _) Hj).
Qed.

(** The execution failed on every host exactly when the order was run to
    its end. *)
Lemma stops_in_exhausted order r :
  NoDup order → stops_in order r →
  (∀ i, i ∈ order → (i, false) ∈ tried (events r)) ↔ result r = Sent false.
Proof.
  assert (Hmid : ∀ pre (i : nat) post, NoDup (pre ++ i :: post) → i ∉ pre).
  { intros pre i post (_ & Hnd & _)%NoDup_app Hi.
    apply (Hnd i Hi), list_elem_of_here. }
  assert (Hin : ∀ pre (i : nat) post, i ∈ pre ++ i :: post).
  { intros. apply elem_of_app. right. apply list_elem_of_here. }
  unfold stops_in. intros Hnd. destruct (result r) as [[|]|msg]; intros Hr.
  - destruct Hr as (pre & i & post & -> & Htried). split; [|done].
    intros Hall. specialize (Hall i (Hin _ _ _)). rewrite Htried in Hall.
    apply elem_of_app in Hall as [Hi|Hi].
    + destruct (proj1 (elem_of_failures _ _ _) Hi) as [_ Hpre].
      by destruct (Hmid pre i post).
    + by apply list_elem_of_singleton in Hi.
  - rewrite Hr. split; [done|]. intros _ i Hi. by apply elem_of_failures.
  - destruct Hr as (pre & i & post & -> & Htried). split; [|done].
    intros Hall. specialize (Hall i (Hin _ _ _)). rewrite Htried in Hall.
    destruct (proj1 (elem_of_failures _ _ _) Hall) as [_ Hpre].
    by destruct (Hmid pre i post).
Qed.

(** The hosts tried are the whole order exactly when the run is not cut
    short: every execution failed, or the one that succeeded was on the
    last host of the order. *)
Lemma stops_in_whole order r :
  NoDup order → stops_in order r →
  (tried (events r)).*1 = order
  ↔ result r = Sent false
    ∨ ∃ i, last order = Some i ∧ (i, true) ∈ tried (events r).
Proof.
  intros Hnodup. unfold stops_in.
  destruct (result r) as [[|]|msg]; intros Hr.
  - destruct Hr as (pre & j & post & -> & ->).
    rewrite fmap_app, fst_failures. simpl. split.
    + intros Heq%app_inv_head. injection Heq as <-. right. exists j.
      split; [apply last_snoc|]. apply elem_of_app. right.
      apply list_elem_of_here.
    + intros [[=]|(i & Hlast & [Hin|Hin]%elem_of_app)].
      { by destruct (proj1 (elem_of_failures _ _ _) Hin). }
      apply list_elem_of_singleton in Hin. injection Hin as ->.
      destruct post as [|x post]; [done|]. exfalso.
      rewrite last_app_cons, last_cons_cons in Hlast.
      apply last_Some in Hlast as [l' Hl'].
      apply NoDup_app in Hnodup as (_ & _ & Hnodup).
      apply NoDup_cons in Hnodup as [Hj _]. apply Hj.
      rewrite Hl'. apply elem_of_app. right. apply list_elem_of_here.
  - rewrite Hr, fst_failures. split; [by left|done].
  - destruct Hr as (pre & j & post & -> & ->). rewrite fst_failures. split.
    + intros Heq. apply (f_equal length) in Heq.
      rewrite length_app in Heq. simpl in Heq. lia.
    + intros [[=]|(i & _ & Hin)].
      by destruct (proj1 (elem_of_failures _ _ _) Hin).
Qed.

(** When every execution is on the host its index gives, the names of the
    hosts tried are those the indices give, one for one; without a
    repeated name in the pool, no name is tried twice. *)
Lemma ran_on_tried (hosts : list string) tr :
  (∀ i host cmd path err,
     Run i host cmd path err ∈ tr → hosts !! i = Some host) →
  Forall2 (λ ib host, hosts !! ib.1 = Some host) (tried tr) (ran_on tr).
Proof.
  induction tr as [|ev tr IH]; intros Hrun; [constructor|].
  assert (Htl : Forall2 (λ ib host, hosts !! ib.1 = Some host)
                  (tried tr) (ran_on tr)).
  { apply IH. intros i host cmd path err Hin.
    apply (Hrun i host cmd path err). by apply list_elem_of_further. }
  destruct ev; try exact Htl.
  constructor; [|exact Htl]. simpl.
  eapply Hrun. apply list_elem_of_here.
Qed.

Lemma ran_on_NoDup (hosts : list string) tr :
  (∀ i host cmd path err,
     Run i host cmd path err ∈ tr → hosts !! i = Some host) →
  NoDup hosts → NoDup (tried tr).*1 → NoDup (ran_on tr).
Proof.
  intros Hrun%ran_on_tried Hhosts Htried.
  apply NoDup_alt. intros n m host Hn Hm.
  destruct (Forall2_lookup_r _ _ _ _ _ Hrun Hn) as ([i b] & Hi & Hhi).
  destruct (Forall2_lookup_r _ _ _ _ _ Hrun Hm) as ([j b'] & Hj & Hhj).
  simpl in Hhi, Hhj.
  assert (i = j) as <- by exact (NoDup_lookup _ _ _ _ Hhosts Hhi Hhj).
  apply (NoDup_lookup _ n m i Htried);
    rewrite list_lookup_fmap; [by rewrite Hi|by rewrite Hj].
Qed.

(** An execution that succeeds is the last one. *)
Lemma stops_in_success_last order r n i :
  stops_in order r → tried (events r) !! n = Some (i, true) →
  S n = length (tried (events r)).
Proof.
  assert (Hfail : ∀ l, failures l !! n = Some (i, true) → False).
  { intros l Hn%list_elem_of_lookup_2.
    by destruct (proj1 (elem_of_failures _ _ _) Hn). }
  unfold stops_in. destruct (result r) as [[|]|msg]; intros Hr.
  - destruct Hr as (pre & j & post & _ & ->).
    rewrite length_app, length_failures. simpl. intros Hn.
    destruct (decide (n < length pre)%nat) as [Hlt|Hge].
    + rewrite lookup_app_l in Hn by (by rewrite length_failures).
      by apply Hfail in Hn.
    + apply lookup_lt_Some in Hn.
      rewrite length_app, length_failures in Hn. simpl in Hn. lia.
  - rewrite Hr. intros Hn. by apply Hfail in Hn.
  - destruct Hr as (pre & j & post & _ & ->). intros Hn.
    by apply Hfail in Hn.
Qed.

(** No host is tried twice, and no more hosts than the order has. *)
Lemma stops_in_NoDup order r :
  NoDup order → stops_in order r →
  NoDup (tried (events r)).*1
  ∧ (length (tried (events r)) ≤ length order)%nat.
Proof.
  intros Hnodup Hstops. pose proof (stops_in_prefix _ _ Hstops) as Hpre.
  split.
  - destruct Hpre as [k Hk]. rewrite Hk in Hnodup.
    by apply NoDup_app in Hnodup as [? _].
  - apply prefix_length in Hpre. by rewrite length_fmap in Hpre.
Qed.

(** The file an attempt leaves: created empty, then written once. *)
Lemma file_Write_Create (path out : string) (fs : FS) :
  file_Write path out (<[path := ""]> fs) = <[path := out]> fs.
Proof. unfold file_Write. by rewrite alter_insert_eq. Qed.

(** * [main.go]: the runs of [dispatch] *)

Module MainGoRuns.
Import MainGo.

Lemma attemptOutputPath_inj id a b :
  attemptOutputPath id a = attemptOutputPath id b → a = b.
Proof.
  unfold attemptOutputPath. intros Heq.
  do 3 apply (inj (String.app _)) in Heq.
  by apply string_app_inj_r, fmt_int_inj in Heq.
Qed.

Lemma attempt_ne_final id a : attemptOutputPath id a ≠ finalOutputPath id.
Proof.
  unfold attemptOutputPath, finalOutputPath. intros Heq.
  do 2 apply (inj (String.app _)) in Heq.
  cbv [String.append] in Heq. discriminate Heq.
Qed.

(** The artifacts of different commands are different files. *)
Lemma attemptOutputPath_inj_id id a id' a' :
  attemptOutputPath id a = attemptOutputPath id' a' → id = id' ∧ a = a'.
Proof.
  unfold attemptOutputPath. intros Heq.
  apply (inj (String.app _)) in Heq.
  apply (fmt_int_sep id id' ("attempt" +:+ fmt_int a +:+ ".log")
           ("attempt" +:+ fmt_int a' +:+ ".log") "-" "-") in Heq as [-> Heq];
    [|done..].
  split; [done|]. apply (attemptOutputPath_inj id').
  unfold attemptOutputPath. by do 2 f_equal.
Qed.

Lemma finalOutputPath_inj id id' :
  finalOutputPath id = finalOutputPath id' → id = id'.
Proof.
  unfold finalOutputPath. intros Heq.
  apply (inj (String.app _)) in Heq.
  by apply (fmt_int_sep id id' "final.log" "final.log" "-" "-") in Heq as [-> _].
Qed.

Lemma attempt_ne_final_id id a id' :
  attemptOutputPath id a ≠ finalOutputPath id'.
Proof.
  unfold attemptOutputPath, finalOutputPath. intros Heq.
  apply (inj (String.app _)) in Heq.
  apply (fmt_int_sep id id' ("attempt" +:+ fmt_int a +:+ ".log") "final.log"
           "-" "-") in Heq as [_ Heq]; [|done..].
  cbv [String.append] in Heq. discriminate Heq.
Qed.

Section dispatch.
Context (e : Env) (id : Z) (command : string) (hosts : list string).

Abbreviation loop := (dispatch_loop e id command hosts).
Abbreviation failed_attempt := (failed_attempt id command).
Abbreviation last_attempt := (last_attempt id command).
Abbreviation ssh := (ssh command).

(** Induction on the iterations of the loop: the end of the order, and the
    five ways one iteration can go. *)
Lemma dispatch_loop_ind (P : list nat → nat → Z → FS → run → Prop) :
  (∀ k a fs,
     P [] k a fs {| events := [debug (log_FAILED id); Send false];
                    files := fs; result := Sent false |}) →
  (∀ i order k a fs,
     hosts !! i = None →
     P (i :: order) k a fs
       {| events := [Panic "index out of range"]; files := fs;
          result := Panicked "index out of range" |}) →
  (∀ i order k a fs host err,
     hosts !! i = Some host →
     os_Create_err e k (attemptOutputPath id a) = Some err →
     P (i :: order) k a fs
       {| events := [Create (attemptOutputPath id a) (Some err); Panic err];
          files := fs; result := Panicked err |}) →
  (∀ i order k a fs host out err,
     hosts !! i = Some host →
     os_Create_err e k (attemptOutputPath id a) = None →
     cmd_Run e k (ssh host) = (out, Some err) →
     let fs' := <[attemptOutputPath id a := out]> fs in
     P order (S k) (int_incr a) fs' (loop order (S k) (int_incr a) fs') →
     P (i :: order) k a fs
       (failed_attempt i host (attemptOutputPath id a) err
        +> loop order (S k) (int_incr a) fs')) →
  (∀ i order k a fs host out,
     hosts !! i = Some host →
     os_Create_err e k (attemptOutputPath id a) = None →
     cmd_Run e k (ssh host) = (out, None) →
     os_Rename_err e (attemptOutputPath id a) (finalOutputPath id) = None →
     P (i :: order) k a fs
       {| events := last_attempt i host (attemptOutputPath id a) None;
          files := <[finalOutputPath id := out]>
                     (delete (attemptOutputPath id a) fs);
          result := Sent true |}) →
  (∀ i order k a fs host out rerr,
     hosts !! i = Some host →
     os_Create_err e k (attemptOutputPath id a) = None →
     cmd_Run e k (ssh host) = (out, None) →
     os_Rename_err e (attemptOutputPath id a) (finalOutputPath id)
       = Some rerr →
     P (i :: order) k a fs
       {| events := last_attempt i host (attemptOutputPath id a) (Some rerr);
          files := <[attemptOutputPath id a := out]> fs;
          result := Sent true |}) →
  ∀ order k a fs, P order k a fs (loop order k a fs).
Proof.
  intros Hexhausted Hindex Hcreate Hfail Hrenamed Hdegraded.
  induction order as [|i order IH]; intros k a fs; simpl; [done|].
  destruct (hosts !! i) as [host|] eqn:Hhost; [|by apply Hindex].
  unfold os_Create.
  destruct (os_Create_err e k _) as [err|] eqn:Hc; [by eapply Hcreate|].
  unfold tryCommand. fold (ssh host).
  destruct (cmd_Run e k (ssh host)) as [out [err|]] eqn:Hrun.
  - rewrite file_Write_Create. by eapply Hfail.
  - rewrite file_Write_Create. unfold os_Rename.
    rewrite lookup_insert_eq.
    destruct (os_Rename_err e _ _) as [rerr|] eqn:Hr.
    + by eapply Hdegraded.
    + rewrite delete_insert_eq. by eapply Hrenamed.
Qed.

(** The hosts are tried in the order given, up to the first success. *)
Lemma loop_stops_in order k a fs : stops_in order (loop order k a fs).
Proof.
  revert order k a fs.
  apply (dispatch_loop_ind (λ order _ _ _ r, stops_in order r));
    intros; try (by apply stops_in_cons);
    unfold stops_in; simpl; try done; by exists [], i, order.
Qed.

(** One result is sent when [dispatch] returns, none when it panics. *)
Lemma loop_sends order k a fs :
  let r := loop order k a fs in
  sends (events r) = match result r with Sent b => [b] | Panicked _ => [] end.
Proof.
  revert order k a fs.
  apply (dispatch_loop_ind (λ _ _ _ _ r,
    sends (events r) = match result r with Sent b => [b] | Panicked _ => [] end));
    intros; simpl; done.
Qed.

(** The send is the last thing [dispatch] does. *)
Lemma loop_last order k a fs :
  let r := loop order k a fs in
  last (events r) = Some (match result r with
                          | Sent b => Send b
                          | Panicked msg => Panic msg
                          end).
Proof.
  revert order k a fs.
  apply (dispatch_loop_ind (λ _ _ _ _ r,
    last (events r) = Some (match result r with
                            | Sent b => Send b
                            | Panicked msg => Panic msg
                            end)));
    simpl; try done.
  intros i order k a fs host out err _ _ _ IH. rewrite <- IH.
  by destruct (events _).
Qed.

(** A failure of [os.Create] ends the run at once, with a panic. *)
Lemma loop_create_failed order k a fs path err :
  let r := loop order k a fs in
  Create path (Some err) ∈ events r →
  result r = Panicked err
  ∧ ∃ tr, events r = tr ++ [Create path (Some err); Panic err].
Proof.
  revert order k a fs.
  apply (dispatch_loop_ind (λ _ _ _ _ r,
    Create path (Some err) ∈ events r →
    result r = Panicked err
    ∧ ∃ tr, events r = tr ++ [Create path (Some err); Panic err]));
    simpl.
  - intros k a fs Hin. elem_cases Hin.
  - intros i order k a fs _ Hin. elem_cases Hin.
  - intros i order k a fs host cerr _ _ Hin. elem_cases Hin.
    injection Hin as -> ->. split; [done|]. by exists [].
  - intros i order k a fs host out rerr _ _ _ IH Hin. elem_cases Hin.
    destruct (IH Hin) as [Hres [tr Htr]]. split; [done|].
    eexists (_ :: _ :: _ :: _ :: tr). by rewrite Htr.
  - intros i order k a fs host out _ _ _ _ Hin. elem_cases Hin.
  - intros i order k a fs host out rerr _ _ _ _ Hin. elem_cases Hin.
Qed.

(** The run that ends in success: the attempt that succeeded, its
    output, and what became of its artifact. *)
Lemma loop_success order k a fs :
  let r := loop order k a fs in
  result r = Sent true →
  ∃ n i host out path rerr,
    order !! n = Some i ∧ hosts !! i = Some host
    ∧ cmd_Run e (k + n) (ssh host) = (out, None)
    ∧ tried (events r) = failures (take n order) ++ [(i, true)]
    ∧ last (created (events r)) = Some path
    ∧ renames (events r)
      = [(path, finalOutputPath id, bool_decide (rerr = None))]
    ∧ match rerr with
      | None =>
          promoted (events r) = [finalOutputPath id]
          ∧ files r !! finalOutputPath id = Some out
          ∧ files r !! path = None
      | Some err =>
          promoted (events r) = []
          ∧ Rename path (finalOutputPath id) (Some err) ∈ events r
          ∧ debug (log_ERROR_rename id (finalOutputPath id) path) ∈ events r
          ∧ files r !! path = Some out
          ∧ files r !! finalOutputPath id = fs !! finalOutputPath id
      end.
Proof.
  cbv zeta. revert order k a fs.
  apply (dispatch_loop_ind (λ order k a fs r,
    result r = Sent true →
    ∃ n i host out path rerr,
      order !! n = Some i ∧ hosts !! i = Some host
      ∧ cmd_Run e (k + n) (ssh host) = (out, None)
      ∧ tried (events r) = failures (take n order) ++ [(i, true)]
      ∧ last (created (events r)) = Some path
      ∧ renames (events r)
        = [(path, finalOutputPath id, bool_decide (rerr = None))]
      ∧ match rerr with
        | None =>
            promoted (events r) = [finalOutputPath id]
            ∧ files r !! finalOutputPath id = Some out
            ∧ files r !! path = None
        | Some err =>
            promoted (events r) = []
            ∧ Rename path (finalOutputPath id) (Some err) ∈ events r
            ∧ debug (log_ERROR_rename id (finalOutputPath id) path)
                ∈ events r
            ∧ files r !! path = Some out
            ∧ files r !! finalOutputPath id = fs !! finalOutputPath id
        end)); simpl; try done.
  - intros i order k a fs host out err Hhost Hc Hrun IH Hres.
    destruct (IH Hres)
      as (n & j & hostj & outj & path & rerr & Hn & Hj & Hrunj & Htried
          & Hlast & Hren & Hfiles).
    exists (S n), j, hostj, outj, path, rerr. simpl.
    replace (k + S n)%nat with (S k + n)%nat by lia.
    rewrite Htried, Hren. repeat split; try done.
    + destruct (created _); [done|]. by rewrite last_cons, Hlast.
    + destruct rerr as [rerr|]; [|done].
      destruct Hfiles as (Hprom & Hin & Hlog & Hpath & Hfinal).
      repeat split; try done.
      * by do 4 apply list_elem_of_further.
      * by do 4 apply list_elem_of_further.
      * rewrite Hfinal. apply lookup_insert_ne, attempt_ne_final.
  - intros i order k a fs host out Hhost Hc Hrun Hr _.
    exists 0%nat, i, host, out, (attemptOutputPath id a), None. simpl.
    rewrite Nat.add_0_r. repeat split; try done.
    + by rewrite lookup_insert_eq.
    + rewrite lookup_insert_ne by (apply not_eq_sym, attempt_ne_final).
      apply lookup_delete_eq.
  - intros i order k a fs host out rerr Hhost Hc Hrun Hr _.
    exists 0%nat, i, host, out, (attemptOutputPath id a), (Some rerr). simpl.
    rewrite Nat.add_0_r. repeat split; try done.
    + do 3 apply list_elem_of_further. apply list_elem_of_here.
    + do 4 apply list_elem_of_further. apply list_elem_of_here.
    + by rewrite lookup_insert_eq.
    + apply lookup_insert_ne, attempt_ne_final.
Qed.

(** The run that does not end in success promotes nothing. *)
Lemma loop_no_promotion order k a fs :
  let r := loop order k a fs in
  result r ≠ Sent true →
  renames (events r) = [] ∧ promoted (events r) = []
  ∧ files r !! finalOutputPath id = fs !! finalOutputPath id.
Proof.
  cbv zeta. revert order k a fs.
  apply (dispatch_loop_ind (λ _ _ _ fs r,
    result r ≠ Sent true →
    renames (events r) = [] ∧ promoted (events r) = []
    ∧ files r !! finalOutputPath id = fs !! finalOutputPath id));
    simpl; try done.
  intros i order k a fs host out err _ _ _ IH Hres.
  destruct (IH Hres) as (Hren & Hprom & Hfinal). repeat split; try done.
  rewrite Hfinal. apply lookup_insert_ne, attempt_ne_final.
Qed.

(** [os.Rename] is called right after an execution that succeeded, on the
    artifact of that attempt, towards the final name. *)
Lemma loop_rename_after_success order k a fs old new rerr :
  let r := loop order k a fs in
  Rename old new rerr ∈ events r →
  new = finalOutputPath id
  ∧ ∃ pre i host post,
      events r = pre ++ Run i host command old None
                       :: Rename old new rerr :: post.
Proof.
  cbv zeta. revert order k a fs.
  apply (dispatch_loop_ind (λ _ _ _ _ r,
    Rename old new rerr ∈ events r →
    new = finalOutputPath id
    ∧ ∃ pre i host post,
        events r = pre ++ Run i host command old None
                         :: Rename old new rerr :: post)); simpl.
  - intros k a fs Hin. elem_cases Hin.
  - intros i order k a fs _ Hin. elem_cases Hin.
  - intros i order k a fs host cerr _ _ Hin. elem_cases Hin.
  - intros i order k a fs host out err _ _ _ IH Hin. elem_cases Hin.
    destruct (IH Hin) as (-> & pre & j & hostj & post & Hev).
    split; [done|].
    exists (failed_attempt i host (attemptOutputPath id a) err ++ pre),
      j, hostj, post.
    by rewrite Hev.
  - intros i order k a fs host out _ _ _ _ Hin. elem_cases Hin.
    injection Hin as -> -> ->. split; [done|].
    by eexists [_; _], i, host, _.
  - intros i order k a fs host out err _ _ _ _ Hin. elem_cases Hin.
    injection Hin as -> -> ->. split; [done|].
    by eexists [_; _], i, host, _.
Qed.

(** The attempts are numbered from the value of [attempts] on, one by
    one: the paths [os.Create] is called on, and the artifacts it
    creates, one for every execution. *)
Lemma loop_attempt_numbers order k a0 fs :
  Z.of_nat (a0 + length order) ≤ int_max →
  let r := loop order k (Z.of_nat a0) fs in
  create_calls (events r)
    = attemptOutputPath id ∘ Z.of_nat
        <$> seq a0 (length (create_calls (events r)))
  ∧ created (events r)
    = attemptOutputPath id ∘ Z.of_nat <$> seq a0 (length (tried (events r))).
Proof.
  cbv zeta. intros Hmax.
  cut (∀ a, Z.of_nat a0 = a →
    create_calls (events (loop order k a fs))
      = attemptOutputPath id ∘ Z.of_nat
          <$> seq a0 (length (create_calls (events (loop order k a fs))))
    ∧ created (events (loop order k a fs))
      = attemptOutputPath id ∘ Z.of_nat
          <$> seq a0 (length (tried (events (loop order k a fs))))).
  { intros Hcut. by apply Hcut. }
  intros a Ha. revert order k a fs a0 Ha Hmax.
  apply (dispatch_loop_ind (λ order _ a _ r, ∀ a0,
    Z.of_nat a0 = a →
    Z.of_nat (a0 + length order) ≤ int_max →
    create_calls (events r)
      = attemptOutputPath id ∘ Z.of_nat
          <$> seq a0 (length (create_calls (events r)))
    ∧ created (events r)
      = attemptOutputPath id ∘ Z.of_nat
          <$> seq a0 (length (tried (events r))))); simpl;
    try (by intros; subst).
  intros i order k a fs host out err _ _ _ IH a0 <- Hmax.
  rewrite int_incr_of_nat in IH |- * by lia.
  destruct (IH (S a0)) as [Hcalls Hcreated]; [done|lia|].
  split; f_equal; [exact Hcalls | exact Hcreated].
Qed.

(** [dispatch] touches no file but the artifacts of its attempts and the
    final artifact of its command. *)
Lemma loop_frame order k a fs p :
  let r := loop order k a fs in
  p ≠ finalOutputPath id → p ∉ create_calls (events r) →
  files r !! p = fs !! p.
Proof.
  cbv zeta. intros Hfinal. revert order k a fs.
  apply (dispatch_loop_ind (λ _ _ _ fs r,
    p ∉ create_calls (events r) → files r !! p = fs !! p)); simpl;
    try done.
  - intros i order k a fs host out err _ _ _ IH Hp.
    apply not_elem_of_cons in Hp as [Hne Hp].
    rewrite IH by done. by apply lookup_insert_ne.
  - intros i order k a fs host out _ _ _ _ Hp.
    apply not_elem_of_cons in Hp as [Hne _].
    rewrite lookup_insert_ne by done. by apply lookup_delete_ne.
  - intros i order k a fs host out rerr _ _ _ _ Hp.
    apply not_elem_of_cons in Hp as [Hne _]. by apply lookup_insert_ne.
Qed.

(** When every execution fails, the artifact of every attempt is left in
    place with the output of that attempt. *)
Lemma loop_exhausted_files order k a0 fs n i host :
  Z.of_nat (a0 + length order) ≤ int_max →
  let r := loop order k (Z.of_nat a0) fs in
  result r = Sent false →
  order !! n = Some i → hosts !! i = Some host →
  files r !! attemptOutputPath id (Z.of_nat (a0 + n))
    = Some (cmd_Run e (k + n) (ssh host)).1.
Proof.
  cbv zeta. revert k a0 fs n.
  induction order as [|j order IH]; intros k a0 fs n Hmax Hres Hn Hhost;
    [done|].
  pose proof (loop_attempt_numbers order (S k) (S a0)) as Hnum.
  revert Hres Hnum. simpl.
  destruct (hosts !! j) as [hostj|] eqn:Hj; [|done].
  unfold os_Create.
  destruct (os_Create_err e k _) as [cerr|]; [done|].
  unfold tryCommand. fold (ssh hostj).
  destruct (cmd_Run e k (ssh hostj)) as [out [err|]] eqn:Hrun;
    [|by destruct (os_Rename _ _ _ _)].
  rewrite file_Write_Create, int_incr_of_nat by (simpl in Hmax; lia).
  simpl. intros Hres Hnum. destruct n as [|n].
  - injection Hn as ->. rewrite Hj in Hhost. injection Hhost as ->.
    rewrite !Nat.add_0_r, loop_frame, lookup_insert_eq, Hrun; [done|..].
    + apply attempt_ne_final.
    + destruct (Hnum (<[attemptOutputPath id (Z.of_nat a0):=out]> fs))
        as [-> _]; [simpl in Hmax; lia|].
      intros (m & Heq & Hm)%list_elem_of_fmap.
      apply attemptOutputPath_inj in Heq.
      apply elem_of_seq in Hm. lia.
  - replace (a0 + S n)%nat with (S a0 + n)%nat by lia.
    replace (k + S n)%nat with (S k + n)%nat by lia.
    apply IH; try done. simpl in Hmax. lia.
Qed.

(** Every execution is on the host of the pool the order gives. *)
Lemma loop_run_host order k a fs i host cmd path err :
  Run i host cmd path err ∈ events (loop order k a fs) →
  hosts !! i = Some host ∧ cmd = command ∧ i ∈ order.
Proof.
  revert order k a fs.
  apply (dispatch_loop_ind (λ order _ _ _ r,
    Run i host cmd path err ∈ events r →
    hosts !! i = Some host ∧ cmd = command ∧ i ∈ order)); simpl.
  - intros k a fs Hin. elem_cases Hin.
  - intros j order k a fs _ Hin. elem_cases Hin.
  - intros j order k a fs hostj cerr _ _ Hin. elem_cases Hin.
  - intros j order k a fs hostj out rerr Hj _ _ IH Hin. elem_cases Hin.
    + injection Hin as -> -> -> -> ->. repeat split; [done|].
      apply list_elem_of_here.
    + destruct (IH Hin) as (? & ? & ?). repeat split; [done..|].
      by apply list_elem_of_further.
  - intros j order k a fs hostj out Hj _ _ _ Hin. elem_cases Hin.
    injection Hin as -> -> -> -> ->. repeat split; [done|].
    apply list_elem_of_here.
  - intros j order k a fs hostj out rerr Hj _ _ _ Hin. elem_cases Hin.
    injection Hin as -> -> -> -> ->. repeat split; [done|].
    apply list_elem_of_here.
Qed.

(** [os.Create] is called at most once for each host of the order. *)
Lemma loop_create_calls_length order k a fs :
  (length (create_calls (events (loop order k a fs))) ≤ length order)%nat.
Proof.
  revert order k a fs.
  apply (dispatch_loop_ind (λ order _ _ _ r,
    (length (create_calls (events r)) ≤ length order)%nat)); simpl; lia.
Qed.

(** [os.Create] is called on artifacts of the command only. *)
Lemma loop_create_calls_own order k a fs p :
  p ∈ create_calls (events (loop order k a fs)) →
  ∃ a', p = attemptOutputPath id a'.
Proof.
  revert order k a fs.
  apply (dispatch_loop_ind (λ _ _ _ _ r,
    p ∈ create_calls (events r) → ∃ a', p = attemptOutputPath id a')); simpl.
  - intros k a fs Hin. elem_cases Hin.
  - intros i order k a fs _ Hin. elem_cases Hin.
  - intros i order k a fs host cerr _ _ Hin. elem_cases Hin. by exists a.
  - intros i order k a fs host out rerr _ _ _ IH Hin. elem_cases Hin; eauto.
  - intros i order k a fs host out _ _ _ _ Hin. elem_cases Hin. by exists a.
  - intros i order k a fs host out rerr _ _ _ _ Hin. elem_cases Hin.
    by exists a.
Qed.

(** [dispatch] leaves the artifacts of the other commands as they are: the
    goroutines of different commands work on different files. *)
Lemma dispatch_frame fs id' a' :
  id' ≠ id →
  let r := dispatch e id command hosts fs in
  files r !! attemptOutputPath id' a' = fs !! attemptOutputPath id' a'
  ∧ files r !! finalOutputPath id' = fs !! finalOutputPath id'.
Proof.
  intros Hid. cbv zeta. unfold dispatch. split; apply loop_frame.
  - apply attempt_ne_final_id.
  - intros (a & Heq)%loop_create_calls_own.
    by apply attemptOutputPath_inj_id in Heq as [? _].
  - intros Heq%finalOutputPath_inj. done.
  - intros (a & Heq)%loop_create_calls_own.
    symmetry in Heq. by apply attempt_ne_final_id in Heq.
Qed.

(** The output of every execution goes to an artifact created for it. *)
Lemma loop_run_created order k a fs i host cmd path err :
  Run i host cmd path err ∈ events (loop order k a fs) →
  Create path None ∈ events (loop order k a fs).
Proof.
  revert order k a fs.
  apply (dispatch_loop_ind (λ _ _ _ _ r,
    Run i host cmd path err ∈ events r → Create path None ∈ events r));
    simpl.
  - intros k a fs Hin. elem_cases Hin.
  - intros j order k a fs _ Hin. elem_cases Hin.
  - intros j order k a fs hostj cerr _ _ Hin. elem_cases Hin.
  - intros j order k a fs hostj out rerr _ _ _ IH Hin. elem_cases Hin.
    + injection Hin as -> -> -> -> ->. apply list_elem_of_here.
    + do 4 apply list_elem_of_further. by apply IH.
  - intros j order k a fs hostj out _ _ _ _ Hin. elem_cases Hin.
    injection Hin as -> -> -> -> ->. apply list_elem_of_here.
  - intros j order k a fs hostj out rerr _ _ _ _ Hin. elem_cases Hin.
    injection Hin as -> -> -> -> ->. apply list_elem_of_here.
Qed.

(** For given answers of [os.Create], of the executions and of [os.Rename],
    the events of [dispatch] and the way it ends are the same on any
    files: the program itself reads none of them. *)
Lemma loop_fs_independent order k a fs fs' :
  events (loop order k a fs) = events (loop order k a fs')
  ∧ result (loop order k a fs) = result (loop order k a fs').
Proof.
  revert k a fs fs'. induction order as [|i order IH]; intros k a fs fs';
    simpl; [done|].
  destruct (hosts !! i) as [host|]; [|done].
  unfold os_Create. destruct (os_Create_err e k _) as [cerr|]; [done|].
  unfold tryCommand.
  destruct (cmd_Run e k _) as [out [err|]]; rewrite !file_Write_Create.
  - simpl. destruct (IH (S k) (int_incr a)
                       (<[attemptOutputPath id a:=out]> fs)
                       (<[attemptOutputPath id a:=out]> fs')) as [-> ->].
    done.
  - unfold os_Rename. rewrite !lookup_insert_eq.
    by destruct (os_Rename_err e _ _).
Qed.

(** What [dispatch] leaves at a path depends on what was at that path
    only. *)
Lemma loop_files_local order k a fs fs' p :
  fs !! p = fs' !! p →
  files (loop order k a fs) !! p = files (loop order k a fs') !! p.
Proof.
  revert k a fs fs'. induction order as [|i order IH]; intros k a fs fs' Hp;
    simpl; [done|].
  destruct (hosts !! i) as [host|]; [|done].
  unfold os_Create. destruct (os_Create_err e k _) as [cerr|]; [done|].
  unfold tryCommand.
  destruct (cmd_Run e k _) as [out [err|]]; rewrite !file_Write_Create.
  - simpl. apply IH.
    destruct (decide (p = attemptOutputPath id a)) as [->|Hne];
      [by rewrite !lookup_insert_eq|by rewrite !lookup_insert_ne].
  - unfold os_Rename. rewrite !lookup_insert_eq.
    destruct (os_Rename_err e _ _); simpl.
    + destruct (decide (p = attemptOutputPath id a)) as [->|Hne];
        [by rewrite !lookup_insert_eq|by rewrite !lookup_insert_ne].
    + destruct (decide (p = finalOutputPath id)) as [->|Hfinal];
        [by rewrite !lookup_insert_eq|].
      rewrite !lookup_insert_ne by done.
      destruct (decide (p = attemptOutputPath id a)) as [->|Hne];
        [by rewrite !lookup_delete_eq|].
      rewrite !lookup_delete_ne by done. by rewrite !lookup_insert_ne.
Qed.

(** [dispatch] changes the artifacts of its command only. *)
Lemma dispatch_frame_artifact fs p :
  ¬ artifact_of id p →
  files (dispatch e id command hosts fs) !! p = fs !! p.
Proof.
  intros Hp. apply loop_frame.
  - intros ->. apply Hp. by right.
  - intros (a & ->)%loop_create_calls_own. apply Hp. left. by exists a.
Qed.

(** The artifacts of the attempts that failed stay where they are, each
    with the output of its attempt, however the run ends. *)
Lemma loop_failed_files order k a0 fs n i host :
  Z.of_nat (a0 + length order) ≤ int_max →
  let r := loop order k (Z.of_nat a0) fs in
  tried (events r) !! n = Some (i, false) → hosts !! i = Some host →
  files r !! attemptOutputPath id (Z.of_nat (a0 + n))
    = Some (cmd_Run e (k + n) (ssh host)).1.
Proof.
  cbv zeta. revert k a0 fs n.
  induction order as [|j order IH]; intros k a0 fs n Hmax Hn Hhost;
    [by destruct n|].
  pose proof (loop_attempt_numbers order (S k) (S a0)) as Hnum.
  revert Hn Hnum. simpl.
  destruct (hosts !! j) as [hostj|] eqn:Hj; [|by destruct n].
  unfold os_Create.
  destruct (os_Create_err e k _) as [cerr|]; [by destruct n|].
  unfold tryCommand. fold (ssh hostj).
  destruct (cmd_Run e k (ssh hostj)) as [out [err|]] eqn:Hrun.
  2:{ destruct (os_Rename _ _ _ _) as [[rerr|] fs2];
        by destruct n as [|[|n]]. }
  rewrite file_Write_Create, int_incr_of_nat by (simpl in Hmax; lia).
  simpl. intros Hn Hnum. destruct n as [|n].
  - injection Hn as ->. rewrite Hj in Hhost. injection Hhost as ->.
    rewrite !Nat.add_0_r, loop_frame, lookup_insert_eq, Hrun; [done|..].
    + apply attempt_ne_final.
    + destruct (Hnum (<[attemptOutputPath id (Z.of_nat a0):=out]> fs))
        as [-> _]; [simpl in Hmax; lia|].
      intros (m & Heq & Hm)%list_elem_of_fmap.
      apply attemptOutputPath_inj in Heq.
      apply elem_of_seq in Hm. lia.
  - replace (a0 + S n)%nat with (S a0 + n)%nat by lia.
    replace (k + S n)%nat with (S k + n)%nat by lia.
    apply IH; try done. simpl in Hmax. lia.
Qed.
End dispatch.
End MainGoRuns.

(** * The earlier variant: the runs of [dispatch] *)

Module Part000Runs.
Import Part000.

(** The artifacts of different commands are different files. *)
Lemma early_attemptOutputPath_inj_id id a id' a' :
  attemptOutputPath id a = attemptOutputPath id' a' → id = id' ∧ a = a'.
Proof.
  unfold attemptOutputPath. intros Heq.
  apply (inj (String.app _)) in Heq.
  apply (fmt_int_sep id id' ("attempt" +:+ fmt_int a +:+ ".log")
           ("attempt" +:+ fmt_int a' +:+ ".log") "_" "_") in Heq as [-> Heq];
    [|done..].
  split; [done|].
  change ("_attempt" +:+ fmt_int a +:+ ".log"
          = "_attempt" +:+ fmt_int a' +:+ ".log") in Heq.
  apply (inj (String.app _)) in Heq.
  by apply string_app_inj_r, fmt_int_inj in Heq.
Qed.

Section dispatch.
Context (e : Env) (id : Z) (command : string) (hosts : list string).

Abbreviation loop := (dispatch_loop e id command hosts).
Abbreviation failed_attempt := (failed_attempt id command).
Abbreviation last_attempt := (last_attempt id command).
Abbreviation ssh := (ssh command).

(** Induction on the iterations of the loop.  The artifact of every
    attempt is at the same path: [attempts] does not change. *)
Lemma early_dispatch_loop_ind (P : list nat → nat → Z → FS → run → Prop) :
  (∀ k a fs,
     P [] k a fs {| events := [debug (log_FAILED id); Send false];
                    files := fs; result := Sent false |}) →
  (∀ i order k a fs,
     hosts !! i = None →
     P (i :: order) k a fs
       {| events := [Panic "index out of range"]; files := fs;
          result := Panicked "index out of range" |}) →
  (∀ i order k a fs host err,
     hosts !! i = Some host →
     os_Create_err e k (attemptOutputPath id a) = Some err →
     P (i :: order) k a fs
       {| events := [Create (attemptOutputPath id a) (Some err); Panic err];
          files := fs; result := Panicked err |}) →
  (∀ i order k a fs host out err,
     hosts !! i = Some host →
     os_Create_err e k (attemptOutputPath id a) = None →
     cmd_Run e k (ssh host) = (out, Some err) →
     let fs' := <[attemptOutputPath id a := out]> fs in
     P order (S k) a fs' (loop order (S k) a fs') →
     P (i :: order) k a fs
       (failed_attempt i host (attemptOutputPath id a) err
        +> loop order (S k) a fs')) →
  (∀ i order k a fs host out,
     hosts !! i = Some host →
     os_Create_err e k (attemptOutputPath id a) = None →
     cmd_Run e k (ssh host) = (out, None) →
     P (i :: order) k a fs
       {| events := last_attempt i host (attemptOutputPath id a);
          files := <[attemptOutputPath id a := out]> fs;
          result := Sent true |}) →
  ∀ order k a fs, P order k a fs (loop order k a fs).
Proof.
  intros Hexhausted Hindex Hcreate Hfail Hsuccess.
  induction order as [|i order IH]; intros k a fs; simpl; [done|].
  destruct (hosts !! i) as [host|] eqn:Hhost; [|by apply Hindex].
  unfold os_Create.
  destruct (os_Create_err e k _) as [err|] eqn:Hc; [by eapply Hcreate|].
  unfold tryCommand. fold (ssh host).
  destruct (cmd_Run e k (ssh host)) as [out [err|]] eqn:Hrun;
    rewrite file_Write_Create.
  - by eapply Hfail.
  - by eapply Hsuccess.
Qed.

Lemma early_loop_stops_in order k a fs : stops_in order (loop order k a fs).
Proof.
  revert order k a fs.
  apply (early_dispatch_loop_ind (λ order _ _ _ r, stops_in order r));
    intros; try (by apply stops_in_cons);
    unfold stops_in; simpl; try done; by exists [], i, order.
Qed.

Lemma early_loop_sends order k a fs :
  let r := loop order k a fs in
  sends (events r) = match result r with Sent b => [b] | Panicked _ => [] end.
Proof.
  revert order k a fs.
  apply (early_dispatch_loop_ind (λ _ _ _ _ r,
    sends (events r) = match result r with Sent b => [b] | Panicked _ => [] end));
    intros; simpl; done.
Qed.

Lemma early_loop_last order k a fs :
  let r := loop order k a fs in
  last (events r) = Some (match result r with
                          | Sent b => Send b
                          | Panicked msg => Panic msg
                          end).
Proof.
  revert order k a fs.
  apply (early_dispatch_loop_ind (λ _ _ _ _ r,
    last (events r) = Some (match result r with
                            | Sent b => Send b
                            | Panicked msg => Panic msg
                            end)));
    simpl; try done.
  intros i order k a fs host out err _ _ _ IH. rewrite <- IH.
  by destruct (events _).
Qed.

Lemma early_loop_create_failed order k a fs path err :
  let r := loop order k a fs in
  Create path (Some err) ∈ events r →
  result r = Panicked err
  ∧ ∃ tr, events r = tr ++ [Create path (Some err); Panic err].
Proof.
  revert order k a fs.
  apply (early_dispatch_loop_ind (λ _ _ _ _ r,
    Create path (Some err) ∈ events r →
    result r = Panicked err
    ∧ ∃ tr, events r = tr ++ [Create path (Some err); Panic err]));
    simpl.
  - intros k a fs Hin. elem_cases Hin.
  - intros i order k a fs _ Hin. elem_cases Hin.
  - intros i order k a fs host cerr _ _ Hin. elem_cases Hin.
    injection Hin as -> ->. split; [done|]. by exists [].
  - intros i order k a fs host out rerr _ _ _ IH Hin. elem_cases Hin.
    destruct (IH Hin) as [Hres [tr Htr]]. split; [done|].
    eexists (_ :: _ :: _ :: _ :: _ :: tr). by rewrite Htr.
  - intros i order k a fs host out _ _ _ Hin. elem_cases Hin.
Qed.

(** The run that ends in success leaves the output in the artifact of
    the attempt. *)
Lemma early_loop_success order k a fs :
  let r := loop order k a fs in
  result r = Sent true →
  ∃ n i host out,
    order !! n = Some i ∧ hosts !! i = Some host
    ∧ cmd_Run e (k + n) (ssh host) = (out, None)
    ∧ tried (events r) = failures (take n order) ++ [(i, true)]
    ∧ files r !! attemptOutputPath id a = Some out.
Proof.
  cbv zeta. revert order k a fs.
  apply (early_dispatch_loop_ind (λ order k a fs r,
    result r = Sent true →
    ∃ n i host out,
      order !! n = Some i ∧ hosts !! i = Some host
      ∧ cmd_Run e (k + n) (ssh host) = (out, None)
      ∧ tried (events r) = failures (take n order) ++ [(i, true)]
      ∧ files r !! attemptOutputPath id a = Some out)); simpl; try done.
  - intros i order k a fs host out err Hhost Hc Hrun IH Hres.
    destruct (IH Hres) as (n & j & hostj & outj & Hn & Hj & Hrunj & Htried
                           & Hfile).
    exists (S n), j, hostj, outj. simpl.
    replace (k + S n)%nat with (S k + n)%nat by lia.
    by rewrite Htried.
  - intros i order k a fs host out Hhost Hc Hrun _.
    exists 0%nat, i, host, out. simpl.
    rewrite Nat.add_0_r. repeat split; try done.
    by rewrite lookup_insert_eq.
Qed.

(** Nothing is ever renamed: no artifact is promoted. *)
Lemma early_loop_never_renames order k a fs :
  let r := loop order k a fs in
  renames (events r) = [] ∧ promoted (events r) = [].
Proof.
  revert order k a fs.
  apply (early_dispatch_loop_ind (λ _ _ _ _ r,
    renames (events r) = [] ∧ promoted (events r) = []));
    intros; simpl; done.
Qed.

(** Every attempt is numbered with the initial value of [attempts]. *)
Lemma early_loop_attempt_numbers order k a fs :
  let r := loop order k a fs in
  create_calls (events r)
    = replicate (length (create_calls (events r))) (attemptOutputPath id a)
  ∧ created (events r)
    = replicate (length (tried (events r))) (attemptOutputPath id a).
Proof.
  revert order k a fs.
  apply (early_dispatch_loop_ind (λ _ _ a _ r,
    create_calls (events r)
      = replicate (length (create_calls (events r))) (attemptOutputPath id a)
    ∧ created (events r)
      = replicate (length (tried (events r))) (attemptOutputPath id a)));
    simpl; try done.
  intros i order k a fs host out err _ _ _ [Hcalls Hcreated].
  split; f_equal; [exact Hcalls | exact Hcreated].
Qed.

Lemma early_loop_run_host order k a fs i host cmd path err :
  Run i host cmd path err ∈ events (loop order k a fs) →
  hosts !! i = Some host ∧ cmd = command ∧ i ∈ order.
Proof.
  revert order k a fs.
  apply (early_dispatch_loop_ind (λ order _ _ _ r,
    Run i host cmd path err ∈ events r →
    hosts !! i = Some host ∧ cmd = command ∧ i ∈ order)); simpl.
  - intros k a fs Hin. elem_cases Hin.
  - intros j order k a fs _ Hin. elem_cases Hin.
  - intros j order k a fs hostj cerr _ _ Hin. elem_cases Hin.
  - intros j order k a fs hostj out rerr Hj _ _ IH Hin. elem_cases Hin.
    + injection Hin as -> -> -> -> ->. repeat split; [done|].
      apply list_elem_of_here.
    + destruct (IH Hin) as (? & ? & ?). repeat split; [done..|].
      by apply list_elem_of_further.
  - intros j order k a fs hostj out Hj _ _ Hin. elem_cases Hin.
    injection Hin as -> -> -> -> ->. repeat split; [done|].
    apply list_elem_of_here.
Qed.

(** [dispatch] touches no file but the artifacts of its attempts. *)
Lemma early_loop_frame order k a fs p :
  let r := loop order k a fs in
  p ∉ create_calls (events r) → files r !! p = fs !! p.
Proof.
  cbv zeta. revert order k a fs.
  apply (early_dispatch_loop_ind (λ _ _ _ fs r,
    p ∉ create_calls (events r) → files r !! p = fs !! p)); simpl;
    try done.
  - intros i order k a fs host out err _ _ _ IH Hp.
    apply not_elem_of_cons in Hp as [Hne Hp].
    rewrite IH by done. by apply lookup_insert_ne.
  - intros i order k a fs host out _ _ _ Hp.
    apply not_elem_of_cons in Hp as [Hne _]. by apply lookup_insert_ne.
Qed.

Lemma early_loop_create_calls_own order k a fs p :
  p ∈ create_calls (events (loop order k a fs)) → p = attemptOutputPath id a.
Proof.
  revert order k a fs.
  apply (early_dispatch_loop_ind (λ _ _ a _ r,
    p ∈ create_calls (events r) → p = attemptOutputPath id a)); simpl.
  - intros k a fs Hin. elem_cases Hin.
  - intros i order k a fs _ Hin. elem_cases Hin.
  - intros i order k a fs host cerr _ _ Hin. elem_cases Hin. done.
  - intros i order k a fs host out rerr _ _ _ IH Hin. elem_cases Hin; eauto.
  - intros i order k a fs host out _ _ _ Hin. elem_cases Hin. done.
Qed.

(** [dispatch] leaves the artifacts of the other commands as they are. *)
Lemma early_dispatch_frame fs id' a' :
  id' ≠ id →
  let r := dispatch e id command hosts fs in
  files r !! attemptOutputPath id' a' = fs !! attemptOutputPath id' a'.
Proof.
  intros Hid. cbv zeta. unfold dispatch. apply early_loop_frame.
  intros Heq%early_loop_create_calls_own.
  by apply early_attemptOutputPath_inj_id in Heq as [? _].
Qed.

Lemma early_loop_run_created order k a fs i host cmd path err :
  Run i host cmd path err ∈ events (loop order k a fs) →
  Create path None ∈ events (loop order k a fs).
Proof.
  revert order k a fs.
  apply (early_dispatch_loop_ind (λ _ _ _ _ r,
    Run i host cmd path err ∈ events r → Create path None ∈ events r));
    simpl.
  - intros k a fs Hin. elem_cases Hin.
  - intros j order k a fs _ Hin. elem_cases Hin.
  - intros j order k a fs hostj cerr _ _ Hin. elem_cases Hin.
  - intros j order k a fs hostj out rerr _ _ _ IH Hin. elem_cases Hin.
    + injection Hin as -> -> -> -> ->. apply list_elem_of_here.
    + do 5 apply list_elem_of_further. by apply IH.
  - intros j order k a fs hostj out _ _ _ Hin. elem_cases Hin.
    injection Hin as -> -> -> -> ->. apply list_elem_of_here.
Qed.

Lemma early_loop_files_local order k a fs fs' p :
  fs !! p = fs' !! p →
  files (loop order k a fs) !! p = files (loop order k a fs') !! p.
Proof.
  revert k a fs fs'. induction order as [|i order IH]; intros k a fs fs' Hp;
    simpl; [done|].
  destruct (hosts !! i) as [host|]; [|done].
  unfold os_Create. destruct (os_Create_err e k _) as [cerr|]; [done|].
  unfold tryCommand.
  destruct (cmd_Run e k _) as [out [err|]]; rewrite !file_Write_Create;
    simpl; [apply IH|];
    (destruct (decide (p = attemptOutputPath id a)) as [->|Hne];
      [by rewrite !lookup_insert_eq|by rewrite !lookup_insert_ne]).
Qed.

Lemma early_dispatch_frame_artifact fs p :
  ¬ early_artifact_of id p →
  files (dispatch e id command hosts fs) !! p = fs !! p.
Proof.
  intros Hp. apply early_loop_frame.
  intros ->%early_loop_create_calls_own. apply Hp. by exists 0.
Qed.

Lemma early_loop_fs_independent order k a fs fs' :
  events (loop order k a fs) = events (loop order k a fs')
  ∧ result (loop order k a fs) = result (loop order k a fs').
Proof.
  revert k a fs fs'. induction order as [|i order IH]; intros k a fs fs';
    simpl; [done|].
  destruct (hosts !! i) as [host|]; [|done].
  unfold os_Create. destruct (os_Create_err e k _) as [cerr|]; [done|].
  unfold tryCommand.
  destruct (cmd_Run e k _) as [out [err|]]; rewrite !file_Write_Create;
    [|done].
  simpl. destruct (IH (S k) a (<[attemptOutputPath id a:=out]> fs)
                     (<[attemptOutputPath id a:=out]> fs')) as [-> ->].
  done.
Qed.
End dispatch.
End Part000Runs.

(** * The runs of the whole program *)

Lemma count_true_false bs : (count_true bs + count_false bs)%nat = length bs.
Proof.
  unfold count_true, count_false.
  induction bs as [|[|] bs IH]; simpl; [done|..];
    rewrite ?filter_cons_True, ?filter_cons_False by done; simpl; lia.
Qed.

Lemma count_true_le bs : (count_true bs ≤ length bs)%nat.
Proof. pose proof (count_true_false bs). lia. Qed.

Lemma count_true_cons b bs :
  count_true (b :: bs) = ((if b then 1 else 0) + count_true bs)%nat.
Proof.
  unfold count_true. destruct b;
    by rewrite ?filter_cons_True, ?filter_cons_False by done.
Qed.

Lemma main_help_index (os_Args : list string) :
  bool_decide (1 < length os_Args)%nat
    && bool_decide (os_Args !! 1%nat = Some "help")
  = bool_decide (os_Args !! 1%nat = Some "help").
Proof.
  destruct (bool_decide (os_Args !! 1%nat = Some "help")) eqn:Hhelp;
    [|by rewrite andb_false_r].
  apply bool_decide_eq_true in Hhelp. apply lookup_lt_Some in Hhelp.
  by rewrite bool_decide_true.
Qed.

Lemma launch_startup f commands : Forall startup_event (launch f commands).
Proof.
  unfold launch. apply Forall_app. split; [by repeat constructor|].
  apply Forall_fmap, Forall_true. done.
Qed.

Lemma launch_recvs f commands : recvs (launch f commands) = [].
Proof.
  unfold launch. rewrite recvs_app. simpl.
  induction (seq 0 (length commands)) as [|i l IH]; [done|]. exact IH.
Qed.

Lemma launch_sends f commands : sends (launch f commands) = [].
Proof.
  unfold launch. rewrite sends_app. simpl.
  induction (seq 0 (length commands)) as [|i l IH]; [done|]. exact IH.
Qed.

Lemma launch_launched f commands :
  launched (launch f commands) = Z.of_nat <$> seq 0 (length commands).
Proof.
  unfold launch. rewrite launched_app. simpl.
  induction (seq 0 (length commands)) as [|i l IH]; [done|].
  change (Z.of_nat i :: launched (Go ∘ Z.of_nat <$> l)
          = Z.of_nat i :: (Z.of_nat <$> l)).
  by rewrite IH.
Qed.

Lemma launch_opened f commands :
  opened (launch f commands) = [cmdsFilePath f; hostsFilePath f].
Proof.
  unfold launch. rewrite opened_app. simpl. do 2 f_equal.
  induction (seq 0 (length commands)) as [|i l IH]; [done|]. exact IH.
Qed.

Section fleet_events.
Context (summary : string → Prop).

Lemma dispatch_fleet_event ev :
  dispatch_event summary ev → fleet_event summary ev.
Proof. by destruct ev. Qed.

Lemma dispatch_fleet_events tr :
  Forall (dispatch_event summary) tr → Forall (fleet_event summary) tr.
Proof. intros Hall. eapply Forall_impl; [done|]. apply dispatch_fleet_event. Qed.

(** No event of the fleet is a failure of [os.Create], or a line that
    ends the run. *)
Lemma fleet_no_create_failure tr path err :
  Forall (fleet_event summary) tr → Create path (Some err) ∉ tr.
Proof.
  intros Hall Hin. rewrite Forall_forall in Hall. by apply Hall in Hin.
Qed.

Lemma fleet_no_summary tr l :
  Forall (fleet_event summary) tr → summary l → debug l ∉ tr.
Proof.
  intros Hall Hl Hin. rewrite Forall_forall in Hall. by apply Hall in Hin.
Qed.

Lemma fleet_event_launched tr :
  Forall (fleet_event summary) tr → launched tr = [].
Proof.
  induction 1 as [|ev tr Hev _ IH]; [done|]. by destruct ev.
Qed.

Lemma dispatch_event_recvs tr :
  Forall (dispatch_event summary) tr → recvs tr = [].
Proof.
  induction 1 as [|ev tr Hev _ IH]; [done|]. by destruct ev.
Qed.

Lemma startup_no_create tr path err :
  Forall startup_event tr → Create path err ∉ tr.
Proof.
  intros Hall Hin. rewrite Forall_forall in Hall. by apply Hall in Hin.
Qed.

Lemma startup_no_log tr l : Forall startup_event tr → debug l ∉ tr.
Proof.
  intros Hall Hin. rewrite Forall_forall in Hall. by apply Hall in Hin.
Qed.

(** In a run that ends with the summary, [os.Create] never failed. *)
Lemma returned_no_create_failure la tr l path err :
  Forall startup_event la → Forall (fleet_event summary) tr →
  Create path (Some err) ∉ la ++ tr ++ [debug l].
Proof.
  intros Hla Htr [Hin|[Hin|Hin]%elem_of_app]%elem_of_app.
  - by apply startup_no_create in Hin.
  - by apply fleet_no_create_failure in Hin.
  - elem_cases Hin.
Qed.

(** In a run that ends with a failure of [os.Create], that failure is the
    only one, and no summary is written. *)
Lemma crashed_create_failure la tr path err path' err' :
  Forall startup_event la → Forall (fleet_event summary) tr →
  Create path (Some err) ∈ la ++ tr ++ [Create path' (Some err'); Panic err'] →
  path = path' ∧ err = err'.
Proof.
  intros Hla Htr [Hin|[Hin|Hin]%elem_of_app]%elem_of_app.
  - by apply startup_no_create in Hin.
  - by apply fleet_no_create_failure in Hin.
  - elem_cases Hin. by injection Hin as -> ->.
Qed.

Lemma crashed_no_summary la tr l path err :
  Forall startup_event la → Forall (fleet_event summary) tr → summary l →
  debug l ∉ la ++ tr ++ [Create path (Some err); Panic err].
Proof.
  intros Hla Htr Hl [Hin|[Hin|Hin]%elem_of_app]%elem_of_app.
  - by apply startup_no_log in Hin.
  - by apply fleet_no_summary in Hin.
  - elem_cases Hin.
Qed.
End fleet_events.

Ltac events_ok :=
  repeat first [ apply Forall_nil_2 | apply Forall_cons_2; [simpl; auto|] ].

Ltac not_summary :=
  intros Hsummary;
  repeat match type of Hsummary with
         | ex _ => destruct Hsummary as [? Hsummary]
         end;
  cbv [String.append] in Hsummary; discriminate Hsummary.

Module MainGoFleet.
Import MainGo MainGoRuns.

Lemma log_EXEC_not_summary id host : ¬ is_summary (log_EXEC id host).
Proof. unfold log_EXEC, is_summary, log_FINISHED. not_summary. Qed.
Lemma log_ERROR_not_summary id err : ¬ is_summary (log_ERROR id err).
Proof. unfold log_ERROR, is_summary, log_FINISHED. not_summary. Qed.
Lemma log_ERROR_rename_not_summary id final attempt :
  ¬ is_summary (log_ERROR_rename id final attempt).
Proof. unfold log_ERROR_rename, is_summary, log_FINISHED. not_summary. Qed.
Lemma log_SUCC_not_summary id attempt : ¬ is_summary (log_SUCC id attempt).
Proof. unfold log_SUCC, is_summary, log_FINISHED. not_summary. Qed.
Lemma log_FAILED_not_summary id : ¬ is_summary (log_FAILED id).
Proof. unfold log_FAILED, is_summary, log_FINISHED. not_summary. Qed.

#[local] Hint Resolve log_EXEC_not_summary log_ERROR_not_summary
  log_ERROR_rename_not_summary log_SUCC_not_summary log_FAILED_not_summary
  : core.

Abbreviation dispatch_event := (dispatch_event is_summary).
Abbreviation fleet_event := (fleet_event is_summary).

Section dispatch.
Context (e : Env) (id : Z) (command : string) (hosts : list string).

(** A run of the loop is made of the events of [dispatch]; when it
    panics, [os.Create] failed just before. *)
Lemma loop_events order k a fs :
  (∀ i, i ∈ order → is_Some (hosts !! i)) →
  let r := dispatch_loop e id command hosts order k a fs in
  match result r with
  | Sent b => Forall dispatch_event (events r)
  | Panicked err =>
      ∃ path tr, events r = tr ++ [Create path (Some err); Panic err]
        ∧ Forall dispatch_event tr ∧ sends tr = []
  end.
Proof.
  cbv zeta. revert order k a fs.
  apply (dispatch_loop_ind e id command hosts (λ order _ _ _ r,
    (∀ i, i ∈ order → is_Some (hosts !! i)) →
    match result r with
    | Sent b => Forall dispatch_event (events r)
    | Panicked err =>
        ∃ path tr, events r = tr ++ [Create path (Some err); Panic err]
          ∧ Forall dispatch_event tr ∧ sends tr = []
    end)); simpl.
  - intros. events_ok.
  - intros i order k a fs Hi Hall.
    destruct (Hall i) as [host Hhost]; [apply list_elem_of_here|].
    congruence.
  - intros i order k a fs host err _ _ _.
    by exists (attemptOutputPath id a), [].
  - intros i order k a fs host out err _ _ _ IH Hall.
    specialize (IH (λ j Hj, Hall j (list_elem_of_further _ _ _ Hj))).
    destruct (result _) as [b|msg].
    + events_ok. exact IH.
    + destruct IH as (path & tr & -> & Htr & Hsends).
      eexists path, (_ :: _ :: _ :: _ :: tr). split; [done|].
      split; [|done]. events_ok. exact Htr.
  - intros. events_ok.
  - intros. events_ok.
Qed.

Lemma dispatch_events fs :
  let r := dispatch e id command hosts fs in
  match result r with
  | Sent b => Forall dispatch_event (events r) ∧ sends (events r) = [b]
  | Panicked err =>
      ∃ path tr, events r = tr ++ [Create path (Some err); Panic err]
        ∧ Forall dispatch_event tr ∧ sends tr = []
  end.
Proof.
  cbv zeta. unfold dispatch.
  pose proof (loop_events (rand_Perm (rand_src e) (length hosts)) 0 0 fs)
    as Hev.
  pose proof (loop_sends e id command hosts
                (rand_Perm (rand_src e) (length hosts)) 0 0 fs) as Hsends.
  cbv zeta in Hev, Hsends.
  destruct (result _) as [b|msg]; [split; [|done]|]; apply Hev;
    intros i Hi%rand_Perm_lt; by apply lookup_lt_is_Some.
Qed.
End dispatch.

Section gather.
Context (w : World) (commands hosts : list string).

(** The run of the coordinator: it ends with the summary after one
    receive for each goroutine pending, with [numSuccessful] incremented
    once for each [true] received, unless [os.Create] fails in one of the
    goroutines, which ends the program there. *)
Lemma gather_runs n step pending s fs :
  length pending = n →
  let p := gather w commands hosts n step pending s fs in
  let total := Z.of_nat (length commands) in
  (∃ tr,
     let s' := Nat.iter (count_true (recvs tr)) int_incr s in
     pexit p = Returned
     ∧ pevents p = tr ++ [debug (log_FINISHED s' (int_sub total s') total)]
     ∧ Forall fleet_event tr ∧ sends tr = recvs tr
     ∧ length (recvs tr) = n)
  ∨ (∃ path err tr,
       pexit p = Crashed err
       ∧ pevents p = tr ++ [Create path (Some err); Panic err]
       ∧ Forall fleet_event tr ∧ sends tr = recvs tr
       ∧ (length (recvs tr) < n)%nat).
Proof.
  cbv zeta. revert step pending s fs.
  induction n as [|n IH]; intros step pending s fs Hlen; simpl.
  { left. by exists []. }
  assert (Hp : (sched w step `mod` length pending < length pending)%nat).
  { apply Nat.mod_upper_bound. lia. }
  destruct (lookup_lt_is_Some_2 _ _ Hp) as [[i cmd] Hi]. rewrite Hi.
  pose proof (dispatch_events (goroutine w i) (Z.of_nat i) cmd hosts fs)
    as Hev. cbv zeta in Hev.
  destruct (result _) as [b|msg].
  - destruct Hev as [Hev Hsends].
    pose proof (dispatch_event_recvs _ _ Hev) as Hrecvs.
    set (r := dispatch (goroutine w i) (Z.of_nat i) cmd hosts fs) in *.
    assert (Hall : Forall fleet_event (events r ++ [Recv b])).
    { apply Forall_app. split; [|by repeat constructor].
      by apply dispatch_fleet_events. }
    destruct (IH (S step) (delete (sched w step `mod` length pending)%nat
                             pending)
                (if b then int_incr s else s) (files r))
      as [(tr & Hexit & Hevs & Htr & Hsr & Hn)
         |(path & err & tr & Hexit & Hevs & Htr & Hsr & Hn)].
    + rewrite length_delete by done. lia.
    + left. exists ((events r ++ [Recv b]) ++ tr). simpl.
      rewrite Hevs, !recvs_app, !sends_app, Hrecvs, Hsends, Hsr. simpl.
      rewrite count_true_cons, Hn, <- !app_assoc.
      replace (Nat.iter ((if b then 1 else 0) + count_true (recvs tr))
                 int_incr s)
        with (Nat.iter (count_true (recvs tr)) int_incr
                (if b then int_incr s else s))
        by (destruct b; [by rewrite Nat.iter_swap|done]).
      repeat split; try done. rewrite app_assoc. by apply Forall_app.
    + right. exists path, err, ((events r ++ [Recv b]) ++ tr). simpl.
      rewrite Hevs, !recvs_app, !sends_app, Hrecvs, Hsends, Hsr. simpl.
      rewrite <- !app_assoc.
      repeat split; try done; [|lia].
      rewrite app_assoc. by apply Forall_app.
  - destruct Hev as (path & tr & Hevs & Htr & Hsends).
    right. exists path, msg, tr. simpl.
    rewrite Hsends, (dispatch_event_recvs _ _ Htr). simpl.
    repeat split; try done; [|lia].
    by apply dispatch_fleet_events.
Qed.
(** The result of the goroutine of command [ic.1], run on its own. *)
Abbreviation outcome_of := (λ ic : nat * string,
  result (dispatch (goroutine w ic.1) (Z.of_nat ic.1) ic.2 hosts ∅)).

Lemma dispatch_result i cmd fs :
  result (dispatch (goroutine w i) (Z.of_nat i) cmd hosts fs)
  = outcome_of (i, cmd).
Proof. apply MainGoRuns.loop_fs_independent. Qed.


(** The results received are those of the goroutines pending, each run on
    its own, in the order the scheduler makes of them. *)
Lemma gather_recvs n step pending s fs :
  length pending = n →
  pexit (gather w commands hosts n step pending s fs) = Returned →
  recvs (pevents (gather w commands hosts n step pending s fs))
  ≡ₚ omap (λ ic, received (outcome_of ic)) pending.
Proof.
  revert step pending s fs.
  induction n as [|n IH]; intros step pending s fs Hlen; simpl.
  { by apply nil_length_inv in Hlen as ->. }
  assert (Hp : (sched w step `mod` length pending < length pending)%nat).
  { apply Nat.mod_upper_bound. lia. }
  destruct (lookup_lt_is_Some_2 _ _ Hp) as [[i cmd] Hi]. rewrite Hi.
  pose proof (delete_Permutation _ _ _ Hi) as Hperm.
  pose proof (dispatch_events (goroutine w i) (Z.of_nat i) cmd hosts fs)
    as Hev. cbv zeta in Hev.
  pose proof (dispatch_result i cmd fs) as Hres.
  destruct (result _) as [b|msg]; simpl; [|done].
  intros Hexit. destruct Hev as [Hev _].
  rewrite !recvs_app, (dispatch_event_recvs _ _ Hev). simpl.
  rewrite IH by (rewrite ?length_delete by done; done || lia).
  etrans; [|symmetry; exact (omap_Permutation _ _ _ Hperm)].
  simpl in Hres |- *. by rewrite <- Hres.
Qed.
End gather.

(** [main], once it has loaded the commands and the hosts. *)
Lemma main_load w os_Args fs f commands hosts :
  load w os_Args = Some (f, commands, hosts) →
  main w os_Args fs
  = launch f commands
    +>> gather w commands hosts (length commands) 0 (imap pair commands) 0 fs.
Proof.
  unfold load, main, readLines, launch. rewrite main_help_index.
  destruct (flag_Parse _ _) as [f' rest| |]; [|done..].
  destruct (bool_decide _); [done|].
  destruct (os_Open w (cmdsFilePath f')) as [|[cs [|]]]; [done..|].
  destruct (os_Open w (hostsFilePath f')) as [|[hs [|]]]; [done..|].
  by intros [= -> -> ->].
Qed.

(** The runs of [main] that launch the goroutines. *)
Lemma main_runs w os_Args fs f commands hosts :
  load w os_Args = Some (f, commands, hosts) →
  let p := main w os_Args fs in
  let total := Z.of_nat (length commands) in
  (∃ tr,
     let s' := Nat.iter (count_true (recvs tr)) int_incr 0 in
     pexit p = Returned
     ∧ pevents p
       = launch f commands
         ++ tr ++ [debug (log_FINISHED s' (int_sub total s') total)]
     ∧ Forall fleet_event tr ∧ sends tr = recvs tr
     ∧ length (recvs tr) = length commands)
  ∨ (∃ path err tr,
       pexit p = Crashed err
       ∧ pevents p
         = launch f commands ++ tr ++ [Create path (Some err); Panic err]
       ∧ Forall fleet_event tr ∧ sends tr = recvs tr
       ∧ (length (recvs tr) < length commands)%nat).
Proof.
  intros Hload. cbv zeta. rewrite (main_load _ _ _ _ _ _ Hload).
  destruct (gather_runs w commands hosts (length commands) 0
              (imap pair commands) 0 fs)
    as [(tr & Hexit & Hevs & Hrest)|(path & err & tr & Hexit & Hevs & Hrest)];
    [apply length_imap|..]; simpl; rewrite Hevs.
  - left. by exists tr.
  - right. by exists path, err, tr.
Qed.

(** The runs of [main] that stop before: nothing but the usage, the opening
    of the files and a panic. *)
Lemma main_stops_early w os_Args fs :
  load w os_Args = None →
  Forall startup_event (pevents (main w os_Args fs))
  ∧ launched (pevents (main w os_Args fs)) = [].
Proof.
  unfold load, main, readLines. rewrite main_help_index.
  destruct (flag_Parse _ _) as [f' rest| |];
    [|by split; repeat constructor..].
  destruct (bool_decide _); [by split; repeat constructor|].
  destruct (os_Open w (cmdsFilePath f')) as [|[cs [|]]];
    [by split; repeat constructor..|].
  destruct (os_Open w (hostsFilePath f')) as [|[hs [|]]];
    by split; repeat constructor.
Qed.
End MainGoFleet.

Module Part000Fleet.
Import Part000 Part000Runs.

Lemma early_log_EXEC_not_summary id host : ¬ is_summary (log_EXEC id host).
Proof. unfold log_EXEC, is_summary, log_FINISHED. not_summary. Qed.
Lemma early_log_ERROR_not_summary id err : ¬ is_summary (log_ERROR id err).
Proof. unfold log_ERROR, is_summary, log_FINISHED. not_summary. Qed.
Lemma early_log_Retrying_not_summary : ¬ is_summary log_Retrying.
Proof. unfold log_Retrying, is_summary, log_FINISHED. not_summary. Qed.
Lemma early_log_FAILED_not_summary id : ¬ is_summary (log_FAILED id).
Proof. unfold log_FAILED, is_summary, log_FINISHED. not_summary. Qed.

#[local] Hint Resolve early_log_EXEC_not_summary early_log_ERROR_not_summary
  early_log_Retrying_not_summary early_log_FAILED_not_summary : core.

Abbreviation dispatch_event := (dispatch_event is_summary).
Abbreviation fleet_event := (fleet_event is_summary).

Section dispatch.
Context (e : Env) (id : Z) (command : string) (hosts : list string).

Lemma early_loop_events order k a fs :
  (∀ i, i ∈ order → is_Some (hosts !! i)) →
  let r := dispatch_loop e id command hosts order k a fs in
  match result r with
  | Sent b => Forall dispatch_event (events r)
  | Panicked err =>
      ∃ path tr, events r = tr ++ [Create path (Some err); Panic err]
        ∧ Forall dispatch_event tr ∧ sends tr = []
  end.
Proof.
  cbv zeta. revert order k a fs.
  apply (early_dispatch_loop_ind e id command hosts (λ order _ _ _ r,
    (∀ i, i ∈ order → is_Some (hosts !! i)) →
    match result r with
    | Sent b => Forall dispatch_event (events r)
    | Panicked err =>
        ∃ path tr, events r = tr ++ [Create path (Some err); Panic err]
          ∧ Forall dispatch_event tr ∧ sends tr = []
    end)); simpl.
  - intros. events_ok.
  - intros i order k a fs Hi Hall.
    destruct (Hall i) as [host Hhost]; [apply list_elem_of_here|].
    congruence.
  - intros i order k a fs host err _ _ _.
    by exists (attemptOutputPath id a), [].
  - intros i order k a fs host out err _ _ _ IH Hall.
    specialize (IH (λ j Hj, Hall j (list_elem_of_further _ _ _ Hj))).
    destruct (result _) as [b|msg].
    + events_ok. exact IH.
    + destruct IH as (path & tr & -> & Htr & Hsends).
      eexists path, (_ :: _ :: _ :: _ :: _ :: tr). split; [done|].
      split; [|done]. events_ok. exact Htr.
  - intros. events_ok.
Qed.

Lemma early_dispatch_events fs :
  let r := dispatch e id command hosts fs in
  match result r with
  | Sent b => Forall dispatch_event (events r) ∧ sends (events r) = [b]
  | Panicked err =>
      ∃ path tr, events r = tr ++ [Create path (Some err); Panic err]
        ∧ Forall dispatch_event tr ∧ sends tr = []
  end.
Proof.
  cbv zeta. unfold dispatch.
  pose proof (early_loop_events (rand_Perm (rand_src e) (length hosts)) 0 0 fs)
    as Hev.
  pose proof (early_loop_sends e id command hosts
                (rand_Perm (rand_src e) (length hosts)) 0 0 fs) as Hsends.
  cbv zeta in Hev, Hsends.
  destruct (result _) as [b|msg]; [split; [|done]|]; apply Hev;
    intros i Hi%rand_Perm_lt; by apply lookup_lt_is_Some.
Qed.
End dispatch.

Section gather.
Context (w : World) (commands hosts : list string).

(** The run of the coordinator, as in [MainGoFleet.gather_runs]; the
    line that ends the run gives the number of commands only. *)
Lemma early_gather_runs n step pending fs :
  length pending = n →
  let p := gather w commands hosts n step pending fs in
  (∃ tr,
     pexit p = Returned
     ∧ pevents p
       = tr ++ [debug (log_FINISHED (Z.of_nat (length commands)))]
     ∧ Forall fleet_event tr ∧ sends tr = recvs tr
     ∧ length (recvs tr) = n)
  ∨ (∃ path err tr,
       pexit p = Crashed err
       ∧ pevents p = tr ++ [Create path (Some err); Panic err]
       ∧ Forall fleet_event tr ∧ sends tr = recvs tr
       ∧ (length (recvs tr) < n)%nat).
Proof.
  cbv zeta. revert step pending fs.
  induction n as [|n IH]; intros step pending fs Hlen; simpl.
  { left. by exists []. }
  assert (Hp : (sched w step `mod` length pending < length pending)%nat).
  { apply Nat.mod_upper_bound. lia. }
  destruct (lookup_lt_is_Some_2 _ _ Hp) as [[i cmd] Hi]. rewrite Hi.
  pose proof (early_dispatch_events (goroutine w i) (Z.of_nat i) cmd hosts fs)
    as Hev. cbv zeta in Hev.
  destruct (result _) as [b|msg].
  - destruct Hev as [Hev Hsends].
    pose proof (dispatch_event_recvs _ _ Hev) as Hrecvs.
    set (r := dispatch (goroutine w i) (Z.of_nat i) cmd hosts fs) in *.
    assert (Hall : Forall fleet_event (events r ++ [Recv b])).
    { apply Forall_app. split; [|by repeat constructor].
      by apply dispatch_fleet_events. }
    destruct (IH (S step) (delete (sched w step `mod` length pending)%nat
                             pending) (files r))
      as [(tr & Hexit & Hevs & Htr & Hsr & Hn)
         |(path & err & tr & Hexit & Hevs & Htr & Hsr & Hn)].
    + rewrite length_delete by done. lia.
    + left. exists ((events r ++ [Recv b]) ++ tr). simpl.
      rewrite Hevs, !recvs_app, !sends_app, Hrecvs, Hsends, Hsr. simpl.
      rewrite Hn, <- !app_assoc.
      repeat split; try done. rewrite app_assoc. by apply Forall_app.
    + right. exists path, err, ((events r ++ [Recv b]) ++ tr). simpl.
      rewrite Hevs, !recvs_app, !sends_app, Hrecvs, Hsends, Hsr. simpl.
      rewrite <- !app_assoc.
      repeat split; try done; [|lia].
      rewrite app_assoc. by apply Forall_app.
  - destruct Hev as (path & tr & Hevs & Htr & Hsends).
    right. exists path, msg, tr. simpl.
    rewrite Hsends, (dispatch_event_recvs _ _ Htr). simpl.
    repeat split; try done; [|lia].
    by apply dispatch_fleet_events.
Qed.
(** The result of the goroutine of command [ic.1], run on its own. *)
Abbreviation outcome_of := (λ ic : nat * string,
  result (dispatch (goroutine w ic.1) (Z.of_nat ic.1) ic.2 hosts ∅)).

Lemma early_dispatch_result i cmd fs :
  result (dispatch (goroutine w i) (Z.of_nat i) cmd hosts fs)
  = outcome_of (i, cmd).
Proof. apply Part000Runs.early_loop_fs_independent. Qed.


(** The results received are those of the goroutines pending, each run on
    its own, in the order the scheduler makes of them. *)
Lemma early_gather_recvs n step pending fs :
  length pending = n →
  pexit (gather w commands hosts n step pending fs) = Returned →
  recvs (pevents (gather w commands hosts n step pending fs))
  ≡ₚ omap (λ ic, received (outcome_of ic)) pending.
Proof.
  revert step pending fs.
  induction n as [|n IH]; intros step pending fs Hlen; simpl.
  { by apply nil_length_inv in Hlen as ->. }
  assert (Hp : (sched w step `mod` length pending < length pending)%nat).
  { apply Nat.mod_upper_bound. lia. }
  destruct (lookup_lt_is_Some_2 _ _ Hp) as [[i cmd] Hi]. rewrite Hi.
  pose proof (delete_Permutation _ _ _ Hi) as Hperm.
  pose proof (early_dispatch_events (goroutine w i) (Z.of_nat i) cmd hosts fs)
    as Hev. cbv zeta in Hev.
  pose proof (early_dispatch_result i cmd fs) as Hres.
  destruct (result _) as [b|msg]; simpl; [|done].
  intros Hexit. destruct Hev as [Hev _].
  rewrite !recvs_app, (dispatch_event_recvs _ _ Hev). simpl.
  rewrite IH by (rewrite ?length_delete by done; done || lia).
  etrans; [|symmetry; exact (omap_Permutation _ _ _ Hperm)].
  simpl in Hres |- *. by rewrite <- Hres.
Qed.
End gather.

Lemma early_main_load w os_Args fs f commands hosts :
  load w os_Args = Some (f, commands, hosts) →
  main w os_Args fs
  = launch f commands
    +>> gather w commands hosts (length commands) 0 (imap pair commands) fs.
Proof.
  unfold load, main, readLines, launch. rewrite main_help_index.
  destruct (flag_Parse _ _) as [f' rest| |]; [|done..].
  destruct (bool_decide _); [done|].
  destruct (os_Open w (cmdsFilePath f')) as [|[cs [|]]]; [done..|].
  destruct (os_Open w (hostsFilePath f')) as [|[hs [|]]]; [done..|].
  by intros [= -> -> ->].
Qed.

Lemma early_main_runs w os_Args fs f commands hosts :
  load w os_Args = Some (f, commands, hosts) →
  let p := main w os_Args fs in
  (∃ tr,
     pexit p = Returned
     ∧ pevents p
       = launch f commands
         ++ tr ++ [debug (log_FINISHED (Z.of_nat (length commands)))]
     ∧ Forall fleet_event tr ∧ sends tr = recvs tr
     ∧ length (recvs tr) = length commands)
  ∨ (∃ path err tr,
       pexit p = Crashed err
       ∧ pevents p
         = launch f commands ++ tr ++ [Create path (Some err); Panic err]
       ∧ Forall fleet_event tr ∧ sends tr = recvs tr
       ∧ (length (recvs tr) < length commands)%nat).
Proof.
  intros Hload. cbv zeta. rewrite (early_main_load _ _ _ _ _ _ Hload).
  destruct (early_gather_runs w commands hosts (length commands) 0
              (imap pair commands) fs)
    as [(tr & Hexit & Hevs & Hrest)|(path & err & tr & Hexit & Hevs & Hrest)];
    [apply length_imap|..]; simpl; rewrite Hevs.
  - left. by exists tr.
  - right. by exists path, err, tr.
Qed.

Lemma early_main_stops_early w os_Args fs :
  load w os_Args = None →
  Forall startup_event (pevents (main w os_Args fs))
  ∧ launched (pevents (main w os_Args fs)) = [].
Proof.
  unfold load, main, readLines. rewrite main_help_index.
  destruct (flag_Parse _ _) as [f' rest| |];
    [|by split; repeat constructor..].
  destruct (bool_decide _); [by split; repeat constructor|].
  destruct (os_Open w (cmdsFilePath f')) as [|[cs [|]]];
    [by split; repeat constructor..|].
  destruct (os_Open w (hostsFilePath f')) as [|[hs [|]]];
    by split; repeat constructor.
Qed.
End Part000Fleet.

(** * More on the runs of the whole program *)

Lemma launch_create_calls f commands : create_calls (launch f commands) = [].
Proof.
  unfold launch. rewrite create_calls_app. simpl.
  induction (seq 0 (length commands)) as [|i l IH]; [done|]. exact IH.
Qed.

Lemma launch_tried f commands : tried (launch f commands) = [].
Proof.
  unfold launch. rewrite tried_app. simpl.
  induction (seq 0 (length commands)) as [|i l IH]; [done|]. exact IH.
Qed.

Lemma fleet_event_opened summary tr :
  Forall (fleet_event summary) tr → opened tr = [].
Proof.
  induction 1 as [|ev tr Hev _ IH]; [done|]. by destruct ev.
Qed.

Lemma imap_pair_fmap {A B} (g : nat → A → B) (l : list A) :
  imap g l = (λ ic, g ic.1 ic.2) <$> imap pair l.
Proof. by rewrite fmap_imap. Qed.

Lemma omap_imap_pair {A B C} (g : nat → A → B) (h : B → option C)
    (l : list A) :
  omap (λ ic, h (g ic.1 ic.2)) (imap pair l) = omap h (imap g l).
Proof.
  rewrite (imap_pair_fmap g). generalize (imap pair l). intros l'.
  induction l' as [|x l' IH]; [done|]. simpl.
  unfold omap, fmap in IH. by rewrite IH.
Qed.

Lemma count_true_Permutation bs bs' :
  bs ≡ₚ bs' → count_true bs = count_true bs'.
Proof. unfold count_true. by intros ->. Qed.

Lemma count_false_Permutation bs bs' :
  bs ≡ₚ bs' → count_false bs = count_false bs'.
Proof. unfold count_false. by intros ->. Qed.

(** An artifact belongs to one command. *)
Lemma artifact_of_inj id id' p : artifact_of id p → artifact_of id' p → id = id'.
Proof.
  intros [[a ->]| ->] [[a' Heq]|Heq].
  - by apply MainGoRuns.attemptOutputPath_inj_id in Heq as [? _].
  - by apply MainGoRuns.attempt_ne_final_id in Heq.
  - symmetry in Heq. by apply MainGoRuns.attempt_ne_final_id in Heq.
  - by apply MainGoRuns.finalOutputPath_inj in Heq.
Qed.

Lemma early_artifact_of_inj id id' p :
  early_artifact_of id p → early_artifact_of id' p → id = id'.
Proof.
  intros [a ->] [a' Heq].
  by apply Part000Runs.early_attemptOutputPath_inj_id in Heq as [? _].
Qed.

Lemma imap_pair_fst {A} (l : list A) : (imap pair l).*1 = seq 0 (length l).
Proof.
  rewrite fmap_imap, <- (list_fmap_id (seq 0 (length l))).
  exact (imap_seq_0 l id).
Qed.

(** The goroutines of [MainGo] leave of each command the artifacts it
    makes when it runs alone, and nothing else is changed. *)
Lemma gather_files w commands hosts n step pending s fs :
  length pending = n → NoDup pending.*1 →
  let p := MainGo.gather w commands hosts n step pending s fs in
  pexit p = Returned →
  (∀ i cmd path,
     (i, cmd) ∈ pending → artifact_of (Z.of_nat i) path →
     pfiles p !! path
     = files (MainGo.dispatch (goroutine w i) (Z.of_nat i) cmd hosts fs)
         !! path)
  ∧ (∀ path,
       (∀ i cmd, (i, cmd) ∈ pending → ¬ artifact_of (Z.of_nat i) path) →
       pfiles p !! path = fs !! path).
Proof.
  cbv zeta. revert step pending s fs.
  induction n as [|n IH]; intros step pending s fs Hlen Hnodup; simpl.
  { apply nil_length_inv in Hlen as ->. intros _. split; [|done].
    intros i cmd path Hin. by apply elem_of_nil in Hin. }
  assert (Hp : (sched w step `mod` length pending < length pending)%nat).
  { apply Nat.mod_upper_bound. lia. }
  destruct (lookup_lt_is_Some_2 _ _ Hp) as [[j cmdj] Hj]. rewrite Hj.
  pose proof (delete_Permutation _ _ _ Hj) as Hperm.
  set (rest := delete (sched w step `mod` length pending)%nat pending) in *.
  assert (Hnodup' : (j ∉ rest.*1) ∧ NoDup rest.*1).
  { apply NoDup_cons. change (NoDup ((j, cmdj) :: rest).*1).
    by rewrite <- Hperm. }
  destruct Hnodup' as [Hfresh Hnodup'].
  assert (Hother : ∀ i cmd, (i, cmd) ∈ rest → i ≠ j).
  { intros i cmd Hin ->. apply Hfresh.
    apply list_elem_of_fmap. by exists (j, cmd). }
  set (r := MainGo.dispatch (goroutine w j) (Z.of_nat j) cmdj hosts fs).
  destruct (result r) as [b|msg]; simpl; [|done].
  intros Hexit.
  destruct (IH (S step) rest (if b then int_incr s else s) (files r)) as [Hown Hframe];
    [unfold rest; rewrite length_delete by done; lia|done|done|].
  split.
  - intros i cmd path Hin Hart.
    rewrite Hperm in Hin. apply elem_of_cons in Hin as [[= -> ->]|Hin].
    + apply Hframe. intros i' cmd' Hin' Hart'.
      apply (Hother _ _ Hin'), Nat2Z.inj.
      exact (artifact_of_inj _ _ _ Hart' Hart).
    + rewrite (Hown _ _ _ Hin Hart).
      apply MainGoRuns.loop_files_local.
      apply MainGoRuns.dispatch_frame_artifact.
      intros Hart'. apply (Hother _ _ Hin), Nat2Z.inj.
      exact (artifact_of_inj _ _ _ Hart Hart').
  - intros path Hnone. rewrite Hframe.
    + apply MainGoRuns.dispatch_frame_artifact.
      apply (Hnone j cmdj). rewrite Hperm. apply list_elem_of_here.
    + intros i cmd Hin. apply (Hnone i cmd). rewrite Hperm.
      by apply list_elem_of_further.
Qed.

(** The goroutines of [Part000] leave of each command the artifacts it
    makes when it runs alone, and nothing else is changed. *)
Lemma early_gather_files w commands hosts n step pending fs :
  length pending = n → NoDup pending.*1 →
  let p := Part000.gather w commands hosts n step pending fs in
  pexit p = Returned →
  (∀ i cmd path,
     (i, cmd) ∈ pending → early_artifact_of (Z.of_nat i) path →
     pfiles p !! path
     = files (Part000.dispatch (goroutine w i) (Z.of_nat i) cmd hosts fs)
         !! path)
  ∧ (∀ path,
       (∀ i cmd, (i, cmd) ∈ pending → ¬ early_artifact_of (Z.of_nat i) path) →
       pfiles p !! path = fs !! path).
Proof.
  cbv zeta. revert step pending fs.
  induction n as [|n IH]; intros step pending fs Hlen Hnodup; simpl.
  { apply nil_length_inv in Hlen as ->. intros _. split; [|done].
    intros i cmd path Hin. by apply elem_of_nil in Hin. }
  assert (Hp : (sched w step `mod` length pending < length pending)%nat).
  { apply Nat.mod_upper_bound. lia. }
  destruct (lookup_lt_is_Some_2 _ _ Hp) as [[j cmdj] Hj]. rewrite Hj.
  pose proof (delete_Permutation _ _ _ Hj) as Hperm.
  set (rest := delete (sched w step `mod` length pending)%nat pending) in *.
  assert (Hnodup' : (j ∉ rest.*1) ∧ NoDup rest.*1).
  { apply NoDup_cons. change (NoDup ((j, cmdj) :: rest).*1).
    by rewrite <- Hperm. }
  destruct Hnodup' as [Hfresh Hnodup'].
  assert (Hother : ∀ i cmd, (i, cmd) ∈ rest → i ≠ j).
  { intros i cmd Hin ->. apply Hfresh.
    apply list_elem_of_fmap. by exists (j, cmd). }
  set (r := Part000.dispatch (goroutine w j) (Z.of_nat j) cmdj hosts fs).
  destruct (result r) as [b|msg]; simpl; [|done].
  intros Hexit.
  destruct (IH (S step) rest (files r)) as [Hown Hframe];
    [unfold rest; rewrite length_delete by done; lia|done|done|].
  split.
  - intros i cmd path Hin Hart.
    rewrite Hperm in Hin. apply elem_of_cons in Hin as [[= -> ->]|Hin].
    + apply Hframe. intros i' cmd' Hin' Hart'.
      apply (Hother _ _ Hin'), Nat2Z.inj.
      exact (early_artifact_of_inj _ _ _ Hart' Hart).
    + rewrite (Hown _ _ _ Hin Hart).
      apply Part000Runs.early_loop_files_local.
      apply Part000Runs.early_dispatch_frame_artifact.
      intros Hart'. apply (Hother _ _ Hin), Nat2Z.inj.
      exact (early_artifact_of_inj _ _ _ Hart Hart').
  - intros path Hnone. rewrite Hframe.
    + apply Part000Runs.early_dispatch_frame_artifact.
      apply (Hnone j cmdj). rewrite Hperm. apply list_elem_of_here.
    + intros i cmd Hin. apply (Hnone i cmd). rewrite Hperm.
      by apply list_elem_of_further.
Qed.

(** With no host, every goroutine reports [false] at once, in
    [MainGo]. *)
Lemma gather_no_hosts w commands n step pending s fs :
  length pending = n →
  let p := MainGo.gather w commands [] n step pending s fs in
  let total := Z.of_nat (length commands) in
  pexit p = Returned ∧ pfiles p = fs
  ∧ create_calls (pevents p) = [] ∧ tried (pevents p) = []
  ∧ recvs (pevents p) = replicate n false
  ∧ last (pevents p) = Some (debug (MainGo.log_FINISHED s (int_sub total s) total)).
Proof.
  cbv zeta. revert step pending s fs.
  induction n as [|n IH]; intros step pending s fs Hlen; simpl; [done|].
  assert (Hp : (sched w step `mod` length pending < length pending)%nat).
  { apply Nat.mod_upper_bound. lia. }
  destruct (lookup_lt_is_Some_2 _ _ Hp) as [[i cmd] Hi]. rewrite Hi.
  destruct (IH (S step) (delete (sched w step `mod` length pending)%nat
                            pending) s fs)
    as (Hexit & Hfiles & Hcreate & Htried & Hrecvs & Hlast);
    [rewrite length_delete by done; lia|].
  unfold MainGo.dispatch. simpl.
  rewrite Hexit, Hfiles, Hcreate, Htried, Hrecvs. repeat split; try done.
  by rewrite last_cons, Hlast.
Qed.

(** The files [main] opens, in [MainGo]: the commands file, and the
    hosts file once the commands are read. *)
Lemma main_opened w os_Args fs f rest :
  flag_Parse flag_defaults (tail os_Args) = Parsed f rest →
  os_Args !! 1%nat ≠ Some "help" →
  opened (pevents (MainGo.main w os_Args fs))
  = cmdsFilePath f
    :: match os_Open w (cmdsFilePath f) with
       | inr (_, None) => [hostsFilePath f]
       | _ => []
       end.
Proof.
  intros Hparse Hhelp.
  destruct (os_Open w (cmdsFilePath f)) as [err|[cs [err|]]] eqn:Hcmds;
    [| |destruct (os_Open w (hostsFilePath f)) as [err|[hs [err|]]] eqn:Hhosts].
  1-4: unfold MainGo.main, readLines; rewrite Hparse, main_help_index,
         (bool_decide_eq_false_2 _ Hhelp), Hcmds, ?Hhosts; done.
  assert (Hload : load w os_Args = Some (f, cs, hs)).
  { unfold load. by rewrite Hparse, (bool_decide_eq_false_2 _ Hhelp),
      Hcmds, Hhosts. }
  destruct (MainGoFleet.main_runs w os_Args fs f cs hs Hload)
    as [(tr & _ & -> & Htr & _)|(path & err & tr & _ & -> & Htr & _)];
    rewrite !opened_app, launch_opened, (fleet_event_opened _ _ Htr);
    done.
Qed.

(** With no host, every goroutine reports [false] at once, in
    [Part000]. *)
Lemma early_gather_no_hosts w commands n step pending fs :
  length pending = n →
  let p := Part000.gather w commands [] n step pending fs in
  let total := Z.of_nat (length commands) in
  pexit p = Returned ∧ pfiles p = fs
  ∧ create_calls (pevents p) = [] ∧ tried (pevents p) = []
  ∧ recvs (pevents p) = replicate n false
  ∧ last (pevents p) = Some (debug (Part000.log_FINISHED total)).
Proof.
  cbv zeta. revert step pending fs.
  induction n as [|n IH]; intros step pending fs Hlen; simpl; [done|].
  assert (Hp : (sched w step `mod` length pending < length pending)%nat).
  { apply Nat.mod_upper_bound. lia. }
  destruct (lookup_lt_is_Some_2 _ _ Hp) as [[i cmd] Hi]. rewrite Hi.
  destruct (IH (S step) (delete (sched w step `mod` length pending)%nat
                            pending) fs)
    as (Hexit & Hfiles & Hcreate & Htried & Hrecvs & Hlast);
    [rewrite length_delete by done; lia|].
  unfold Part000.dispatch. simpl.
  rewrite Hexit, Hfiles, Hcreate, Htried, Hrecvs. repeat split; try done.
  by rewrite last_cons, Hlast.
Qed.

(** The files [main] opens, in [Part000]: the commands file, and the
    hosts file once the commands are read. *)
Lemma early_main_opened w os_Args fs f rest :
  flag_Parse flag_defaults (tail os_Args) = Parsed f rest →
  os_Args !! 1%nat ≠ Some "help" →
  opened (pevents (Part000.main w os_Args fs))
  = cmdsFilePath f
    :: match os_Open w (cmdsFilePath f) with
       | inr (_, None) => [hostsFilePath f]
       | _ => []
       end.
Proof.
  intros Hparse Hhelp.
  destruct (os_Open w (cmdsFilePath f)) as [err|[cs [err|]]] eqn:Hcmds;
    [| |destruct (os_Open w (hostsFilePath f)) as [err|[hs [err|]]] eqn:Hhosts].
  1-4: unfold Part000.main, readLines; rewrite Hparse, main_help_index,
         (bool_decide_eq_false_2 _ Hhelp), Hcmds, ?Hhosts; done.
  assert (Hload : load w os_Args = Some (f, cs, hs)).
  { unfold load. by rewrite Hparse, (bool_decide_eq_false_2 _ Hhelp),
      Hcmds, Hhosts. }
  destruct (Part000Fleet.early_main_runs w os_Args fs f cs hs Hload)
    as [(tr & _ & -> & Htr & _)|(path & err & tr & _ & -> & Htr & _)];
    rewrite !opened_app, launch_opened, (fleet_event_opened _ _ Htr);
    done.
Qed.

(** * The claims *)

(** ** C1: the final artifact *)

(** C1, as stated, fails.  In [main.go] the execution succeeds and [true] is
    sent, but when the rename fails there is no final artifact; the earlier
    variant never makes one. *)
Lemma C1_no_final_artifact :
  let r := MainGo.dispatch env_rename_fails 0 "uptime" ["alpha"] ∅ in
  let r0 := Part000.dispatch env_ok 0 "uptime" ["alpha"] ∅ in
  (tried (events r) = [(0%nat, true)] ∧ result r = Sent true
   ∧ promoted (events r) = []
   ∧ files r !! MainGo.finalOutputPath 0 = None
   ∧ files r !! MainGo.attemptOutputPath 0 0 = Some "up 3 days")
  ∧ (tried (events r0) = [(0%nat, true)] ∧ result r0 = Sent true
     ∧ promoted (events r0) = []
     ∧ files r0 = {[ Part000.attemptOutputPath 0 0 := "up 3 days" ]}).
Proof. vm_compute. done. Qed.

(** C1, amended.  In [main.go], when the Remote Executor succeeds on some
    host and the rename that promotes the artifact does not fail, the pool is
    not empty, the result sent is [true], and exactly one artifact is
    promoted, to the final name made from the command id alone; it holds the
    output of the attempt that succeeded.  In the earlier variant [true] is
    sent as well, nothing is promoted, and the output is in the attempt
    artifact. *)
Theorem C1_final_artifact (e : Env) (id : Z) (command : string)
    (hosts : list string) (fs : FS) :
  let order := rand_Perm (rand_src e) (length hosts) in
  (let r := MainGo.dispatch e id command hosts fs in
   (∃ i, (i, true) ∈ tried (events r)) →
   (∀ old new, (old, new, false) ∉ renames (events r)) →
   hosts ≠ [] ∧ result r = Sent true ∧ sends (events r) = [true]
   ∧ promoted (events r) = [MainGo.finalOutputPath id]
   ∧ ∃ n i host out,
       order !! n = Some i ∧ hosts !! i = Some host
       ∧ tried (events r) = failures (take n order) ++ [(i, true)]
       ∧ cmd_Run e n ["ssh"; "-o"; "ConnectTimeout=2"; host; command]
         = (out, None)
       ∧ files r !! MainGo.finalOutputPath id = Some out)
  ∧ (let r0 := Part000.dispatch e id command hosts fs in
     (∃ i, (i, true) ∈ tried (events r0)) →
     hosts ≠ [] ∧ result r0 = Sent true ∧ sends (events r0) = [true]
     ∧ promoted (events r0) = []
     ∧ ∃ n i host out,
         order !! n = Some i ∧ hosts !! i = Some host
         ∧ tried (events r0) = failures (take n order) ++ [(i, true)]
         ∧ cmd_Run e n ["ssh"; host; command] = (out, None)
         ∧ files r0 !! Part000.attemptOutputPath id 0 = Some out).
Proof.
  assert (Hpool : ∀ n i,
    rand_Perm (rand_src e) (length hosts) !! n = Some i → hosts ≠ []).
  { intros n i Hn%lookup_lt_Some ->.
    rewrite rand_Perm_length in Hn. simpl in Hn. lia. }
  cbv zeta. split.
  - unfold MainGo.dispatch. intros Hsucc Hrename.
    apply (stops_in_success _ _ (MainGoRuns.loop_stops_in e id command hosts
                                   _ 0%nat 0 fs)) in Hsucc.
    pose proof (MainGoRuns.loop_sends e id command hosts
                  (rand_Perm (rand_src e) (length hosts)) 0 0 fs) as Hsends.
    cbv zeta in Hsends. rewrite Hsucc in Hsends.
    destruct (MainGoRuns.loop_success e id command hosts _ _ _ _ Hsucc)
      as (n & i & host & out & path & rerr & Hn & Hi & Hrun & Htried & _
          & Hren & Hfiles).
    destruct rerr as [rerr|].
    { destruct (Hrename path (MainGo.finalOutputPath id)).
      rewrite Hren. apply list_elem_of_here. }
    destruct Hfiles as (Hprom & Hfinal & _).
    repeat split; eauto. by exists n, i, host, out.
  - unfold Part000.dispatch. intros Hsucc.
    apply (stops_in_success _ _ (Part000Runs.early_loop_stops_in e id command
                                   hosts _ 0%nat 0 fs)) in Hsucc.
    pose proof (Part000Runs.early_loop_sends e id command hosts
                  (rand_Perm (rand_src e) (length hosts)) 0 0 fs) as Hsends.
    cbv zeta in Hsends. rewrite Hsucc in Hsends.
    destruct (Part000Runs.early_loop_success e id command hosts _ _ _ _ Hsucc)
      as (n & i & host & out & Hn & Hi & Hrun & Htried & Hfile).
    repeat split; eauto.
    + apply Part000Runs.early_loop_never_renames.
    + by exists n, i, host, out.
Qed.

(** C1 at work: the first host fails, the second succeeds, the rename
    succeeds. *)
Lemma C1_final_artifact_witness :
  let r := MainGo.dispatch env_retry 3 "uptime" ["alpha"; "beta"] ∅ in
  result r = Sent true
  ∧ promoted (events r) = ["cmd_3-final.log"]
  ∧ files r !! "cmd_3-final.log" = Some "up 3 days".
Proof.
  pose proof (C1_final_artifact env_retry 3 "uptime" ["alpha"; "beta"] ∅)
    as [HM _].
  destruct HM as (_ & Hres & _ & Hprom & _).
  - exists 0%nat. vm_compute. apply list_elem_of_further, list_elem_of_here.
  - intros old new. vm_compute. intros Hin. elem_cases Hin.
  - split; [exact Hres|]. split; [exact Hprom|]. vm_compute. reflexivity.
Defined.

(** ** C2 and C3: the artifacts of the attempts *)

(** X1. In [main.go], the attempts of a command are numbered 0, 1, 2, ... in
    the order they are made: [os.Create] is called on the paths these
    numbers give, all distinct, and on no more paths than there are
    hosts. *)
Lemma MainGo_attempt_numbers (e : Env) (id : Z) (command : string)
    (hosts : list string) (fs : FS) :
  slice_len_ok hosts →
  let r := MainGo.dispatch e id command hosts fs in
  let n := length (create_calls (events r)) in
  create_calls (events r)
    = MainGo.attemptOutputPath id ∘ Z.of_nat <$> seq 0 n
  ∧ NoDup (create_calls (events r))
  ∧ (n ≤ length hosts)%nat.
Proof.
  intros Hlen. cbv zeta. unfold MainGo.dispatch.
  set (order := rand_Perm (rand_src e) (length hosts)).
  destruct (MainGoRuns.loop_attempt_numbers e id command hosts order 0 0 fs)
    as [Hcalls _].
  { unfold order. rewrite rand_Perm_length. exact Hlen. }
  change (Z.of_nat 0) with 0 in Hcalls.
  split; [exact Hcalls|]. split.
  - rewrite Hcalls. apply NoDup_fmap_2_strong; [|apply NoDup_seq].
    intros x y _ _ Heq. simpl in Heq.
    apply MainGoRuns.attemptOutputPath_inj in Heq. lia.
  - pose proof (MainGoRuns.loop_create_calls_length e id command hosts order
                  0 0 fs) as Hle.
    unfold order in Hle at 2. by rewrite rand_Perm_length in Hle.
Qed.

(** X1 at work: two hosts that both fail. *)
Lemma MainGo_attempt_numbers_witness :
  let r := MainGo.dispatch env_all_fail 0 "uptime" ["alpha"; "beta"] ∅ in
  create_calls (events r) = ["cmd_0-attempt0.log"; "cmd_0-attempt1.log"]
  ∧ NoDup (create_calls (events r)).
Proof.
  cbv zeta.
  destruct (MainGo_attempt_numbers env_all_fail 0 "uptime" ["alpha"; "beta"]
              ∅) as (Hcalls & Hnodup & _).
  - vm_compute. discriminate.
  - split; [|exact Hnodup]. etrans; [exact Hcalls|]. vm_compute. reflexivity.
Defined.

(** X2. In [main.go], when the Remote Executor fails on every host of the
    pool, the result sent is [false], nothing is renamed or promoted, and
    there is one attempt artifact for each host of the pool, each with the
    output of its attempt. *)
Lemma MainGo_exhausted (e : Env) (id : Z) (command : string)
    (hosts : list string) (fs : FS) :
  slice_len_ok hosts →
  let r := MainGo.dispatch e id command hosts fs in
  let order := rand_Perm (rand_src e) (length hosts) in
  (∀ i, (i < length hosts)%nat → (i, false) ∈ tried (events r)) →
  result r = Sent false ∧ sends (events r) = [false]
  ∧ renames (events r) = [] ∧ promoted (events r) = []
  ∧ files r !! MainGo.finalOutputPath id = fs !! MainGo.finalOutputPath id
  ∧ created (events r)
    = MainGo.attemptOutputPath id ∘ Z.of_nat <$> seq 0 (length hosts)
  ∧ attempt_artifacts (events r) = length hosts
  ∧ ∀ n i host,
      order !! n = Some i → hosts !! i = Some host →
      files r !! MainGo.attemptOutputPath id (Z.of_nat n)
      = Some (cmd_Run e n ["ssh"; "-o"; "ConnectTimeout=2"; host; command]).1.
Proof.
  intros Hlen. cbv zeta. unfold MainGo.dispatch.
  set (order := rand_Perm (rand_src e) (length hosts)).
  intros Hall.
  assert (Hmax : Z.of_nat (0 + length order) ≤ int_max).
  { unfold order. rewrite rand_Perm_length. exact Hlen. }
  assert (Hres : result (MainGo.dispatch_loop e id command hosts order 0 0 fs)
                 = Sent false).
  { apply (stops_in_exhausted order); [apply rand_Perm_NoDup|
      apply MainGoRuns.loop_stops_in|].
    intros i Hi. by apply Hall, (rand_Perm_lt (rand_src e)). }
  pose proof (MainGoRuns.loop_sends e id command hosts order 0 0 fs) as Hsends.
  cbv zeta in Hsends. rewrite Hres in Hsends.
  destruct (MainGoRuns.loop_no_promotion e id command hosts order 0 0 fs)
    as (Hren & Hprom & Hfinal); [by rewrite Hres|].
  destruct (MainGoRuns.loop_attempt_numbers e id command hosts order 0 0 fs
              Hmax) as [_ Hcreated].
  change (Z.of_nat 0) with 0 in Hcreated.
  pose proof (MainGoRuns.loop_stops_in e id command hosts order 0 0 fs)
    as Hstops.
  unfold stops_in in Hstops. rewrite Hres in Hstops.
  rewrite Hstops, length_failures in Hcreated.
  unfold order in Hcreated at 2. rewrite rand_Perm_length in Hcreated.
  repeat split; try done.
  - unfold attempt_artifacts. rewrite Hcreated.
    rewrite remove_dups_NoDup; [by rewrite length_fmap, length_seq|].
    apply NoDup_fmap_2_strong; [|apply NoDup_seq].
    intros x y _ _ Heq. simpl in Heq.
    apply MainGoRuns.attemptOutputPath_inj in Heq. lia.
  - intros n i host Hn Hi.
    exact (MainGoRuns.loop_exhausted_files e id command hosts order 0 0 fs
             n i host Hmax Hres Hn Hi).
Qed.

(** X2 at work: two hosts that both fail leave two artifacts. *)
Lemma MainGo_exhausted_witness :
  let r := MainGo.dispatch env_all_fail 0 "uptime" ["alpha"; "beta"] ∅ in
  result r = Sent false ∧ attempt_artifacts (events r) = 2%nat
  ∧ files r !! "cmd_0-attempt0.log" = Some "connection refused"
  ∧ files r !! "cmd_0-attempt1.log" = Some "connection refused".
Proof.
  cbv zeta.
  destruct (MainGo_exhausted env_all_fail 0 "uptime" ["alpha"; "beta"] ∅)
    as (Hres & _ & _ & _ & _ & _ & Hcount & Hfiles).
  - vm_compute. discriminate.
  - intros [|[|i]] Hi; [vm_compute; elem_found..|simpl in Hi; lia].
  - split; [exact Hres|]. split; [exact Hcount|].
    split; [exact (Hfiles 0%nat 1%nat "beta" eq_refl eq_refl)|
            exact (Hfiles 1%nat 0%nat "alpha" eq_refl eq_refl)].
Defined.

(** X3. In the earlier variant, the artifact of every attempt is at the path
    of attempt 0, whatever the environment: [attempts] is never
    incremented, and a command leaves one artifact at most. *)
Lemma Part000_attempt_numbers (e : Env) (id : Z) (command : string)
    (hosts : list string) (fs : FS) :
  let r := Part000.dispatch e id command hosts fs in
  create_calls (events r)
    = replicate (length (create_calls (events r)))
        (Part000.attemptOutputPath id 0)
  ∧ (attempt_artifacts (events r) ≤ 1)%nat.
Proof.
  cbv zeta. unfold Part000.dispatch.
  destruct (Part000Runs.early_loop_attempt_numbers e id command hosts
              (rand_Perm (rand_src e) (length hosts)) 0 0 fs)
    as [Hcalls Hcreated].
  split; [exact Hcalls|].
  unfold attempt_artifacts. rewrite Hcreated.
  apply remove_dups_replicate.
Qed.

(** C2 fails in the earlier variant.  With two hosts that both fail, [false]
    is sent and nothing is promoted, but only one attempt artifact is
    created: the second attempt truncates the artifact of the first. *)
Theorem C2_one_artifact_for_two_hosts :
  let hosts := ["alpha"; "beta"] in
  let r := Part000.dispatch env_all_fail 0 "uptime" hosts ∅ in
  tried (events r) = [(1%nat, false); (0%nat, false)]
  ∧ result r = Sent false ∧ promoted (events r) = []
  ∧ created (events r) = ["cmd0_attempt0.log"; "cmd0_attempt0.log"]
  ∧ attempt_artifacts (events r) = 1%nat
  ∧ length hosts = 2%nat
  ∧ files r = {[ "cmd0_attempt0.log" := "connection refused" ]}.
Proof. vm_compute. done. Qed.

(** C3 fails in the earlier variant.  With three hosts that all fail, the
    three attempts carry the numbers 0, 0, 0: the number is reused, and the
    three artifacts have one name. *)
Theorem C3_attempt_number_reused :
  let r := Part000.dispatch env_all_fail 7 "uptime"
             ["alpha"; "beta"; "gamma"] ∅ in
  create_calls (events r) = Part000.attemptOutputPath 7 <$> [0; 0; 0]
  ∧ create_calls (events r)
    = ["cmd7_attempt0.log"; "cmd7_attempt0.log"; "cmd7_attempt0.log"]
  ∧ ¬ NoDup (create_calls (events r)).
Proof.
  vm_compute. split; [done|]. split; [done|].
  intros Hnd. apply NoDup_cons in Hnd as [Hnotin _].
  apply Hnotin, list_elem_of_here.
Qed.

(** ** C4: one result for every command *)

(** C4. In [main.go], [dispatch] sends exactly one boolean on [doneChan] on
    each of its returning paths, as the last thing it does: [true] when an
    execution succeeds, [false] when the execution fails on every host, and
    [false] when the pool is empty; it never sends more than one.  And when
    [main] writes the summary, it is the last event of the run, the commands
    and hosts were loaded, and before it [main] received exactly one result
    for each command, each of them sent by a goroutine. *)
Theorem C4_one_result_per_command (e : Env) (id : Z) (command : string)
    (hosts : list string) (fs : FS) (w : World) (os_Args : list string) :
  (let r := MainGo.dispatch e id command hosts fs in
   (length (sends (events r)) ≤ 1)%nat
   ∧ ((∃ i, (i, true) ∈ tried (events r)) →
      sends (events r) = [true] ∧ last (events r) = Some (Send true))
   ∧ (hosts ≠ [] →
      (∀ i, (i < length hosts)%nat → (i, false) ∈ tried (events r)) →
      sends (events r) = [false] ∧ last (events r) = Some (Send false))
   ∧ (hosts = [] →
      sends (events r) = [false] ∧ last (events r) = Some (Send false)))
  ∧ (let p := MainGo.main w os_Args fs in
     ∀ s fl t,
       debug (MainGo.log_FINISHED s fl t) ∈ pevents p →
       ∃ f commands hosts' tr,
         load w os_Args = Some (f, commands, hosts')
         ∧ pevents p
           = launch f commands ++ tr ++ [debug (MainGo.log_FINISHED s fl t)]
         ∧ (debug (MainGo.log_FINISHED s fl t) ∉ launch f commands ++ tr)
         ∧ recvs (pevents p) = recvs tr
         ∧ length (recvs tr) = length commands
         ∧ sends tr = recvs tr).
Proof.
  split.
  - cbv zeta. unfold MainGo.dispatch.
    set (order := rand_Perm (rand_src e) (length hosts)).
    pose proof (MainGoRuns.loop_stops_in e id command hosts order 0 0 fs)
      as Hstops.
    pose proof (MainGoRuns.loop_sends e id command hosts order 0 0 fs)
      as Hsends.
    pose proof (MainGoRuns.loop_last e id command hosts order 0 0 fs)
      as Hlast.
    cbv zeta in Hsends, Hlast.
    assert (Hexh : (∀ i, (i < length hosts)%nat →
                      (i, false) ∈ tried (events (MainGo.dispatch_loop e id
                         command hosts order 0 0 fs))) →
                   result (MainGo.dispatch_loop e id command hosts order 0 0
                             fs) = Sent false).
    { intros Hall.
      apply (stops_in_exhausted order); [apply rand_Perm_NoDup|done|].
      intros i Hi. by apply Hall, (rand_Perm_lt (rand_src e)). }
    split; [|split; [|split]].
    + rewrite Hsends. destruct (result _); simpl; lia.
    + intros Hsucc. apply (stops_in_success _ _ Hstops) in Hsucc.
      by rewrite Hsucc in Hsends, Hlast.
    + intros _ Hall. apply Hexh in Hall. by rewrite Hall in Hsends, Hlast.
    + intros Hnil.
      assert (Hres : result (MainGo.dispatch_loop e id command hosts order 0 0
                               fs) = Sent false).
      { apply Hexh. intros i Hi. rewrite Hnil in Hi. simpl in Hi. lia. }
      by rewrite Hres in Hsends, Hlast.
  - cbv zeta. intros s fl t Hin.
    destruct (load w os_Args) as [[[f commands] hosts']|] eqn:Hload.
    2:{ destruct (MainGoFleet.main_stops_early w os_Args fs Hload) as [Hev _].
        by apply startup_no_log in Hin. }
    pose proof (launch_startup f commands) as Hla.
    assert (Hsum : MainGo.is_summary (MainGo.log_FINISHED s fl t))
      by (by exists s, fl, t).
    destruct (MainGoFleet.main_runs w os_Args fs f commands hosts' Hload)
      as [(tr & Hexit & Hevs & Htr & Hsr & Hn)
         |(path' & err' & tr & Hexit & Hevs & Htr & Hsr & Hn)];
      rewrite Hevs in Hin |- *.
    2:{ by destruct (crashed_no_summary MainGo.is_summary _ _ _ _ _
                       Hla Htr Hsum Hin). }
    assert (Hnot : debug (MainGo.log_FINISHED s fl t)
                   ∉ (launch f commands ++ tr)).
    { intros [Hl|Hl]%elem_of_app.
      - by apply startup_no_log in Hl.
      - by apply (fleet_no_summary MainGo.is_summary) in Hl. }
    rewrite app_assoc in Hin. apply elem_of_app in Hin as [Hin|Hin]; [done|].
    apply list_elem_of_singleton in Hin. rewrite <- Hin.
    exists f, commands, hosts', tr. repeat split; try done.
    rewrite !recvs_app, launch_recvs. simpl. by rewrite app_nil_r.
Qed.

(** C4 at work: two commands, each succeeding on its second attempt. *)
Lemma C4_one_result_per_command_witness :
  let r := MainGo.dispatch env_retry 0 "uptime" ["alpha"; "beta"] ∅ in
  let p := MainGo.main (world_of env_retry) ["disgo"] ∅ in
  sends (events r) = [true]
  ∧ length (recvs (pevents p)) = 2%nat.
Proof.
  destruct (C4_one_result_per_command env_retry 0 "uptime" ["alpha"; "beta"] ∅
              (world_of env_retry) ["disgo"]) as [(_ & Hsucc & _) Hmain].
  destruct Hsucc as [Hsends _].
  { exists 0%nat. vm_compute.
    apply list_elem_of_further, list_elem_of_here. }
  split; [exact Hsends|].
  destruct (Hmain 2 0 2)
    as (f & commands & hosts' & tr & Hload & _ & _ & -> & -> & _).
  { vm_compute. elem_found. }
  vm_compute in Hload. by injection Hload as <- <- <-.
Defined.

(** ** C5: the order in which the hosts are tried *)

(** C5, as stated, fails: when the first host tried succeeds, the sequence of
    the hosts tried is that host alone, and the other host of the pool is
    never tried. *)
Lemma C5_host_never_tried :
  let hosts := ["alpha"; "beta"] in
  let r := MainGo.dispatch env_ok 0 "uptime" hosts ∅ in
  (tried (events r)).*1 = [1%nat]
  ∧ ¬ (tried (events r)).*1 ≡ₚ seq 0 (length hosts).
Proof.
  vm_compute. split; [done|].
  intros Hperm. by apply Permutation_length in Hperm.
Qed.

(** C5, amended.  The order [dispatch] iterates over is a permutation of the
    indices of the host pool, each index exactly once.  The hosts tried are
    an initial segment of that order, one after the other, every execution on
    the host its index gives; the segment ends at the first execution that
    succeeds, or at a failure of [os.Create]; it is the whole order when
    [false] is sent, and exactly when [false] is sent or the execution that
    succeeds is on the last host of the order.  This holds in both
    variants. *)
Theorem C5_host_order (e : Env) (id : Z) (command : string)
    (hosts : list string) (fs : FS) :
  let order := rand_Perm (rand_src e) (length hosts) in
  let r := MainGo.dispatch e id command hosts fs in
  let r0 := Part000.dispatch e id command hosts fs in
  order ≡ₚ seq 0 (length hosts) ∧ NoDup order
  ∧ (stops_in order r
     ∧ (tried (events r)).*1 `prefix_of` order
     ∧ (result r = Sent false → (tried (events r)).*1 = order)
     ∧ ((tried (events r)).*1 = order
        ↔ result r = Sent false
          ∨ ∃ i, last order = Some i ∧ (i, true) ∈ tried (events r))
     ∧ ∀ i host cmd path err,
         Run i host cmd path err ∈ events r → hosts !! i = Some host)
  ∧ (stops_in order r0
     ∧ (tried (events r0)).*1 `prefix_of` order
     ∧ (result r0 = Sent false → (tried (events r0)).*1 = order)
     ∧ ((tried (events r0)).*1 = order
        ↔ result r0 = Sent false
          ∨ ∃ i, last order = Some i ∧ (i, true) ∈ tried (events r0))
     ∧ ∀ i host cmd path err,
         Run i host cmd path err ∈ events r0 → hosts !! i = Some host).
Proof.
  cbv zeta. unfold MainGo.dispatch, Part000.dispatch.
  set (order := rand_Perm (rand_src e) (length hosts)).
  split; [apply rand_Perm_Permutation|]. split; [apply rand_Perm_NoDup|].
  split.
  - pose proof (MainGoRuns.loop_stops_in e id command hosts order 0 0 fs)
      as Hstops.
    split; [exact Hstops|]. split; [by apply stops_in_prefix|].
    split; [|split].
    + intros Hres. unfold stops_in in Hstops. rewrite Hres in Hstops.
      by rewrite Hstops, fst_failures.
    + apply stops_in_whole; [apply rand_Perm_NoDup|exact Hstops].
    + intros i host cmd path err Hin.
      by apply MainGoRuns.loop_run_host in Hin as [? _].
  - pose proof (Part000Runs.early_loop_stops_in e id command hosts order 0 0
                  fs) as Hstops.
    split; [exact Hstops|]. split; [by apply stops_in_prefix|].
    split; [|split].
    + intros Hres. unfold stops_in in Hstops. rewrite Hres in Hstops.
      by rewrite Hstops, fst_failures.
    + apply stops_in_whole; [apply rand_Perm_NoDup|exact Hstops].
    + intros i host cmd path err Hin.
      by apply Part000Runs.early_loop_run_host in Hin as [? _].
Qed.

(** ** C6: the empty host pool *)

(** C6. A command dispatched with an empty host pool reports failure at once:
    the result sent is [false], no artifact is created and the Remote
    Executor is not called.  This holds in both variants. *)
Theorem C6_empty_pool (e : Env) (id : Z) (command : string) (fs : FS) :
  let r := MainGo.dispatch e id command [] fs in
  let r0 := Part000.dispatch e id command [] fs in
  (result r = Sent false ∧ sends (events r) = [false]
   ∧ create_calls (events r) = [] ∧ tried (events r) = []
   ∧ events r = [debug (MainGo.log_FAILED id); Send false] ∧ files r = fs)
  ∧ (result r0 = Sent false ∧ sends (events r0) = [false]
     ∧ create_calls (events r0) = [] ∧ tried (events r0) = []
     ∧ events r0 = [debug (Part000.log_FAILED id); Send false] ∧ files r0 = fs).
Proof. done. Qed.

(** ** C7: when the promotion fails *)

(** C7. In [main.go], when the rename that promotes the artifact of an
    attempt fails, the failure is not fatal: a line of the diagnostic stream
    says so, the result sent is still [true], nothing is promoted, and the
    output stays in the artifact of the attempt, under its numbered name.
    And [os.Rename] is only ever called right after the Remote Executor has
    reported success for the attempt whose artifact it moves. *)
Theorem C7_promotion_failure (e : Env) (id : Z) (command : string)
    (hosts : list string) (fs : FS) :
  slice_len_ok hosts →
  let r := MainGo.dispatch e id command hosts fs in
  (∀ old new err,
     Rename old new (Some err) ∈ events r →
     result r = Sent true ∧ sends (events r) = [true]
     ∧ new = MainGo.finalOutputPath id
     ∧ debug (MainGo.log_ERROR_rename id new old) ∈ events r
     ∧ promoted (events r) = []
     ∧ files r !! new = fs !! new
     ∧ ∃ n i host out,
         old = MainGo.attemptOutputPath id (Z.of_nat n)
         ∧ tried (events r)
           = failures (take n (rand_Perm (rand_src e) (length hosts)))
             ++ [(i, true)]
         ∧ hosts !! i = Some host
         ∧ cmd_Run e n ["ssh"; "-o"; "ConnectTimeout=2"; host; command]
           = (out, None)
         ∧ files r !! old = Some out)
  ∧ (∀ old new err,
       Rename old new err ∈ events r →
       ∃ pre i host post,
         events r = pre ++ Run i host command old None
                          :: Rename old new err :: post).
Proof.
  intros Hlen. cbv zeta. unfold MainGo.dispatch.
  set (order := rand_Perm (rand_src e) (length hosts)).
  split; [|intros old new err Hin;
           by apply (MainGoRuns.loop_rename_after_success e id command hosts
                       order 0 0 fs) in Hin as [_ Hin]].
  intros old new err Hin.
  assert (Hren : (old, new, false) ∈ renames
            (events (MainGo.dispatch_loop e id command hosts order 0 0 fs))).
  { apply list_elem_of_omap. by exists (Rename old new (Some err)). }
  destruct (decide (result (MainGo.dispatch_loop e id command hosts order 0 0
                              fs) = Sent true)) as [Hres|Hres].
  2:{ apply (MainGoRuns.loop_no_promotion e id command hosts) in Hres
        as [Hnone _].
      rewrite Hnone in Hren. by apply elem_of_nil in Hren. }
  pose proof (MainGoRuns.loop_sends e id command hosts order 0 0 fs) as Hsends.
  cbv zeta in Hsends. rewrite Hres in Hsends.
  destruct (MainGoRuns.loop_attempt_numbers e id command hosts order 0 0 fs)
    as [_ Hcreated].
  { unfold order. rewrite rand_Perm_length. exact Hlen. }
  destruct (MainGoRuns.loop_success e id command hosts _ _ _ _ Hres)
    as (n & i & host & out & path & rerr & Hn & Hi & Hrun & Htried & Hlast
        & Hrens & Hfiles).
  rewrite Hrens in Hren. apply list_elem_of_singleton in Hren.
  injection Hren as -> -> Hrerr.
  destruct rerr as [rerr|]; [|done].
  destruct Hfiles as (Hprom & _ & Hlog & Hfile & Hfinal).
  repeat split; try done.
  exists n, i, host, out. repeat split; try done.
  change (Z.of_nat 0) with 0 in Hcreated.
  rewrite Hcreated, Htried, length_app, length_failures, length_take in Hlast.
  apply lookup_lt_Some in Hn. simpl in Hlast.
  replace (n `min` length order + 1)%nat with (S n) in Hlast by lia.
  rewrite seq_S, fmap_app in Hlast. simpl in Hlast.
  rewrite last_snoc in Hlast. by injection Hlast as <-.
Qed.

(** C7 at work: the execution succeeds on the first host tried, the rename
    fails. *)
Lemma C7_promotion_failure_witness :
  let r := MainGo.dispatch env_rename_fails 3 "uptime" ["alpha"; "beta"] ∅ in
  result r = Sent true
  ∧ files r !! "cmd_3-attempt0.log" = Some "up 3 days"
  ∧ files r !! "cmd_3-final.log" = None.
Proof.
  destruct (C7_promotion_failure env_rename_fails 3 "uptime"
              ["alpha"; "beta"] ∅) as [H _].
  - vm_compute. discriminate.
  - destruct (H "cmd_3-attempt0.log" "cmd_3-final.log"
                "invalid cross-device link")
      as (Hres & _ & _ & _ & _ & Hfinal & _).
    + vm_compute. do 3 apply list_elem_of_further. apply list_elem_of_here.
    + split; [exact Hres|]. split; vm_compute; reflexivity.
Defined.

(** ** C8: the summary *)

(** C8, as stated, fails in the earlier variant: the last line of the run is
    the same whether both commands succeeded or both failed; it gives the
    total only. *)
Lemma C8_summary_without_counts :
  let p1 := Part000.main (world_of env_ok) ["disgo"] ∅ in
  let p2 := Part000.main (world_of env_all_fail) ["disgo"] ∅ in
  recvs (pevents p1) = [true; true]
  ∧ recvs (pevents p2) = [false; false]
  ∧ last (pevents p1) = Some (Log "FINISHED 2 commands")
  ∧ last (pevents p2) = Some (Log "FINISHED 2 commands").
Proof. vm_compute. done. Qed.

(** C8, amended.  When every command has sent its result, [main] returns and
    the last event of the run is the summary.  In [main.go] the summary
    reports the number of [true] results received, the number of [false]
    results received and the number of commands, and the first two add up to
    the third.  In the earlier variant the summary reports the number of
    commands only. *)
Theorem C8_run_summary (w : World) (os_Args : list string) (fs : FS)
    (f : flags) (commands hosts : list string) :
  load w os_Args = Some (f, commands, hosts) →
  slice_len_ok commands →
  (let p := MainGo.main w os_Args fs in
   length (sends (pevents p)) = length commands →
   pexit p = Returned
   ∧ ∃ tr succeeded failed total,
       pevents p
       = tr ++ [debug (MainGo.log_FINISHED (Z.of_nat succeeded)
                         (Z.of_nat failed) (Z.of_nat total))]
       ∧ succeeded = count_true (recvs tr)
       ∧ failed = count_false (recvs tr)
       ∧ total = length commands
       ∧ (succeeded + failed)%nat = total
       ∧ length (recvs tr) = total)
  ∧ (let p0 := Part000.main w os_Args fs in
     length (sends (pevents p0)) = length commands →
     pexit p0 = Returned
     ∧ ∃ tr,
         pevents p0
         = tr ++ [debug (Part000.log_FINISHED (Z.of_nat (length commands)))]
         ∧ length (recvs tr) = length commands).
Proof.
  intros Hload Hlen. split; cbv zeta; intros Hall.
  - destruct (MainGoFleet.main_runs w os_Args fs f commands hosts Hload)
      as [(tr & Hexit & Hevs & Htr & Hsr & Hn)
         |(path' & err' & tr & Hexit & Hevs & Htr & Hsr & Hn)].
    2:{ rewrite Hevs in Hall. autorewrite with trace in Hall.
        rewrite launch_sends, Hsr in Hall. simpl in Hall.
        rewrite app_nil_r in Hall. lia. }
    split; [done|].
    exists (launch f commands ++ tr), (count_true (recvs tr)),
      (count_false (recvs tr)), (length commands).
    pose proof (count_true_false (recvs tr)) as Hsum.
    rewrite recvs_app, launch_recvs, app_nil_l.
    repeat split; try done; [|lia].
    rewrite Hevs, <- app_assoc.
    change 0 with (Z.of_nat 0).
    pose proof (count_true_le (recvs tr)) as Hle.
    rewrite iter_int_incr by (unfold slice_len_ok in Hlen; lia).
    rewrite int_sub_of_nat by (done || lia).
    replace (length commands - (0 + count_true (recvs tr)))%nat
      with (count_false (recvs tr)) by lia.
    done.
  - destruct (Part000Fleet.early_main_runs w os_Args fs f commands hosts Hload)
      as [(tr & Hexit & Hevs & Htr & Hsr & Hn)
         |(path' & err' & tr & Hexit & Hevs & Htr & Hsr & Hn)].
    2:{ rewrite Hevs in Hall. autorewrite with trace in Hall.
        rewrite launch_sends, Hsr in Hall. simpl in Hall.
        rewrite app_nil_r in Hall. lia. }
    split; [done|]. exists (launch f commands ++ tr).
    rewrite recvs_app, launch_recvs. split; [|done].
    by rewrite Hevs, <- app_assoc.
Qed.

(** C8 at work: two commands, both succeeding. *)
Lemma C8_run_summary_witness :
  let p := MainGo.main (world_of env_retry) ["disgo"] ∅ in
  pexit p = Returned
  ∧ last (pevents p) = Some (Log "FINISHED=2 FAILED=0 TOTAL=2").
Proof.
  destruct (C8_run_summary (world_of env_retry) ["disgo"] ∅ flag_defaults
              ["uptime"; "date"] ["alpha"; "beta"]) as [HM _].
  - vm_compute. reflexivity.
  - vm_compute. discriminate.
  - destruct HM as [Hexit _]; [vm_compute; reflexivity|].
    split; [exact Hexit|]. vm_compute. reflexivity.
Defined.

(** ** C9: when an artifact cannot be created *)

(** C9. When [os.Create] fails for the artifact of an attempt, the goroutine
    panics at once, without running the command or sending a result, and the
    panic ends the whole program: the failure is the last thing that happens,
    fewer results have been received than goroutines were launched, and no
    summary is written.  This holds in both variants. *)
Theorem C9_create_failure_is_fatal (w : World) (os_Args : list string)
    (fs : FS) (path err : string) :
  (∀ e id command hosts fs',
     let r := MainGo.dispatch e id command hosts fs' in
     let r0 := Part000.dispatch e id command hosts fs' in
     (Create path (Some err) ∈ events r →
      result r = Panicked err ∧ sends (events r) = []
      ∧ ∃ tr, events r = tr ++ [Create path (Some err); Panic err])
     ∧ (Create path (Some err) ∈ events r0 →
        result r0 = Panicked err ∧ sends (events r0) = []
        ∧ ∃ tr, events r0 = tr ++ [Create path (Some err); Panic err]))
  ∧ (let p := MainGo.main w os_Args fs in
     Create path (Some err) ∈ pevents p →
     pexit p = Crashed err
     ∧ (∃ tr, pevents p = tr ++ [Create path (Some err); Panic err])
     ∧ (∀ s f t, debug (MainGo.log_FINISHED s f t) ∉ pevents p)
     ∧ (length (recvs (pevents p)) < length (launched (pevents p)))%nat)
  ∧ (let p0 := Part000.main w os_Args fs in
     Create path (Some err) ∈ pevents p0 →
     pexit p0 = Crashed err
     ∧ (∃ tr, pevents p0 = tr ++ [Create path (Some err); Panic err])
     ∧ (∀ t, debug (Part000.log_FINISHED t) ∉ pevents p0)
     ∧ (length (recvs (pevents p0)) < length (launched (pevents p0)))%nat).
Proof.
  split; [|split].
  - intros e id command hosts fs'. cbv zeta. split; intros Hin.
    + pose proof (MainGoRuns.loop_sends e id command hosts
                    (rand_Perm (rand_src e) (length hosts)) 0 0 fs') as Hsends.
      apply MainGoRuns.loop_create_failed in Hin as [Hres Htr].
      cbv zeta in Hsends. unfold MainGo.dispatch.
      by rewrite Hres in Hsends.
    + pose proof (Part000Runs.early_loop_sends e id command hosts
                    (rand_Perm (rand_src e) (length hosts)) 0 0 fs') as Hsends.
      apply Part000Runs.early_loop_create_failed in Hin as [Hres Htr].
      cbv zeta in Hsends. unfold Part000.dispatch.
      by rewrite Hres in Hsends.
  - cbv zeta. intros Hin.
    destruct (load w os_Args) as [[[f commands] hosts]|] eqn:Hload.
    2:{ destruct (MainGoFleet.main_stops_early w os_Args fs Hload) as [Hev _].
        by apply startup_no_create in Hin. }
    pose proof (launch_startup f commands) as Hla.
    destruct (MainGoFleet.main_runs w os_Args fs f commands hosts Hload)
      as [(tr & Hexit & Hevs & Htr & Hsr & Hn)
         |(path' & err' & tr & Hexit & Hevs & Htr & Hsr & Hn)];
      rewrite Hevs in Hin |- *.
    { by destruct (returned_no_create_failure MainGo.is_summary _ _ _ _ _
                     Hla Htr Hin). }
    destruct (crashed_create_failure MainGo.is_summary _ _ _ _ _ _ Hla Htr Hin)
      as [-> ->].
    split; [done|]. split; [|split].
    + exists (launch f commands ++ tr). by rewrite <- app_assoc.
    + intros s fl t.
      apply (crashed_no_summary MainGo.is_summary); [done..|].
      by exists s, fl, t.
    + autorewrite with trace. rewrite launch_recvs, launch_launched.
      rewrite (fleet_event_launched _ _ Htr). simpl.
      rewrite !app_nil_r, length_fmap, length_seq. exact Hn.
  - cbv zeta. intros Hin.
    destruct (load w os_Args) as [[[f commands] hosts]|] eqn:Hload.
    2:{ destruct (Part000Fleet.early_main_stops_early w os_Args fs Hload)
          as [Hev _].
        by apply startup_no_create in Hin. }
    pose proof (launch_startup f commands) as Hla.
    destruct (Part000Fleet.early_main_runs w os_Args fs f commands hosts Hload)
      as [(tr & Hexit & Hevs & Htr & Hsr & Hn)
         |(path' & err' & tr & Hexit & Hevs & Htr & Hsr & Hn)];
      rewrite Hevs in Hin |- *.
    { by destruct (returned_no_create_failure Part000.is_summary _ _ _ _ _
                     Hla Htr Hin). }
    destruct (crashed_create_failure Part000.is_summary _ _ _ _ _ _ Hla Htr Hin)
      as [-> ->].
    split; [done|]. split; [|split].
    + exists (launch f commands ++ tr). by rewrite <- app_assoc.
    + intros t.
      apply (crashed_no_summary Part000.is_summary); [done..|].
      by exists t.
    + autorewrite with trace. rewrite launch_recvs, launch_launched.
      rewrite (fleet_event_launched _ _ Htr). simpl.
      rewrite !app_nil_r, length_fmap, length_seq. exact Hn.
Qed.

(** C9 at work: the disk is full when the first goroutine creates its
    artifact. *)
Lemma C9_create_failure_is_fatal_witness :
  let p := MainGo.main (world_of env_create_fails) ["disgo"] ∅ in
  pexit p = Crashed "no space left on device"
  ∧ launched (pevents p) = [0; 1] ∧ recvs (pevents p) = [].
Proof.
  destruct (C9_create_failure_is_fatal (world_of env_create_fails) ["disgo"] ∅
              "cmd_0-attempt0.log" "no space left on device")
    as (_ & Hmain & _).
  destruct Hmain as (Hexit & _).
  - vm_compute. do 4 apply list_elem_of_further. apply list_elem_of_here.
  - split; [exact Hexit|]. vm_compute. split; reflexivity.
Defined.

(** ** C10: [help] as the first argument *)

(** C10, as stated, fails: with flags before it, [help] is the first
    positional argument, and yet the files are read, the goroutines are
    launched and the summary is written. *)
Lemma C10_help_after_flags :
  let os_Args := ["disgo"; "-cmds"; "jobs.txt"; "help"] in
  let p := MainGo.main (world_of env_ok) os_Args ∅ in
  first_positional os_Args = Some "help"
  ∧ opened (pevents p) = ["jobs.txt"; "hosts.txt"]
  ∧ launched (pevents p) = [0; 1]
  ∧ created (pevents p) = ["cmd_0-attempt0.log"; "cmd_1-attempt0.log"]
  ∧ last (pevents p) = Some (Log "FINISHED=2 FAILED=0 TOTAL=2").
Proof. vm_compute. done. Qed.

(** C10, amended. If [os.Args[1]], the first argument after the name of the
    program, is exactly [help], the process prints the usage and returns:
    no file is read, no goroutine is launched, no artifact is created and
    no summary is written.  This holds in both variants. *)
Theorem C10_help_first (w : World) (os_Args : list string) (fs : FS) :
  os_Args !! 1%nat = Some "help" →
  MainGo.main w os_Args fs
    = {| pevents := [Usage]; pfiles := fs; pexit := Returned |}
  ∧ Part000.main w os_Args fs
    = {| pevents := [Usage]; pfiles := fs; pexit := Returned |}.
Proof.
  intros Hhelp. destruct os_Args as [|prog [|arg rest]]; try done.
  injection Hhelp as ->. done.
Qed.

(** C10 at work: [help] first, flags after it. *)
Lemma C10_help_first_witness :
  let os_Args := ["disgo"; "help"; "-cmds"; "jobs.txt"] in
  os_Args !! 1%nat = Some "help"
  ∧ pevents (MainGo.main (world_of env_ok) os_Args ∅) = [Usage]
  ∧ pevents (Part000.main (world_of env_ok) os_Args ∅) = [Usage].
Proof.
  split; [reflexivity|].
  destruct (C10_help_first (world_of env_ok)
              ["disgo"; "help"; "-cmds"; "jobs.txt"] ∅) as [-> ->];
    [reflexivity|]. split; reflexivity.
Defined.

(** * Further properties *)

(** ** How [dispatch] ends *)

(** X4. [dispatch] panics exactly when [os.Create] fails, and the value of
    the panic is the error of [os.Create]: the index into [hosts] is never
    out of range.  The failed [os.Create] and the panic are then the last
    two events, and nothing was sent before.  This holds in both
    variants. *)
Theorem X4_dispatch_panics_on_create_only (e : Env) (id : Z)
    (command : string) (hosts : list string) (fs : FS) (msg : string) :
  let r := MainGo.dispatch e id command hosts fs in
  let r0 := Part000.dispatch e id command hosts fs in
  (result r = Panicked msg ↔ ∃ path, Create path (Some msg) ∈ events r)
  ∧ (result r = Panicked msg
     ↔ ∃ path tr, events r = tr ++ [Create path (Some msg); Panic msg]
         ∧ sends tr = [])
  ∧ (result r0 = Panicked msg ↔ ∃ path, Create path (Some msg) ∈ events r0)
  ∧ (result r0 = Panicked msg
     ↔ ∃ path tr, events r0 = tr ++ [Create path (Some msg); Panic msg]
         ∧ sends tr = []).
Proof.
  cbv zeta.
  pose proof (MainGoFleet.dispatch_events e id command hosts fs) as HM.
  pose proof (Part000Fleet.early_dispatch_events e id command hosts fs)
    as HP.
  cbv zeta in HM, HP.
  assert (HcM : ∀ path,
    Create path (Some msg) ∈ events (MainGo.dispatch e id command hosts fs) →
    result (MainGo.dispatch e id command hosts fs) = Panicked msg).
  { intros path Hin. by apply MainGoRuns.loop_create_failed in Hin as [? _]. }
  assert (HcP : ∀ path,
    Create path (Some msg) ∈ events (Part000.dispatch e id command hosts fs) →
    result (Part000.dispatch e id command hosts fs) = Panicked msg).
  { intros path Hin.
    by apply Part000Runs.early_loop_create_failed in Hin as [? _]. }
  repeat split.
  - intros Hres. rewrite Hres in HM. destruct HM as (path & tr & -> & _).
    exists path. apply elem_of_app. right. apply list_elem_of_here.
  - intros [path Hin]. by apply (HcM path).
  - intros Hres. rewrite Hres in HM. destruct HM as (path & tr & -> & _ & ?).
    by exists path, tr.
  - intros (path & tr & Hevs & _). apply (HcM path). rewrite Hevs.
    apply elem_of_app. right. apply list_elem_of_here.
  - intros Hres. rewrite Hres in HP. destruct HP as (path & tr & -> & _).
    exists path. apply elem_of_app. right. apply list_elem_of_here.
  - intros [path Hin]. by apply (HcP path).
  - intros Hres. rewrite Hres in HP. destruct HP as (path & tr & -> & _ & ?).
    by exists path, tr.
  - intros (path & tr & Hevs & _). apply (HcP path). rewrite Hevs.
    apply elem_of_app. right. apply list_elem_of_here.
Qed.

(** ** The names of the artifacts *)

(** X5. The name of an artifact tells the command and the attempt it
    belongs to: two attempt artifacts have the same name only for the same
    command id and the same attempt number, two final artifacts only for
    the same command id, and no attempt artifact has the name of a final
    artifact.  The names of the earlier variant tell command and attempt
    number apart as well. *)
Theorem X5_artifact_names_unambiguous (id a id' a' : Z) :
  (MainGo.attemptOutputPath id a = MainGo.attemptOutputPath id' a'
   ↔ id = id' ∧ a = a')
  ∧ (MainGo.finalOutputPath id = MainGo.finalOutputPath id' ↔ id = id')
  ∧ MainGo.attemptOutputPath id a ≠ MainGo.finalOutputPath id'
  ∧ (Part000.attemptOutputPath id a = Part000.attemptOutputPath id' a'
     ↔ id = id' ∧ a = a').
Proof.
  split; [|split; [|split]].
  - split; [apply MainGoRuns.attemptOutputPath_inj_id|by intros [-> ->]].
  - split; [apply MainGoRuns.finalOutputPath_inj|by intros ->].
  - apply MainGoRuns.attempt_ne_final_id.
  - split; [apply Part000Runs.early_attemptOutputPath_inj_id|
            by intros [-> ->]].
Qed.

(** ** The files [dispatch] writes *)

(** X6. [dispatch] changes no file but the artifacts of its own command: a
    path that is neither an attempt artifact nor the final artifact of
    command [id] has after the call the content it had before, or is still
    absent.  In the earlier variant the only path written is the artifact
    of attempt 0. *)
Theorem X6_dispatch_writes_own_artifacts_only (e : Env) (id : Z)
    (command : string) (hosts : list string) (fs : FS) (p : string) :
  (∀ a, p ≠ MainGo.attemptOutputPath id a) →
  p ≠ MainGo.finalOutputPath id →
  p ≠ Part000.attemptOutputPath id 0 →
  files (MainGo.dispatch e id command hosts fs) !! p = fs !! p
  ∧ files (Part000.dispatch e id command hosts fs) !! p = fs !! p.
Proof.
  intros Hattempt Hfinal Hearly. split.
  - apply MainGoRuns.loop_frame; [done|].
    intros (a & ->)%MainGoRuns.loop_create_calls_own. by apply (Hattempt a).
  - apply Part000Runs.early_loop_frame.
    by intros ->%Part000Runs.early_loop_create_calls_own.
Qed.

(** X6 at work: the hosts file is as it was after a command has run. *)
Lemma X6_dispatch_writes_own_artifacts_only_witness :
  let fs : FS := {[ "hosts.txt" := "alpha" ]} in
  files (MainGo.dispatch env_retry 0 "uptime" ["alpha"; "beta"] fs)
    !! "hosts.txt" = Some "alpha"
  ∧ files (Part000.dispatch env_retry 0 "uptime" ["alpha"; "beta"] fs)
      !! "hosts.txt" = Some "alpha".
Proof.
  destruct (X6_dispatch_writes_own_artifacts_only env_retry 0 "uptime"
              ["alpha"; "beta"] {[ "hosts.txt" := "alpha" ]} "hosts.txt")
    as [HM HP]; [intros a; discriminate|discriminate..|].
  split; [etrans; [exact HM|]|etrans; [exact HP|]]; reflexivity.
Defined.

(** X7. The goroutines of different commands work on different files:
    [dispatch] for command [id] leaves every attempt artifact and the final
    artifact of any other command [id'] as they are, in both variants. *)
Theorem X7_commands_do_not_interfere (e : Env) (id id' a' : Z)
    (command : string) (hosts : list string) (fs : FS) :
  id' ≠ id →
  let r := MainGo.dispatch e id command hosts fs in
  let r0 := Part000.dispatch e id command hosts fs in
  files r !! MainGo.attemptOutputPath id' a'
    = fs !! MainGo.attemptOutputPath id' a'
  ∧ files r !! MainGo.finalOutputPath id' = fs !! MainGo.finalOutputPath id'
  ∧ files r0 !! Part000.attemptOutputPath id' a'
    = fs !! Part000.attemptOutputPath id' a'.
Proof.
  intros Hid. cbv zeta.
  destruct (MainGoRuns.dispatch_frame e id command hosts fs id' a' Hid)
    as [Hattempt Hfinal].
  repeat split; [done..|].
  by apply Part000Runs.early_dispatch_frame.
Qed.

(** X7 at work: command 0 runs, the final artifact of command 1 stays. *)
Lemma X7_commands_do_not_interfere_witness :
  let fs : FS := {[ "cmd_1-final.log" := "Fri Oct 30" ]} in
  let r := MainGo.dispatch env_retry 0 "uptime" ["alpha"; "beta"] fs in
  files r !! "cmd_1-final.log" = Some "Fri Oct 30"
  ∧ files r !! "cmd_0-final.log" = Some "up 3 days".
Proof.
  destruct (X7_commands_do_not_interfere env_retry 0 1 0 "uptime"
              ["alpha"; "beta"] {[ "cmd_1-final.log" := "Fri Oct 30" ]})
    as (_ & Hfinal & _); [discriminate|].
  split; [|vm_compute; reflexivity].
  etrans; [exact Hfinal|]. reflexivity.
Defined.

(** X9. In [main.go], the artifact of an attempt that failed is never
    removed or overwritten by the attempts that follow: when [dispatch]
    ends, however it ends, the artifact of the [n]-th attempt holds the
    output of that execution. *)
Theorem X9_failed_attempts_keep_their_output (e : Env) (id : Z)
    (command : string) (hosts : list string) (fs : FS) (n i : nat)
    (host : string) :
  slice_len_ok hosts →
  let r := MainGo.dispatch e id command hosts fs in
  tried (events r) !! n = Some (i, false) →
  hosts !! i = Some host →
  files r !! MainGo.attemptOutputPath id (Z.of_nat n)
  = Some (cmd_Run e n ["ssh"; "-o"; "ConnectTimeout=2"; host; command]).1.
Proof.
  intros Hlen. cbv zeta. intros Hn Hhost.
  apply (MainGoRuns.loop_failed_files e id command hosts
           (rand_Perm (rand_src e) (length hosts)) 0 0 fs n i host);
    [|done..].
  rewrite rand_Perm_length. exact Hlen.
Qed.

(** X9 at work: the first attempt fails, the second succeeds and is
    promoted; the artifact of the first is still there. *)
Lemma X9_failed_attempts_keep_their_output_witness :
  let r := MainGo.dispatch env_retry 0 "uptime" ["alpha"; "beta"] ∅ in
  result r = Sent true
  ∧ files r !! "cmd_0-attempt0.log" = Some "connection refused"
  ∧ files r !! "cmd_0-final.log" = Some "up 3 days".
Proof.
  split; [vm_compute; reflexivity|]. split; [|vm_compute; reflexivity].
  etrans;
    [apply (X9_failed_attempts_keep_their_output env_retry 0 "uptime"
              ["alpha"; "beta"] ∅ 0 1 "beta")|];
    [vm_compute; discriminate|vm_compute; reflexivity..].
Defined.

(** X10. A command is never run twice on the same entry of the host pool,
    and never more often than the pool has entries; an execution that
    succeeds is the last one.  Every execution runs the command of the
    call on the host its entry names, with its output going to an artifact
    that [os.Create] made for it.  When no name is repeated in the pool,
    the command is never run twice on the same host; a name that the pool
    holds twice can be tried twice.  This holds in both variants. *)
Theorem X10_each_host_entry_tried_at_most_once (e : Env) (id : Z)
    (command : string) (hosts : list string) (fs : FS) :
  let r := MainGo.dispatch e id command hosts fs in
  let r0 := Part000.dispatch e id command hosts fs in
  (NoDup (tried (events r)).*1
   ∧ (length (tried (events r)) ≤ length hosts)%nat
   ∧ (∀ n i, tried (events r) !! n = Some (i, true) →
        S n = length (tried (events r)))
   ∧ (∀ i host cmd path err,
        Run i host cmd path err ∈ events r →
        cmd = command ∧ hosts !! i = Some host
        ∧ Create path None ∈ events r)
   ∧ Forall2 (λ ib host, hosts !! ib.1 = Some host)
       (tried (events r)) (ran_on (events r))
   ∧ (NoDup hosts → NoDup (ran_on (events r))))
  ∧ (NoDup (tried (events r0)).*1
     ∧ (length (tried (events r0)) ≤ length hosts)%nat
     ∧ (∀ n i, tried (events r0) !! n = Some (i, true) →
          S n = length (tried (events r0)))
     ∧ (∀ i host cmd path err,
          Run i host cmd path err ∈ events r0 →
          cmd = command ∧ hosts !! i = Some host
          ∧ Create path None ∈ events r0)
     ∧ Forall2 (λ ib host, hosts !! ib.1 = Some host)
         (tried (events r0)) (ran_on (events r0))
     ∧ (NoDup hosts → NoDup (ran_on (events r0)))).
Proof.
  cbv zeta. unfold MainGo.dispatch, Part000.dispatch.
  set (order := rand_Perm (rand_src e) (length hosts)).
  assert (Hnodup : NoDup order) by apply rand_Perm_NoDup.
  assert (Hlen : length order = length hosts) by apply rand_Perm_length.
  split.
  - pose proof (MainGoRuns.loop_stops_in e id command hosts order 0 0 fs)
      as Hstops.
    destruct (stops_in_NoDup _ _ Hnodup Hstops) as [Hnd Hle].
    assert (Hrun : ∀ i host cmd path err,
      Run i host cmd path err
        ∈ events (MainGo.dispatch_loop e id command hosts order 0 0 fs) →
      hosts !! i = Some host).
    { intros i host cmd path err Hin.
      by apply MainGoRuns.loop_run_host in Hin as [? _]. }
    rewrite Hlen in Hle. split; [done|]. split; [done|].
    split; [|split; [|split]].
    + intros n i. by apply stops_in_success_last with order.
    + intros i host cmd path err Hin.
      pose proof Hin as (Hhost & Hcmd & _)%MainGoRuns.loop_run_host.
      split; [done|]. split; [done|].
      by apply MainGoRuns.loop_run_created in Hin.
    + by apply ran_on_tried.
    + intros Hhosts. by apply (ran_on_NoDup hosts).
  - pose proof (Part000Runs.early_loop_stops_in e id command hosts order 0 0
                  fs) as Hstops.
    destruct (stops_in_NoDup _ _ Hnodup Hstops) as [Hnd Hle].
    assert (Hrun : ∀ i host cmd path err,
      Run i host cmd path err
        ∈ events (Part000.dispatch_loop e id command hosts order 0 0 fs) →
      hosts !! i = Some host).
    { intros i host cmd path err Hin.
      by apply Part000Runs.early_loop_run_host in Hin as [? _]. }
    rewrite Hlen in Hle. split; [done|]. split; [done|].
    split; [|split; [|split]].
    + intros n i. by apply stops_in_success_last with order.
    + intros i host cmd path err Hin.
      pose proof Hin as (Hhost & Hcmd & _)%Part000Runs.early_loop_run_host.
      split; [done|]. split; [done|].
      by apply Part000Runs.early_loop_run_created in Hin.
    + by apply ran_on_tried.
    + intros Hhosts. by apply (ran_on_NoDup hosts).
Qed.

(** X10 at work: two hosts are tried once each; a host listed twice is
    tried twice. *)
Lemma X10_each_host_entry_tried_at_most_once_witness :
  NoDup (ran_on (events (MainGo.dispatch env_all_fail 0 "uptime"
                           ["alpha"; "beta"] ∅)))
  ∧ ran_on (events (MainGo.dispatch env_all_fail 0 "uptime"
                      ["alpha"; "alpha"] ∅)) = ["alpha"; "alpha"].
Proof.
  split; [|vm_compute; reflexivity].
  destruct (X10_each_host_entry_tried_at_most_once env_all_fail 0 "uptime"
              ["alpha"; "beta"] ∅) as [(_ & _ & _ & _ & _ & Hnames) _].
  apply Hnames. apply NoDup_cons. split; [by intros ?%list_elem_of_singleton|].
  apply NoDup_singleton.
Defined.

(** ** The fleet *)

(** X11. In [main.go] the counts of the summary are those of the commands,
    whatever the order in which the goroutines finish: when [main] returns,
    the results it has received are, up to their order, the results of the
    commands each run on its own, and the summary reports how many of
    these are [true], how many are [false], and the number of commands. *)
Theorem X11_summary_counts_the_outcomes (w : World) (os_Args : list string)
    (fs : FS) (f : flags) (commands hosts : list string) :
  load w os_Args = Some (f, commands, hosts) →
  slice_len_ok commands →
  let p := MainGo.main w os_Args fs in
  let outcomes :=
    imap (λ i cmd,
            result (MainGo.dispatch (goroutine w i) (Z.of_nat i) cmd hosts ∅))
      commands in
  pexit p = Returned →
  recvs (pevents p) ≡ₚ omap received outcomes
  ∧ last (pevents p)
    = Some (debug (MainGo.log_FINISHED
                     (Z.of_nat (count_true (omap received outcomes)))
                     (Z.of_nat (count_false (omap received outcomes)))
                     (Z.of_nat (length commands)))).
Proof.
  intros Hload Hlen. cbv zeta. intros Hexit.
  assert (Hrecvs :
    recvs (pevents (MainGo.main w os_Args fs))
    ≡ₚ omap received
         (imap (λ i cmd,
                  result (MainGo.dispatch (goroutine w i) (Z.of_nat i) cmd
                            hosts ∅)) commands)).
  { rewrite (MainGoFleet.main_load _ _ _ _ _ _ Hload) in Hexit |- *.
    unfold pafter in Hexit |- *. cbn [pevents pexit] in Hexit |- *.
    rewrite recvs_app, launch_recvs, app_nil_l.
    rewrite MainGoFleet.gather_recvs by (done || apply length_imap).
    by rewrite <- (omap_imap_pair
                     (λ i cmd, result (MainGo.dispatch (goroutine w i)
                                         (Z.of_nat i) cmd hosts ∅))
                     received). }
  split; [exact Hrecvs|].
  destruct (MainGoFleet.main_runs w os_Args fs f commands hosts Hload)
    as [(tr & _ & Hevs & _ & _ & Hn)|(path & err & tr & Hcrash & _)];
    [|by rewrite Hcrash in Hexit].
  rewrite Hevs in Hrecvs. autorewrite with trace in Hrecvs.
  rewrite launch_recvs in Hrecvs. simpl in Hrecvs.
  rewrite app_nil_r in Hrecvs.
  rewrite <- (count_true_Permutation _ _ Hrecvs),
    <- (count_false_Permutation _ _ Hrecvs).
  rewrite Hevs, !app_assoc, last_snoc.
  pose proof (count_true_false (recvs tr)) as Hsum.
  change 0 with (Z.of_nat 0).
  rewrite iter_int_incr by (unfold slice_len_ok in Hlen; lia).
  rewrite int_sub_of_nat by (done || lia).
  replace (length commands - (0 + count_true (recvs tr)))%nat
    with (count_false (recvs tr)) by lia.
  done.
Qed.

(** X11 at work: with scheduling reversed the summary is the same. *)
Lemma X11_summary_counts_the_outcomes_witness :
  let w := {| goroutine := λ i, if bool_decide (i = 0%nat) then env_all_fail
                                else env_ok;
              os_Open := os_Open (world_of env_ok);
              sched := λ _, 1%nat |} in
  last (pevents (MainGo.main w ["disgo"] ∅))
  = Some (Log "FINISHED=1 FAILED=1 TOTAL=2").
Proof.
  cbv zeta.
  edestruct (X11_summary_counts_the_outcomes
               {| goroutine := λ i, if bool_decide (i = 0%nat)
                                    then env_all_fail else env_ok;
                  os_Open := os_Open (world_of env_ok);
                  sched := λ _, 1%nat |}
               ["disgo"] ∅ flag_defaults ["uptime"; "date"]
               ["alpha"; "beta"]) as [_ Hlast].
  - vm_compute. reflexivity.
  - vm_compute. discriminate.
  - vm_compute. reflexivity.
  - etrans; [exact Hlast|]. vm_compute. reflexivity.
Defined.



(** X13. The commands do not disturb one another: when [main] returns,
    every artifact of a command is what [dispatch] makes of it when that
    command runs alone, whatever the order in which the goroutines finish,
    and every file that is not an artifact of one of the commands is as it
    was.  This holds in both variants. *)
Theorem X13_commands_run_as_if_alone (w : World) (os_Args : list string)
    (fs : FS) (f : flags) (commands hosts : list string) :
  load w os_Args = Some (f, commands, hosts) →
  let p := MainGo.main w os_Args fs in
  let p0 := Part000.main w os_Args fs in
  (pexit p = Returned →
   (∀ i cmd path,
      commands !! i = Some cmd → artifact_of (Z.of_nat i) path →
      pfiles p !! path
      = files (MainGo.dispatch (goroutine w i) (Z.of_nat i) cmd hosts fs)
          !! path)
   ∧ (∀ path,
        (∀ i, (i < length commands)%nat → ¬ artifact_of (Z.of_nat i) path) →
        pfiles p !! path = fs !! path))
  ∧ (pexit p0 = Returned →
     (∀ i cmd path,
        commands !! i = Some cmd → early_artifact_of (Z.of_nat i) path →
        pfiles p0 !! path
        = files (Part000.dispatch (goroutine w i) (Z.of_nat i) cmd hosts fs)
            !! path)
     ∧ (∀ path,
          (∀ i, (i < length commands)%nat →
                ¬ early_artifact_of (Z.of_nat i) path) →
          pfiles p0 !! path = fs !! path)).
Proof.
  intros Hload. cbv zeta.
  rewrite (MainGoFleet.main_load _ _ _ _ _ _ Hload),
    (Part000Fleet.early_main_load _ _ _ _ _ _ Hload).
  unfold pafter. cbn [pexit pfiles].
  assert (Hnodup : NoDup (imap pair commands).*1).
  { rewrite imap_pair_fst. apply NoDup_seq. }
  assert (Hin : ∀ i cmd,
    (i, cmd) ∈ imap pair commands ↔ commands !! i = Some cmd).
  { intros i cmd. rewrite elem_of_lookup_imap. split.
    - by intros (j & y & [= -> ->] & ?).
    - intros ?. by exists i, cmd. }
  split; intros Hexit.
  - destruct (gather_files w commands hosts (length commands) 0
                (imap pair commands) 0 fs) as [Hown Hframe];
      [apply length_imap|done..|].
    split.
    + intros i cmd path Hi. apply Hown. by apply Hin.
    + intros path Hnone. apply Hframe. intros i cmd Hi%Hin.
      apply Hnone. by apply lookup_lt_Some in Hi.
  - destruct (early_gather_files w commands hosts (length commands) 0
                (imap pair commands) fs) as [Hown Hframe];
      [apply length_imap|done..|].
    split.
    + intros i cmd path Hi. apply Hown. by apply Hin.
    + intros path Hnone. apply Hframe. intros i cmd Hi%Hin.
      apply Hnone. by apply lookup_lt_Some in Hi.
Qed.

(** X13 at work: the second command finishes first; the final artifact of
    the first is the one it makes alone. *)
Lemma X13_commands_run_as_if_alone_witness :
  let w := {| goroutine := λ _, env_retry;
              os_Open := os_Open (world_of env_retry);
              sched := λ _, 1%nat |} in
  pfiles (MainGo.main w ["disgo"] ∅) !! "cmd_0-final.log" = Some "up 3 days"
  ∧ pfiles (MainGo.main w ["disgo"] ∅) !! "cmd_0-attempt0.log"
    = Some "connection refused".
Proof.
  cbv zeta.
  edestruct (X13_commands_run_as_if_alone
               {| goroutine := λ _, env_retry;
                  os_Open := os_Open (world_of env_retry);
                  sched := λ _, 1%nat |}
               ["disgo"] ∅ flag_defaults ["uptime"; "date"]
               ["alpha"; "beta"]) as [[Hown _] _].
  - vm_compute. reflexivity.
  - vm_compute. reflexivity.
  - split.
    + etrans; [apply (Hown 0%nat "uptime"); [reflexivity|by right]|].
      vm_compute. reflexivity.
    + etrans; [apply (Hown 0%nat "uptime"); [reflexivity|left; by exists 0]|].
      vm_compute. reflexivity.
Defined.

(** ** The input files *)

(** X14. When the commands file or the hosts file cannot be read, because
    [os.Open] fails or because the scanner ends with an error, [main]
    panics with that error before anything is dispatched: no goroutine is
    launched, no artifact is created, nothing is logged, and the files are
    as they were.  The hosts file is opened only once the commands are
    read.  This holds in both variants. *)
Theorem X14_unreadable_input_is_fatal (w : World) (os_Args : list string)
    (fs : FS) (f : flags) (rest : list string) (err : string) :
  flag_Parse flag_defaults (tail os_Args) = Parsed f rest →
  os_Args !! 1%nat ≠ Some "help" →
  (readLines w (cmdsFilePath f)).2.2 = Some err
  ∨ ((readLines w (cmdsFilePath f)).2.2 = None
     ∧ (readLines w (hostsFilePath f)).2.2 = Some err) →
  let reads :=
    cmdsFilePath f
    :: match (readLines w (cmdsFilePath f)).2.2 with
       | None => [hostsFilePath f]
       | Some _ => []
       end in
  let p := MainGo.main w os_Args fs in
  let p0 := Part000.main w os_Args fs in
  (pexit p = Crashed err ∧ last (pevents p) = Some (Panic err)
   ∧ Forall startup_event (pevents p) ∧ launched (pevents p) = []
   ∧ opened (pevents p) = reads ∧ pfiles p = fs)
  ∧ (pexit p0 = Crashed err ∧ last (pevents p0) = Some (Panic err)
     ∧ Forall startup_event (pevents p0) ∧ launched (pevents p0) = []
     ∧ opened (pevents p0) = reads ∧ pfiles p0 = fs).
Proof.
  intros Hparse Hhelp Herr. cbv zeta.
  unfold MainGo.main, Part000.main.
  rewrite Hparse, main_help_index, (bool_decide_eq_false_2 _ Hhelp).
  revert Herr. unfold readLines.
  destruct (os_Open w (cmdsFilePath f)) as [err1|[cs [err1|]]]; simpl.
  - intros [[= ->]|[[=] _]]. by repeat split; events_ok.
  - intros [[= ->]|[[=] _]]. by repeat split; events_ok.
  - intros [[=]|[_ Herr]]. revert Herr.
    destruct (os_Open w (hostsFilePath f)) as [err2|[hs [err2|]]]; simpl;
      intros [= ->]; by repeat split; events_ok.
Qed.

(** X14 at work: the commands file does not exist. *)
Lemma X14_unreadable_input_is_fatal_witness :
  let p := MainGo.main (world_of env_ok) ["disgo"; "-cmds"; "nowhere.txt"] ∅ in
  (∃ err, pexit p = Crashed err) ∧ opened (pevents p) = ["nowhere.txt"]
  ∧ launched (pevents p) = [].
Proof.
  cbv zeta.
  edestruct (X14_unreadable_input_is_fatal (world_of env_ok)
               ["disgo"; "-cmds"; "nowhere.txt"] ∅)
    as [(Hexit & _ & _ & Hlaunched & Hopened & _) _].
  - vm_compute. reflexivity.
  - discriminate.
  - left. vm_compute. reflexivity.
  - split; [eexists; exact Hexit|]. split; [|exact Hlaunched].
    etrans; [exact Hopened|]. vm_compute. reflexivity.
Defined.

(** X15. With nothing to run on, or nothing to run, [main] touches no
    file.  When the hosts file is empty every command reports [false]
    without creating an artifact or running anything, and the summary
    counts every command as failed; when the commands file is empty the
    summary is written at once.  In the earlier variant the summary gives
    the number of commands. *)
Theorem X15_nothing_to_run (w : World) (os_Args : list string) (fs : FS)
    (f : flags) (commands hosts : list string) :
  load w os_Args = Some (f, commands, hosts) →
  slice_len_ok commands →
  hosts = [] ∨ commands = [] →
  let p := MainGo.main w os_Args fs in
  let p0 := Part000.main w os_Args fs in
  let total := Z.of_nat (length commands) in
  (pexit p = Returned ∧ pfiles p = fs
   ∧ create_calls (pevents p) = [] ∧ tried (pevents p) = []
   ∧ recvs (pevents p) = replicate (length commands) false
   ∧ last (pevents p) = Some (debug (MainGo.log_FINISHED 0 total total)))
  ∧ (pexit p0 = Returned ∧ pfiles p0 = fs
     ∧ create_calls (pevents p0) = [] ∧ tried (pevents p0) = []
     ∧ recvs (pevents p0) = replicate (length commands) false
     ∧ last (pevents p0) = Some (debug (Part000.log_FINISHED total))).
Proof.
  intros Hload Hlen Hempty. cbv zeta.
  rewrite (MainGoFleet.main_load _ _ _ _ _ _ Hload),
    (Part000Fleet.early_main_load _ _ _ _ _ _ Hload).
  unfold pafter. cbn [pexit pfiles pevents].
  rewrite !create_calls_app, !tried_app, !recvs_app, !launch_create_calls,
    !launch_tried, !launch_recvs, !app_nil_l.
  assert (Hsub : int_sub (Z.of_nat (length commands)) 0
                 = Z.of_nat (length commands)).
  { change 0 with (Z.of_nat 0). rewrite int_sub_of_nat by (done || lia).
    f_equal. lia. }
  destruct Hempty as [->| ->].
  - destruct (gather_no_hosts w commands (length commands) 0
                (imap pair commands) 0 fs)
      as (HexitM & HfilesM & HcreateM & HtriedM & HrecvsM & HlastM);
      [apply length_imap|].
    destruct (early_gather_no_hosts w commands (length commands) 0
                (imap pair commands) fs)
      as (HexitP & HfilesP & HcreateP & HtriedP & HrecvsP & HlastP);
      [apply length_imap|].
    rewrite Hsub in HlastM.
    repeat split; try done; by rewrite last_app, ?HlastM, ?HlastP.
  - repeat split; try done; by rewrite last_app.
Qed.

(** X15 at work: two commands and an empty hosts file. *)
Lemma X15_nothing_to_run_witness :
  let w := {| goroutine := λ _, env_ok;
              os_Open := λ path, if bool_decide (path = "hosts.txt")
                                 then inr ([], None)
                                 else os_Open (world_of env_ok) path;
              sched := λ _, 0%nat |} in
  last (pevents (MainGo.main w ["disgo"] ∅))
  = Some (Log "FINISHED=0 FAILED=2 TOTAL=2")
  ∧ pfiles (MainGo.main w ["disgo"] ∅) = ∅.
Proof.
  cbv zeta.
  edestruct (X15_nothing_to_run
               {| goroutine := λ _, env_ok;
                  os_Open := λ path, if bool_decide (path = "hosts.txt")
                                     then inr ([], None)
                                     else os_Open (world_of env_ok) path;
                  sched := λ _, 0%nat |}
               ["disgo"] ∅ flag_defaults ["uptime"; "date"] [])
    as [(_ & Hfiles & _ & _ & _ & Hlast) _].
  - vm_compute. reflexivity.
  - vm_compute. discriminate.
  - by left.
  - split; [|exact Hfiles]. etrans; [exact Hlast|]. vm_compute. reflexivity.
Defined.

(** X16. The flags [-cmds] and [-hosts] name the files [main] reads, in the
    form [-name value] as in the form [-name=value], with one dash or two
    and in either order; without a flag the file is [cmds.txt], or
    [hosts.txt].  The commands file is opened first, and the hosts file
    only once the commands are read.  This holds in both variants. *)
Theorem X16_flags_name_the_input_files (w : World) (prog c h : string)
    (fs : FS) :
  let reads (f : flags) :=
    cmdsFilePath f
    :: match os_Open w (cmdsFilePath f) with
       | inr (_, None) => [hostsFilePath f]
       | _ => []
       end in
  let opens (args : list string) :=
    (opened (pevents (MainGo.main w (prog :: args) fs)),
     opened (pevents (Part000.main w (prog :: args) fs))) in
  let both (f : flags) := (reads f, reads f) in
  let named := {| cmdsFilePath := c; hostsFilePath := h |} in
  opens ["-cmds"; c; "-hosts"; h] = both named
  ∧ opens ["-hosts"; h; "-cmds"; c] = both named
  ∧ opens ["--cmds=" +:+ c; "--hosts=" +:+ h] = both named
  ∧ opens ["-hosts=" +:+ h; "--cmds"; c] = both named
  ∧ opens ["-cmds"; c]
    = both {| cmdsFilePath := c; hostsFilePath := "hosts.txt" |}
  ∧ opens ["-hosts"; h]
    = both {| cmdsFilePath := "cmds.txt"; hostsFilePath := h |}
  ∧ opens [] = both flag_defaults.
Proof.
  cbv zeta.
  repeat split; f_equal;
    (eapply main_opened || eapply early_main_opened);
    first [reflexivity | discriminate | intros [= Heq]; discriminate Heq].
Qed.

(** ** The diagnostic lines and the names, as formatted *)

(** X17. Every call of [fmt.Sprintf] and of [debug] in the program gives
    its format as many operands as the format has verbs: each name and each
    diagnostic line is its format with every [%v] replaced by the operand
    in its default form, nothing is reported as missing or left over, and
    every diagnostic line ends with a newline.  An operand is never read
    as a format: a host name with a percent sign is printed as it is. *)
Theorem X17_formats_match_their_operands (id attempts : Z)
    (host err final attempt : string) (succeeded failed total : Z) :
  fmt_Sprintf "cmd_%v-attempt%v.log" [Int id; Int attempts]
    = Some (MainGo.attemptOutputPath id attempts)
  ∧ fmt_Sprintf "cmd_%v-final.log" [Int id]
    = Some (MainGo.finalOutputPath id)
  ∧ fmt_Sprintf "cmd%v_attempt%v.log" [Int id; Int attempts]
    = Some (Part000.attemptOutputPath id attempts)
  ∧ debug_output "EXEC command id=%v host=%v" [Int id; Str host]
    = Some (MainGo.log_EXEC id host +:+ newline)
  ∧ debug_output "ERROR id=%v status=%v" [Int id; Err err]
    = Some (MainGo.log_ERROR id err +:+ newline)
  ∧ debug_output
      "ERROR (id=%v): could not write output path %v, final output in %v"
      [Int id; Str final; Str attempt]
    = Some (MainGo.log_ERROR_rename id final attempt +:+ newline)
  ∧ debug_output "SUCC id=%v output=%v" [Int id; Str attempt]
    = Some (MainGo.log_SUCC id attempt +:+ newline)
  ∧ debug_output "FAILED id=%v exhausted all servers and could not complete"
      [Int id]
    = Some (MainGo.log_FAILED id +:+ newline)
  ∧ debug_output "FINISHED=%v FAILED=%v TOTAL=%v"
      [Int succeeded; Int failed; Int total]
    = Some (MainGo.log_FINISHED succeeded failed total +:+ newline)
  ∧ debug_output "EXEC command id=%v host=%v" [Int id; Str host]
    = Some (Part000.log_EXEC id host +:+ newline)
  ∧ debug_output "ERROR id=%v status=%v" [Int id; Err err]
    = Some (Part000.log_ERROR id err +:+ newline)
  ∧ debug_output "Retrying command on next host..." []
    = Some (Part000.log_Retrying +:+ newline)
  ∧ debug_output "FAILED id=%v exhausted all servers and could not complete"
      [Int id]
    = Some (Part000.log_FAILED id +:+ newline)
  ∧ debug_output "FINISHED %v commands" [Int total]
    = Some (Part000.log_FINISHED total +:+ newline).
Proof.
  unfold MainGo.attemptOutputPath, MainGo.finalOutputPath,
    Part000.attemptOutputPath, MainGo.log_EXEC, MainGo.log_ERROR,
    MainGo.log_ERROR_rename, MainGo.log_SUCC, MainGo.log_FAILED,
    MainGo.log_FINISHED, Part000.log_EXEC, Part000.log_ERROR,
    Part000.log_Retrying, Part000.log_FAILED, Part000.log_FINISHED.
  rewrite !string_app_assoc.
  repeat split; reflexivity.
Qed.
